(** * droid-apikey-usage: credential aggregation and reconciliation

    A shallow embedding of the core of [main.ts]: the Deno KV credential
    store, the remote usage fetcher [fetchApiKeyData], the server-side
    aggregator [getAggregatedData], the browser-side progressive loader
    [loadUsageDataProgressively], duplicate detection and cleaning, batch
    import, batch delete and the cleanup operations.

    Conventions of the embedding.
    - JavaScript strings are [string]s: the bytes of the UTF-8 encoding of
      the text, which for the ASCII text of IDs and secrets is one byte per
      code unit; [undefined] / absent properties are [None].
    - JSON numbers that the program reads are integers ([Z]) that a double
      holds exactly: credits and epoch milliseconds.  Their differences are
      compared by sign, which rounding keeps; the totals that the program
      adds up are IEEE 754 doubles ([SpecFloat] of the Standard Library,
      with 53 bits of precision), added with rounding to nearest, ties to
      even.
    - Asynchronous code that is awaited in sequence is a computation in the
      monad [M] (state of the process, plus exceptions); a [try]/[catch] is
      [try_catch].  The dispatch structure of [Promise.all] is modelled
      separately, as traces of events, in module [Flight]. *)

From Stdlib Require Import ZArith List String Ascii Bool Lia Arith.
From Stdlib Require Import DecimalString Permutation Sorted.
From Stdlib Require QArith.
From Stdlib Require SpecFloat.
Import ListNotations.

Local Open Scope string_scope.
Local Open Scope Z_scope.

(* ================================================================== *)
(** ** JavaScript strings *)

Module JS.

(** [s.length] *)
Definition length (s : string) : Z := Z.of_nat (String.length s).

(** Clamping of an index argument of [substring] to [0 .. s.length]. *)
Definition clamp (i len : Z) : Z := Z.max 0 (Z.min i len).

(** [s.substring(start, end)]: both indices are clamped, and swapped when
    [start > end]. *)
Definition substring (s : string) (start end_ : Z) : string :=
  let len := length s in
  let a := clamp start len in
  let b := clamp end_ len in
  let lo := Z.min a b in
  let hi := Z.max a b in
  String.substring (Z.to_nat lo) (Z.to_nat (hi - lo)) s.

(** [s.substring(start)]: the end defaults to [s.length]. *)
Definition substring_from (s : string) (start : Z) : string :=
  substring s start (length s).

Definition rev_string (s : string) : string :=
  string_of_list_ascii (rev (list_ascii_of_string s)).

Definition bytes (l : list nat) : string :=
  string_of_list_ascii (map ascii_of_nat l).

(** The white space and the line terminators that [trim] removes, each as
    the bytes of its UTF-8 encoding: TAB, LF, VT, FF, CR, SPACE, NBSP,
    U+1680, U+2000 to U+200A, U+2028, U+2029, U+202F, U+205F, U+3000 and
    U+FEFF. *)
Definition white_space : list string :=
  map bytes
    [ [9]; [10]; [11]; [12]; [13]; [32]; [194; 160]; [225; 154; 128];
      [226; 128; 128]; [226; 128; 129]; [226; 128; 130]; [226; 128; 131];
      [226; 128; 132]; [226; 128; 133]; [226; 128; 134]; [226; 128; 135];
      [226; 128; 136]; [226; 128; 137]; [226; 128; 138];
      [226; 128; 168]; [226; 128; 169]; [226; 128; 175]; [226; 129; 159];
      [227; 128; 128]; [239; 187; 191] ]%nat.

(** [s] without its prefix [p], when it starts with [p]. *)
Fixpoint strip_prefix (p s : string) : option string :=
  match p with
  | EmptyString => Some s
  | String a p' =>
      match s with
      | String b s' => if (a =? b)%char then strip_prefix p' s' else None
      | EmptyString => None
      end
  end.

(** [s] without the first entry of [table] that it starts with. *)
Fixpoint strip_any (table : list string) (s : string) : option string :=
  match table with
  | [] => None
  | p :: rest =>
      match strip_prefix p s with
      | Some s' => Some s'
      | None => strip_any rest s
      end
  end.

(** Entries of [table] are stripped from the start of [s] as long as there
    is one, at most [fuel] times. *)
Fixpoint strip_all (table : list string) (fuel : nat) (s : string) : string :=
  match fuel with
  | O => s
  | S fuel' =>
      match strip_any table s with
      | Some s' => strip_all table fuel' s'
      | None => s
      end
  end.

(** [s.trimStart()]: no more characters can go than [s] has bytes. *)
Definition trim_start (s : string) : string :=
  strip_all white_space (String.length s) s.

(** [s.trimEnd()], on the reversed bytes. *)
Definition trim_end (s : string) : string :=
  rev_string (strip_all (map rev_string white_space) (String.length s)
                        (rev_string s)).

(** [s.trim()] *)
Definition trim (s : string) : string := trim_end (trim_start s).

(** Template-literal rendering of an integer. *)
Definition of_Z (n : Z) : string := NilZero.string_of_int (Z.to_int n).

(** Truthiness of a possibly absent string property. *)
Definition truthy (o : option string) : bool :=
  match o with
  | Some s => negb (s =? "")%string
  | None => false
  end.

(** A property that holds a number when it is present: [undefined]
    (absent), [null], or an integer that a double holds exactly. *)
Inductive num :=
| Undefined
| Null
| Number (n : Z).

(** [x || 0] *)
Definition or_zero (x : num) : Z :=
  match x with
  | Number n => n
  | _ => 0
  end.

(** [x - y]: [null] converts to 0 and [undefined] to [NaN], which is
    [None] here. *)
Definition to_number (x : num) : option Z :=
  match x with
  | Undefined => None
  | Null => Some 0
  | Number n => Some n
  end.

Definition sub (x y : num) : option Z :=
  match to_number x, to_number y with
  | Some a, Some b => Some (a - b)
  | _, _ => None
  end.

(** [d <= 0], which is false on [NaN]. *)
Definition le_zero (d : option Z) : bool :=
  match d with
  | Some n => n <=? 0
  | None => false
  end.

(** The line feed of ["\n"]. *)
Definition nl : string := String (ascii_of_nat 10) EmptyString.

(** A number as the program adds it up: an IEEE 754 double. *)
Definition double : Type := SpecFloat.spec_float.

(** The double nearest to an integer, as [JSON.parse] and a numeric
    literal yield it. *)
Definition double_of (n : Z) : double :=
  SpecFloat.binary_normalize 53 1024 n 0 false.

(** [x + y] on numbers. *)
Definition add (x y : double) : double := SpecFloat.SFadd 53 1024 x y.

(** The integer that a double holds, when it holds one. *)
Definition integer_of (d : double) : option Z :=
  match d with
  | SpecFloat.S754_zero _ => Some 0
  | SpecFloat.S754_finite s m e =>
      if 0 <=? e then Some (SpecFloat.cond_Zopp s (Z.pos m * 2 ^ e))
      else if (Z.pos m mod 2 ^ (- e) =? 0)
           then Some (SpecFloat.cond_Zopp s (Z.pos m / 2 ^ (- e)))
           else None
  | _ => None
  end.

End JS.

(** The masked form computed on the success path of [fetchApiKeyData], by
    [findDuplicateKeys], [batchImportKeys] and [GET /api/keys]:
    [`${key.substring(0, 4)}...${key.substring(key.length - 4)}`]. *)
Definition maskedKey (key : string) : string :=
  JS.substring key 0 4 ++ "..." ++ JS.substring_from key (JS.length key - 4).

(** The shortened form of the failure paths of [fetchApiKeyData] and of the
    log line of [batchImportKeys]: [`${key.substring(0, 4)}...`]. *)
Definition prefixKey (key : string) : string :=
  JS.substring key 0 4 ++ "...".

(** The masked form in the words of the specification: the first 4
    characters, an ellipsis, the last 4 characters. *)
Definition first_chars (n : nat) (s : string) : string :=
  string_of_list_ascii (firstn n (list_ascii_of_string s)).

Definition last_chars (n : nat) (s : string) : string :=
  let l := list_ascii_of_string s in
  string_of_list_ascii (skipn (List.length l - n) l).

Definition spec_masked (secret : string) : string :=
  first_chars 4 secret ++ "..." ++ last_chars 4 secret.

(* ================================================================== *)
(** ** The process state and the monad of effects *)

(** [interface ApiKeyEntry] *)
Record ApiKeyEntry := mkEntry {
  entry_id : string;
  entry_key : string;
  entry_name : option string;
  entry_note : option string;
  entry_createdAt : Z
}.

(** The [["apikeys", id]] range of the Deno KV database, as the pairs that
    [kv.list] yields, in its iteration order. *)
Definition KV := list (string * ApiKeyEntry).

(** What the remote accounting endpoint sent back, as far as the program
    reads it.  [usage] and [standard] are [None] when the property is falsy
    (absent, [null], ...). *)
Record StandardUsage := mkStandard {
  std_orgTotalTokensUsed : JS.num;
  std_totalAllowance : JS.num;
  std_usedRatio : option QArith_base.Q
}.

Record UsageInfo := mkUsage {
  usage_startDate : JS.num;
  usage_endDate : JS.num;
  usage_standard : option StandardUsage
}.

Inductive ApiData :=
| ApiNull                                (* the JSON value [null] *)
| ApiValue (usage : option UsageInfo).   (* any other JSON value *)

Inductive Result (A : Type) : Type :=
| Ok (a : A)
| Throw (message : string).
Arguments Ok {A} a.
Arguments Throw {A} message.

(** A [Response]: its status, and what [response.text()] and
    [response.json()] resolve to (or reject with). *)
Record Response := mkResponse {
  resp_status : Z;
  resp_text : Result string;
  resp_json : Result ApiData
}.

(** [response.ok]: the status is in the range 200-299. *)
Definition status_ok (status : Z) : bool :=
  (200 <=? status) && (status <=? 299).

Definition resp_ok (r : Response) : bool := status_ok (resp_status r).

(** Outcome of one [fetch] of the usage endpoint. *)
Inductive Outcome :=
| NetworkError (message : string)   (* the promise of [fetch] rejects *)
| Responded (r : Response).

(** The state of the process and of its environment: the KV database, the
    console, the remote endpoint (by bearer secret), the outcome of the
    coming KV operations ([true]: the operation throws) and the clock
    ([Date.now()] advances by the next tick before it is read). *)
Record World := mkWorld {
  kv : KV;
  console : list string;
  remote : string -> Outcome;
  faults : list bool;
  now : Z;
  ticks : list Z
}.

Definition M (A : Type) : Type := World -> Result A * World.

Definition ret {A} (a : A) : M A := fun w => (Ok a, w).

Definition bind {A B} (m : M A) (k : A -> M B) : M B :=
  fun w =>
    match m w with
    | (Ok a, w') => k a w'
    | (Throw e, w') => (Throw e, w')
    end.

Definition throw {A} (e : string) : M A := fun w => (Throw e, w).

(** [try { m } catch (error) { h error.message }] *)
Definition try_catch {A} (m : M A) (h : string -> M A) : M A :=
  fun w =>
    match m w with
    | (Ok a, w') => (Ok a, w')
    | (Throw e, w') => h e w'
    end.

Notation "x <- m ;; k" := (bind m (fun x => k))
  (at level 61, m at next level, right associativity).
Notation "m ;;; k" := (bind m (fun _ => k))
  (at level 61, right associativity).

(** [console.log] / [console.error] *)
Definition console_log (line : string) : M unit :=
  fun w => (Ok tt, mkWorld (kv w) (console w ++ [line]) (remote w)
                           (faults w) (now w) (ticks w)).

(** [Date.now()] *)
Definition date_now : M Z :=
  fun w =>
    match ticks w with
    | [] => (Ok (now w), w)
    | d :: ds =>
        (Ok (now w + d),
         mkWorld (kv w) (console w) (remote w) (faults w) (now w + d) ds)
    end.

(** One operation of the KV database: it throws when the environment says
    so, and otherwise reads and updates the pairs. *)
Definition kv_op {A} (f : KV -> A * KV) : M A :=
  fun w =>
    match faults w with
    | true :: fs =>
        (Throw "KV operation failed",
         mkWorld (kv w) (console w) (remote w) fs (now w) (ticks w))
    | false :: fs =>
        let (a, kv') := f (kv w) in
        (Ok a, mkWorld kv' (console w) (remote w) fs (now w) (ticks w))
    | [] =>
        let (a, kv') := f (kv w) in
        (Ok a, mkWorld kv' (console w) (remote w) [] (now w) (ticks w))
    end.

(** [await fetch(url, { headers: { Authorization: `Bearer ${key}` } })] *)
Definition fetch_usage (key : string) : M Response :=
  fun w =>
    match remote w key with
    | NetworkError e => (Throw e, w)
    | Responded r => (Ok r, w)
    end.

(** [await response.text()] and [await response.json()] *)
Definition lift_result {A} (r : Result A) : M A := fun w => (r, w).

(** [await Promise.all(items.map(call))], when no call throws before the
    others are done: the results come in the order of the items. *)
Fixpoint promise_all {A B} (call : A -> M B) (items : list A) : M (list B) :=
  match items with
  | [] => ret []
  | item :: rest =>
      result <- call item ;;
      results <- promise_all call rest ;;
      ret (result :: results)
  end.

(* ================================================================== *)
(** ** The credential store (KV database functions) *)

(** [kv.set(["apikeys", k], v)]: the pair replaces the one under the same
    key, or is inserted at its place in the key order of [kv.list]. *)
Fixpoint kv_set (k : string) (v : ApiKeyEntry) (s : KV) : KV :=
  match s with
  | [] => [(k, v)]
  | (k', v') :: s' =>
      match String.compare k k' with
      | Eq => (k, v) :: s'
      | Lt => (k, v) :: s
      | Gt => (k', v') :: kv_set k v s'
      end
  end.

(** [kv.delete(["apikeys", k])]: deleting an absent key is not an error. *)
Definition kv_delete (k : string) (s : KV) : KV :=
  filter (fun p => negb (fst p =? k)%string) s.

(** [kv.get(["apikeys", k])] *)
Definition kv_get (k : string) (s : KV) : option ApiKeyEntry :=
  option_map snd (find (fun p => (fst p =? k)%string) s).

Definition saveApiKey (id key : string) (name : option string) : M unit :=
  t <- date_now ;;
  let entry :=
    mkEntry id key
            (Some (if JS.truthy name
                   then match name with Some n => n | None => "" end
                   else "Key " ++ id))
            None t in
  kv_op (fun s => (tt, kv_set id entry s)).

Definition getApiKey (id : string) : M (option ApiKeyEntry) :=
  kv_op (fun s => (kv_get id s, s)).

Definition getAllApiKeys : M (list ApiKeyEntry) :=
  kv_op (fun s => (map snd s, s)).

Definition deleteApiKey (id : string) : M unit :=
  kv_op (fun s => (tt, kv_delete id s)).

Definition checkDuplicateKey (key : string) : M bool :=
  allKeys <- getAllApiKeys ;;
  ret (existsb (fun entry => (entry_key entry =? key)%string) allKeys).

(* ------------------------------------------------------------------ *)
(** *** [findDuplicateKeys] *)

(** A JavaScript [Map<string, string[]>]: iteration is in insertion order
    and [set] on a present key keeps its position. *)
Definition KeyMap := list (string * list string).

Fixpoint map_get (k : string) (m : KeyMap) : option (list string) :=
  match m with
  | [] => None
  | (k', v) :: m' => if (k' =? k)%string then Some v else map_get k m'
  end.

Fixpoint map_set (k : string) (v : list string) (m : KeyMap) : KeyMap :=
  match m with
  | [] => [(k, v)]
  | (k', v') :: m' =>
      if (k' =? k)%string then (k, v) :: m' else (k', v') :: map_set k v m'
  end.

(** The body of the first loop: [existing = keyMap.get(entry.key) || [];
    existing.push(entry.id); keyMap.set(entry.key, existing)]. *)
Definition group_entry (keyMap : KeyMap) (entry : ApiKeyEntry) : KeyMap :=
  let existing :=
    match map_get (entry_key entry) keyMap with
    | Some ids => ids
    | None => []
    end in
  map_set (entry_key entry) (existing ++ [entry_id entry]) keyMap.

Definition group_by_key (allKeys : list ApiKeyEntry) : KeyMap :=
  fold_left group_entry allKeys [].

Record DuplicateGroup := mkGroup {
  dup_key : string;          (* masked *)
  dup_ids : list string;
  dup_count : nat
}.

Definition duplicates_of (keyMap : KeyMap) : list DuplicateGroup :=
  flat_map
    (fun p : string * list string =>
       let (key, ids) := p in
       if (1 <? List.length ids)%nat
       then [mkGroup (maskedKey key) ids (List.length ids)]
       else [])
    keyMap.

Definition findDuplicateKeys : M (list DuplicateGroup) :=
  allKeys <- getAllApiKeys ;;
  ret (duplicates_of (group_by_key allKeys)).

(* ------------------------------------------------------------------ *)
(** *** [batchImportKeys] *)

Record Tally := mkTally {
  success : nat;
  failed : nat;
  duplicates : nat;
  duplicateKeys : list string
}.

(** The [try] block of one iteration, for a non-empty trimmed [key]. *)
Definition import_one (i : nat) (key : string) (t : Tally) : M Tally :=
  isDuplicate <- checkDuplicateKey key ;;
  if isDuplicate : bool then
    console_log ("Skipped duplicate key: " ++ prefixKey key) ;;;
    ret (mkTally (success t) (failed t) (S (duplicates t))
                 (duplicateKeys t ++ [maskedKey key]))
  else
    stamp <- date_now ;;
    let id := "key-" ++ JS.of_Z stamp ++ "-" ++ JS.of_Z (Z.of_nat i) in
    saveApiKey id key None ;;;
    ret (mkTally (S (success t)) (failed t) (duplicates t) (duplicateKeys t)).

(** The [catch] block of one iteration. *)
Definition import_failed (i : nat) (t : Tally) (error : string) : M Tally :=
  console_log ("Failed to import key " ++ JS.of_Z (Z.of_nat i) ++ ": " ++ error) ;;;
  ret (mkTally (success t) (S (failed t)) (duplicates t) (duplicateKeys t)).

(** The loop [for (let i = 0; i < keys.length; i++)], from index [i] on. *)
Fixpoint import_from (i : nat) (keys : list string) (t : Tally) : M Tally :=
  match keys with
  | [] => ret t
  | raw :: rest =>
      let key := JS.trim raw in
      if 0 <? JS.length key then
        t' <- try_catch (import_one i key t) (import_failed i t) ;;
        import_from (S i) rest t'
      else
        import_from (S i) rest t
  end.

Definition batchImportKeys (keys : list string) : M Tally :=
  import_from 0 keys (mkTally 0 0 0 []).

(* ================================================================== *)
(** ** The remote usage fetcher *)

(** The text that [formatDate] returns: ['N/A'], ['Invalid Date'], or the
    date part of [new Date(timestamp).toISOString()]. *)
Inductive DateText :=
| DateNA
| DateInvalid
| DateISO (timestamp : Z).

(** [new Date(timestamp).toISOString()] throws a [RangeError] outside the
    range of time values, 8.64e15 milliseconds either side of the epoch. *)
Definition formatDate (timestamp : JS.num) : DateText :=
  match timestamp with
  | JS.Number t =>
      if Z.abs t <=? 8640000000000000 then DateISO t else DateInvalid
  | _ => DateNA
  end.

(** The object that [fetchApiKeyData] returns. *)
Record KeyData := mkKeyData {
  data_id : string;
  data_key : string;
  data_error : option string;
  data_startDate : option DateText;
  data_endDate : option DateText;
  data_orgTotalTokensUsed : JS.num;
  data_totalAllowance : JS.num;
  data_usedRatio : option QArith_base.Q
}.

Definition failure (id key error : string) : KeyData :=
  mkKeyData id key (Some error) None None JS.Undefined JS.Undefined None.

(** [apiData.usage]: reading a property of [null] throws a [TypeError]. *)
Definition get_usage (apiData : ApiData) : M (option UsageInfo) :=
  match apiData with
  | ApiNull => throw "Cannot read properties of null (reading 'usage')"
  | ApiValue usage => ret usage
  end.

(** The [try] block of [fetchApiKeyData]. *)
Definition fetch_body (id key : string) : M KeyData :=
  response <- fetch_usage key ;;
  if negb (resp_ok response) then
    errorBody <- lift_result (resp_text response) ;;
    console_log ("Error fetching data for key ID " ++ id ++ ": "
                 ++ JS.of_Z (resp_status response) ++ " " ++ errorBody) ;;;
    ret (failure id (prefixKey key) ("HTTP " ++ JS.of_Z (resp_status response)))
  else
    apiData <- lift_result (resp_json response) ;;
    usage <- get_usage apiData ;;
    match usage with
    | None => ret (failure id (prefixKey key) "Invalid API response structure")
    | Some usageInfo =>
        match usage_standard usageInfo with
        | None =>
            ret (failure id (prefixKey key) "Invalid API response structure")
        | Some standardUsage =>
            ret (mkKeyData id (maskedKey key) None
                   (Some (formatDate (usage_startDate usageInfo)))
                   (Some (formatDate (usage_endDate usageInfo)))
                   (std_orgTotalTokensUsed standardUsage)
                   (std_totalAllowance standardUsage)
                   (std_usedRatio standardUsage))
        end
    end.

(** The [catch] block of [fetchApiKeyData]. *)
Definition fetch_failed (id key error : string) : M KeyData :=
  console_log ("Failed to process key ID " ++ id ++ ": " ++ error) ;;;
  ret (failure id (prefixKey key) "Failed to fetch").

Definition fetchApiKeyData (id key : string) : M KeyData :=
  try_catch (fetch_body id key) (fetch_failed id key).

(* ================================================================== *)
(** ** The aggregator: [getAggregatedData] *)

Record Totals := mkTotals {
  total_orgTotalTokensUsed : JS.double;
  total_totalAllowance : JS.double
}.

(** [{ total_orgTotalTokensUsed: 0, total_totalAllowance: 0 }] *)
Definition no_totals : Totals := mkTotals (JS.double_of 0) (JS.double_of 0).

Record AggregateView := mkView {
  update_time : Z;          (* the time value that [format] renders *)
  total_count : nat;
  totals : Totals;
  data : list KeyData
}.

(** [r => !r.error] *)
Definition no_error (r : KeyData) : bool := negb (JS.truthy (data_error r)).

(** The reducer of [validResults.reduce]. *)
Definition add_totals (acc : Totals) (res : KeyData) : Totals :=
  mkTotals
    (JS.add (total_orgTotalTokensUsed acc)
            (JS.double_of (JS.or_zero (data_orgTotalTokensUsed res))))
    (JS.add (total_totalAllowance acc)
            (JS.double_of (JS.or_zero (data_totalAllowance res)))).

(** [(r.totalAllowance || 0) - (r.orgTotalTokensUsed || 0)] *)
Definition remaining (r : KeyData) : Z :=
  JS.or_zero (data_totalAllowance r) - JS.or_zero (data_orgTotalTokensUsed r).

Fixpoint repeat_string (s : string) (n : nat) : string :=
  match n with
  | O => ""
  | S n' => s ++ repeat_string s n'
  end.

(** [keysWithBalance.forEach(item => ...)]: the stored entry of the item is
    looked up by ID and its secret is printed. *)
Fixpoint log_keys (keyEntries : list ApiKeyEntry) (items : list KeyData)
  : M unit :=
  match items with
  | [] => ret tt
  | item :: rest =>
      match find (fun e => (entry_id e =? data_id item)%string) keyEntries with
      | Some originalEntry => console_log (entry_key originalEntry)
      | None => ret tt
      end ;;;
      log_keys keyEntries rest
  end.

Definition balance_banner : string := "📋 剩余额度大于0的API Keys:".
Definition no_balance_warning : string := "⚠️  没有剩余额度大于0的API Keys".

Definition getAggregatedData : M AggregateView :=
  keyEntries <- getAllApiKeys ;;
  if (List.length keyEntries =? 0)%nat then
    throw "No API keys found in storage. Please import keys first."
  else
    results <- promise_all (fun entry =>
                       fetchApiKeyData (entry_id entry) (entry_key entry))
                    keyEntries ;;
    let validResults := filter no_error results in
    let totals := fold_left add_totals validResults no_totals in
    t <- date_now ;;
    let beijingTime := t + 8 * 60 * 60 * 1000 in
    let keysWithBalance := filter (fun r => 0 <? remaining r) validResults in
    (if (0 <? List.length keysWithBalance)%nat then
       console_log (JS.nl ++ repeat_string "=" 80) ;;;
       console_log balance_banner ;;;
       console_log (repeat_string "-" 80) ;;;
       log_keys keyEntries keysWithBalance ;;;
       console_log (repeat_string "=" 80 ++ JS.nl)
     else
       console_log (JS.nl ++ no_balance_warning ++ JS.nl)) ;;;
    ret (mkView beijingTime (List.length keyEntries) totals results).

(* ================================================================== *)
(** ** The HTTP handlers of the key routes

    Each route of [handler] is one definition; authentication, which comes
    before the routes, is left out. *)

(** A JSON response: a body of the route's type, or [{ error: message }]. *)
Inductive Reply (A : Type) : Type :=
| Json (status : Z) (body : A)
| ErrorJson (status : Z) (error : string).
Arguments Json {A} status body.
Arguments ErrorJson {A} status error.

(** [/api/data] *)
Definition handle_data : M (Reply AggregateView) :=
  try_catch
    (data <- getAggregatedData ;; ret (Json 200 data))
    (fun error => console_log error ;;; ret (ErrorJson 500 error)).

(** An item of [safeKeys]. *)
Record SafeKey := mkSafeKey {
  safe_id : string;
  safe_name : option string;
  safe_note : option string;
  safe_createdAt : Z;
  safe_masked : string
}.

Definition safe_of (k : ApiKeyEntry) : SafeKey :=
  mkSafeKey (entry_id k) (entry_name k) (entry_note k) (entry_createdAt k)
            (maskedKey (entry_key k)).

(** [GET /api/keys] *)
Definition handle_keys : M (Reply (list SafeKey)) :=
  try_catch
    (keys <- getAllApiKeys ;; ret (Json 200 (map safe_of keys)))
    (fun error => ret (ErrorJson 500 error)).

(** [POST /api/keys/import], for a body whose [keys] is an array. *)
Definition handle_import (keys : list string) : M (Reply Tally) :=
  try_catch
    (result <- batchImportKeys keys ;; ret (Json 200 result))
    (fun error => ret (ErrorJson 500 error)).

(** [GET /api/keys/duplicates] *)
Definition handle_duplicates : M (Reply (list DuplicateGroup)) :=
  try_catch
    (result <- findDuplicateKeys ;; ret (Json 200 result))
    (fun error => ret (ErrorJson 500 error)).

(** The inner loop of the cleaning of duplicates, over [ids[1]], [ids[2]],
    ...: [await deleteApiKey(duplicate.ids[i]); deletedCount++]. *)
Fixpoint delete_rest (ids : list string) (deletedCount : nat) : M nat :=
  match ids with
  | [] => ret deletedCount
  | id :: rest =>
      deleteApiKey id ;;;
      delete_rest rest (S deletedCount)
  end.

(** The outer loop: [for (const duplicate of result.duplicates)]; the first
    ID of every group is kept. *)
Fixpoint clean_groups (groups : list DuplicateGroup) (deletedCount : nat)
  : M nat :=
  match groups with
  | [] => ret deletedCount
  | duplicate :: rest =>
      n <- delete_rest (tl (dup_ids duplicate)) deletedCount ;;
      clean_groups rest n
  end.

(** [POST /api/keys/duplicates/clean]; the body is [deletedCount]. *)
Definition handle_duplicates_clean : M (Reply nat) :=
  try_catch
    (result <- findDuplicateKeys ;;
     deletedCount <- clean_groups result 0%nat ;;
     ret (Json 200 deletedCount))
    (fun error => ret (ErrorJson 500 error)).

Record BatchDeleted := mkBatchDeleted {
  deletedCount : nat;
  totalRequested : nat;
  failedIds : list string
}.

(** One of the [deletePromises]. *)
Definition delete_one (id : string) : M (string * bool) :=
  try_catch
    (deleteApiKey id ;;; ret (id, true))
    (fun error =>
       console_log ("Failed to delete key " ++ id ++ ": " ++ error) ;;;
       ret (id, false)).

(** [POST /api/keys/batch-delete], for a body whose [ids] is an array. *)
Definition handle_batch_delete (ids : list string) : M (Reply BatchDeleted) :=
  try_catch
    (results <- promise_all delete_one ids ;;
     ret (Json 200
            (mkBatchDeleted
               (List.length (filter snd results))
               (List.length ids)
               (map fst (filter (fun r => negb (snd r)) results)))))
    (fun error => ret (ErrorJson 500 error)).

(** The balance check of one key in [POST /api/keys/zero-balance/delete]:
    the key is pushed on [keysToDelete] when the remote answers 2xx with a
    truthy [usage?.standard] whose [totalAllowance - orgTotalTokensUsed] is
    at most 0. *)
Definition check_balance (keyEntry : ApiKeyEntry) (keysToDelete : list string)
  : M (list string) :=
  try_catch
    (response <- fetch_usage (entry_key keyEntry) ;;
     if resp_ok response then
       usageData <- lift_result (resp_json response) ;;
       usage <- get_usage usageData ;;
       match usage with
       | None => ret keysToDelete
       | Some usageInfo =>
           match usage_standard usageInfo with
           | None => ret keysToDelete
           | Some standardUsage =>
               if JS.le_zero (JS.sub (std_totalAllowance standardUsage)
                                     (std_orgTotalTokensUsed standardUsage))
               then ret (keysToDelete ++ [entry_id keyEntry])%list
               else ret keysToDelete
           end
       end
     else ret keysToDelete)
    (fun error =>
       console_log ("Failed to check balance for key " ++ entry_id keyEntry
                    ++ ": " ++ error) ;;;
       ret keysToDelete).

Fixpoint check_balances (allKeys : list ApiKeyEntry) (keysToDelete : list string)
  : M (list string) :=
  match allKeys with
  | [] => ret keysToDelete
  | keyEntry :: rest =>
      l <- check_balance keyEntry keysToDelete ;;
      check_balances rest l
  end.

Fixpoint delete_identified (ids : list string) (count : nat) : M nat :=
  match ids with
  | [] => ret count
  | id :: rest =>
      n <- try_catch
             (deleteApiKey id ;;; ret (S count))
             (fun error =>
                console_log ("Failed to delete key " ++ id ++ ": " ++ error) ;;;
                ret count) ;;
      delete_identified rest n
  end.

(** [POST /api/keys/zero-balance/delete]; the body is
    [(deletedCount, totalZeroBalance)]. *)
Definition handle_zero_balance_delete : M (Reply (nat * nat)) :=
  try_catch
    (allKeys <- getAllApiKeys ;;
     keysToDelete <- check_balances allKeys [] ;;
     n <- delete_identified keysToDelete 0%nat ;;
     ret (Json 200 (n, List.length keysToDelete)))
    (fun error => ret (ErrorJson 500 error)).

(** [GET /api/keys/:id/full]: the one route that returns a secret. *)
Definition handle_full (id : string) : M (Reply string) :=
  try_catch
    (keyEntry <- getApiKey id ;;
     match keyEntry with
     | None => ret (ErrorJson 404 "Key not found")
     | Some e => ret (Json 200 (entry_key e))
     end)
    (fun error => ret (ErrorJson 500 error)).

(** [new Response(body, { status })] with a body throws a [RangeError]
    for a status outside 200-599 (101 apart) and a [TypeError] for a status
    that allows no body (101, 204, 205, 304); the result is the message of
    the error. *)
Definition response_init_error (status : Z) : option string :=
  if ((status <? 200) || (599 <? status)) && negb (status =? 101) then
    Some ("The status provided (" ++ JS.of_Z status
          ++ ") is not equal to 101 and outside the range [200, 599]")
  else if (status =? 101) || (status =? 204) || (status =? 205)
          || (status =? 304) then
    Some "Response with null body status cannot have body"
  else None.

(** [GET /api/keys/:id/usage]: the proxy to the remote endpoint.  A status
    of the remote that a response with a body cannot carry makes the
    construction of the answer throw. *)
Definition handle_usage (id : string) : M (Reply ApiData) :=
  try_catch
    (keyEntry <- getApiKey id ;;
     match keyEntry with
     | None => ret (ErrorJson 404 "Key not found")
     | Some e =>
         response <- fetch_usage (entry_key e) ;;
         if negb (resp_ok response) then
           errorText <- lift_result (resp_text response) ;;
           match response_init_error (resp_status response) with
           | Some error => throw error
           | None =>
               ret (ErrorJson (resp_status response)
                              ("Factory.ai API error: "
                               ++ JS.of_Z (resp_status response)))
           end
         else
           usageData <- lift_result (resp_json response) ;;
           ret (Json 200 usageData)
     end)
    (fun error => ret (ErrorJson 500 error)).

(* ================================================================== *)
(** ** The dashboard script: progressive loading and cleanup

    The script runs in the browser and reaches the store through the
    routes above; its requests to the server itself are taken to arrive.
    Its own console is left out: it never holds a secret. *)

(** What a date cell of the table shows. *)
Inductive CellText :=
| CellLoading                 (* the placeholder text of a loading row *)
| CellDate (d : DateText).

(** An item of [allData.data]. *)
Record Row := mkRow {
  row_id : string;
  row_key : string;                 (* masked *)
  row_note : option string;
  row_loading : bool;
  row_error : option string;
  row_startDate : option CellText;
  row_endDate : option CellText;
  row_orgTotalTokensUsed : JS.num;
  row_totalAllowance : JS.num;
  row_usedRatio : option QArith_base.Q
}.

Record ClientView := mkClientView {
  cv_update_time : Z;
  cv_total_count : nat;
  cv_totals : Totals;
  cv_data : list Row
}.

(** The placeholder of a key in [loadData]. *)
Definition placeholder (k : SafeKey) : Row :=
  mkRow (safe_id k) (safe_masked k) (safe_note k) true None
        (Some CellLoading) (Some CellLoading)
        (JS.Number 0) (JS.Number 0) (Some (QArith_base.Qmake 0 1)).

Definition row_failure (keyEntry : SafeKey) (error : string) : Row :=
  mkRow (safe_id keyEntry) (safe_masked keyEntry) (safe_note keyEntry)
        false (Some error) None None JS.Undefined JS.Undefined None.

Definition reply_status {A} (r : Reply A) : Z :=
  match r with
  | Json status _ => status
  | ErrorJson status _ => status
  end.

(** [Object.keys(apiData)] throws a [TypeError] on [null]. *)
Definition object_keys (apiData : ApiData) : M unit :=
  match apiData with
  | ApiNull => throw "Cannot convert undefined or null to object"
  | ApiValue _ => ret tt
  end.

(** The [try] block of one of the [batchPromises]. *)
Definition load_body (keyEntry : SafeKey) : M Row :=
  usageResponse <- handle_usage (safe_id keyEntry) ;;
  if negb (status_ok (reply_status usageResponse)) then
    ret (row_failure keyEntry ("HTTP " ++ JS.of_Z (reply_status usageResponse)))
  else
    match usageResponse with
    | ErrorJson _ _ => ret (row_failure keyEntry "Invalid response")
    | Json _ apiData =>
        object_keys apiData ;;;
        usage <- get_usage apiData ;;
        match usage with
        | None => ret (row_failure keyEntry "Invalid response")
        | Some usageInfo =>
            match usage_standard usageInfo with
            | None => ret (row_failure keyEntry "Invalid response")
            | Some standardUsage =>
                ret (mkRow (safe_id keyEntry) (safe_masked keyEntry)
                       (safe_note keyEntry) false None
                       (Some (CellDate (formatDate (usage_startDate usageInfo))))
                       (Some (CellDate (formatDate (usage_endDate usageInfo))))
                       (std_orgTotalTokensUsed standardUsage)
                       (std_totalAllowance standardUsage)
                       (std_usedRatio standardUsage))
            end
        end
    end.

(** One of the [batchPromises]; the [catch] block reports
    [error.message || 'Failed to fetch']. *)
Definition load_one (keyEntry : SafeKey) : M Row :=
  try_catch
    (load_body keyEntry)
    (fun error =>
       ret (row_failure keyEntry
              (if (error =? "")%string then "Failed to fetch" else error))).

(** [const concurrency = 5] *)
Definition concurrency : nat := 5.

(** [keys.slice(i, j)] for [i <= j] *)
Definition slice {A} (i j : nat) (keys : list A) : list A :=
  firstn (j - i) (skipn i keys).

(** The batches of the loop
    [for (let i = 0; i < keys.length; i += concurrency)], from index [i]
    on; the loop runs at most [keys.length] times. *)
Fixpoint batches_from {A} (fuel i : nat) (keys : list A) : list (list A) :=
  match fuel with
  | O => []
  | S fuel' =>
      if (i <? List.length keys)%nat
      then slice i (i + concurrency) keys
           :: batches_from fuel' (i + concurrency) keys
      else []
  end.

Definition batches {A} (keys : list A) : list (list A) :=
  batches_from (List.length keys) 0 keys.

(** [index = allData.data.findIndex(item => item.id === result.id);
    if (index !== -1) allData.data[index] = result] *)
Fixpoint replace_row (result : Row) (rows : list Row) : list Row :=
  match rows with
  | [] => []
  | item :: rest =>
      if (row_id item =? row_id result)%string
      then result :: rest
      else item :: replace_row result rest
  end.

(** [r => !r.error && !r.loading] *)
Definition row_valid (r : Row) : bool :=
  negb (JS.truthy (row_error r)) && negb (row_loading r).

Definition client_totals (rows : list Row) : Totals :=
  let validResults := filter row_valid rows in
  mkTotals
    (fold_left (fun sum r =>
                  JS.add sum (JS.double_of (JS.or_zero (row_orgTotalTokensUsed r))))
               validResults (JS.double_of 0))
    (fold_left (fun sum r =>
                  JS.add sum (JS.double_of (JS.or_zero (row_totalAllowance r))))
               validResults (JS.double_of 0)).

(** The page: the global [allData] and what [displayData] has rendered so
    far, oldest first. *)
Record Browser := mkBrowser {
  allData : ClientView;
  screen : list ClientView
}.

Definition displayData (v : ClientView) (b : Browser) : Browser :=
  mkBrowser v (screen b ++ [v]).

(** The body of the loop of [loadUsageDataProgressively], over the
    batches that remain. *)
Fixpoint load_loop (bs : list (list SafeKey)) (b : Browser) (results : list Row)
  : M (Browser * list Row) :=
  match bs with
  | [] => ret (b, results)
  | batch :: rest =>
      batchResults <- promise_all load_one batch ;;
      let rows :=
        fold_left (fun rows result => replace_row result rows)
                  batchResults (cv_data (allData b)) in
      let view :=
        mkClientView (cv_update_time (allData b)) (cv_total_count (allData b))
                     (client_totals rows) rows in
      load_loop rest (displayData view b) (results ++ batchResults)
  end.

Definition loadUsageDataProgressively (keys : list SafeKey) (b : Browser)
  : M (Browser * list Row) :=
  load_loop (batches keys) b [].

(** [item => item.error] *)
Definition row_failed (item : Row) : bool := JS.truthy (row_error item).

(** [item => { if (item.error) return false;
    return item.totalAllowance - item.orgTotalTokensUsed <= 0 }] *)
Definition row_zero_balance (item : Row) : bool :=
  if JS.truthy (row_error item) then false
  else JS.le_zero (JS.sub (row_totalAllowance item)
                          (row_orgTotalTokensUsed item)).

(** [allInvalidKeys = [...failedKeys, ...zeroBalanceKeys]] *)
Definition allInvalidKeys (v : ClientView) : list Row :=
  filter row_failed (cv_data v) ++ filter row_zero_balance (cv_data v).

(** [clearInvalidKeysFromModal]: nothing is requested when no data is
    loaded, when no key is invalid, or when the user does not confirm;
    otherwise the IDs go to [POST /api/keys/batch-delete]. *)
Definition clearInvalidKeysFromModal (loaded : option ClientView)
  (confirmed : bool) : M (option (Reply BatchDeleted)) :=
  match loaded with
  | None => ret None
  | Some v =>
      if (List.length (allInvalidKeys v) =? 0)%nat then ret None
      else if negb confirmed then ret None
      else
        let ids := map row_id (allInvalidKeys v) in
        result <- handle_batch_delete ids ;;
        ret (Some result)
  end.

(* ================================================================== *)
(** ** Calls in flight

    [await Promise.all(batch.map(call))] starts every call of the batch
    before it waits; the calls resolve in any order, and the statements
    after the [await], which make the results of the batch visible, run
    once all of them have resolved. *)

Module Flight.

Inductive event :=
| Dispatch (id : string)          (* a fetch is issued *)
| Resolve (id : string)           (* its promise settles *)
| Publish (ids : list string).    (* the results of a batch are visible *)

(** The traces of a program that awaits its batches one after another. *)
Inductive runs : list (list string) -> list event -> Prop :=
| runs_done : runs [] []
| runs_batch : forall batch order rest t,
    Permutation order batch ->
    runs rest t ->
    runs (batch :: rest)
         (map Dispatch batch ++ map Resolve order ++ Publish batch :: t).

(** Number of calls in flight after a trace. *)
Fixpoint in_flight (t : list event) : Z :=
  match t with
  | [] => 0
  | Dispatch _ :: t' => in_flight t' + 1
  | Resolve _ :: t' => in_flight t' - 1
  | Publish _ :: t' => in_flight t'
  end.

(** [getAggregatedData]: one [Promise.all] over all the entries. *)
Definition plan_getAggregatedData (keyEntries : list ApiKeyEntry)
  : list (list string) :=
  if (List.length keyEntries =? 0)%nat then []
  else [map entry_id keyEntries].

(** [loadUsageDataProgressively]: one [Promise.all] per batch. *)
Definition plan_loadUsageDataProgressively (keys : list SafeKey)
  : list (list string) :=
  map (map safe_id) (batches keys).

End Flight.

(* ================================================================== *)
(** ** Notions used by the statements *)

(** Sum of a list of integers. *)
Definition Zsum (l : list Z) : Z := fold_right Z.add 0 l.

(** A snapshot without an error tag. *)
Definition untagged (r : KeyData) : bool :=
  match data_error r with
  | None => true
  | Some _ => false
  end.

(** The amount that a field of a snapshot stands for: its number, and 0
    when it holds none. *)
Definition amount (field : JS.num) : Z :=
  match field with
  | JS.Number n => n
  | JS.Undefined | JS.Null => 0
  end.

(** The amounts that count in the totals: those of the snapshots without
    an error tag. *)
Definition counted (field : KeyData -> JS.num) (results : list KeyData)
  : list Z :=
  map (fun r => amount (field r)) (filter untagged results).

(** Doubles add integers exactly as long as every summand and every
    running sum, from [acc] on, stays below [2^53] in magnitude. *)
Fixpoint exact_range (acc : Z) (l : list Z) : Prop :=
  match l with
  | [] => True
  | x :: rest =>
      Z.abs x < 2 ^ 53 /\ Z.abs (acc + x) < 2 ^ 53 /\
      exact_range (acc + x) rest
  end.

(** [n] binary zeros appended to the positive number [v]. *)
Definition shifted (n : nat) (v : positive) : positive := Nat.iter n xO v.

(** The double that holds the integer [v] (negated when [s]), for [v]
    below [2^53]: the mantissa is [v] shifted to 53 bits. *)
Definition canonical (s : bool) (v : positive) : JS.double :=
  SpecFloat.S754_finite s
    (shifted (Z.to_nat (53 - Z.pos (Pos.size v))) v)
    (Z.pos (Pos.size v) - 53).

(** The first KV operation to come does not throw. *)
Definition read_ok (w : World) : bool := negb (hd false (faults w)).

(** No KV operation to come throws. *)
Definition calm (w : World) : Prop := Forall (fun b => b = false) (faults w).

(** The pairs of the store are filed under the ID of their entry, and no
    two pairs have the same key. *)
Definition store_ok (s : KV) : Prop :=
  NoDup (map fst s) /\ Forall (fun p => entry_id (snd p) = fst p) s.

(** The message of the error of an empty store. *)
Definition no_keys_message : string :=
  "No API keys found in storage. Please import keys first.".

(** The IDs of the entries that hold the secret [k], in iteration order. *)
Definition ids_with (k : string) (l : list ApiKeyEntry) : list string :=
  map entry_id (filter (fun e => (entry_key e =? k)%string) l).

(** The iteration order of the entries follows their creation time. *)
Definition by_creation (l : list ApiKeyEntry) : Prop :=
  StronglySorted (fun a b => entry_createdAt a <= entry_createdAt b) l.

(** The pairs of the store once the keys [ids] are deleted. *)
Definition delete_all (ids : list string) (s : KV) : KV :=
  filter (fun p => negb (existsb (String.eqb (fst p)) ids)) s.

(** The IDs that the cleaning of duplicates deletes: all but the first of
    every group. *)
Definition doomed (groups : list DuplicateGroup) : list string :=
  flat_map (fun g => tl (dup_ids g)) groups.

(** [m] is the map that [findDuplicateKeys] has built once it has seen the
    entries [l]: every secret of [l] is filed once, with the IDs of its
    entries in the order of [l]. *)
Definition grouped (m : KeyMap) (l : list ApiKeyEntry) : Prop :=
  NoDup (map fst m) /\
  forall k, map_get k m = match ids_with k l with
                          | [] => None
                          | ids => Some ids
                          end.

(** Number of KV operations to come that throw. *)
Definition count_faults (w : World) : nat :=
  List.length (filter (fun b : bool => b) (faults w)).

(** White space in the words of ECMAScript: the code points of its white
    space and of its line terminators. *)
Definition white_code_points : list N :=
  [ 0x9; 0xA; 0xB; 0xC; 0xD; 0x20; 0xA0; 0x1680;
    0x2000; 0x2001; 0x2002; 0x2003; 0x2004; 0x2005; 0x2006; 0x2007;
    0x2008; 0x2009; 0x200A; 0x2028; 0x2029; 0x202F; 0x205F; 0x3000;
    0xFEFF ]%N.

(** The UTF-8 encoding of a code point below U+10000. *)
Definition utf8 (c : N) : string :=
  let byte (n : N) := ascii_of_N n in
  if (c <? 0x80)%N then String (byte c) ""
  else if (c <? 0x800)%N then
    String (byte (0xC0 + c / 0x40)%N)
      (String (byte (0x80 + c mod 0x40)%N) "")
  else
    String (byte (0xE0 + c / 0x1000)%N)
      (String (byte (0x80 + (c / 0x40) mod 0x40)%N)
         (String (byte (0x80 + c mod 0x40)%N) "")).

(** A character of white space. *)
Definition white (c : string) : Prop :=
  exists p, In p white_code_points /\ c = utf8 p.

(** A blank entry: empty, or white space only. *)
Inductive blank : string -> Prop :=
| blank_empty : blank ""
| blank_more : forall c s, white c -> blank s -> blank (c ++ s).

(** [key] is [raw] without the white space at its two ends. *)
Definition trimmed (raw key : string) : Prop :=
  exists before after,
    blank before /\ blank after /\ raw = before ++ key ++ after /\
    (forall c rest, white c -> key <> c ++ rest) /\
    (forall c rest, white c -> key <> rest ++ c).

(** [s] is a sequence of entries of [table]. *)
Inductive made_of (table : list string) : string -> Prop :=
| made_empty : made_of table ""
| made_more : forall c s,
    In c table -> made_of table s -> made_of table (c ++ s).

(** No entry of the table starts with another one. *)
Definition prefix_free (table : list string) : Prop :=
  forall c c' z, In c table -> In c' table -> c' = c ++ z -> z = "".

Definition prefix_freeb (table : list string) : bool :=
  forallb (fun c =>
             forallb (fun c' =>
                        match JS.strip_prefix c c' with
                        | Some z => (z =? "")%string
                        | None => true
                        end) table) table.

(** Some entry of the table starts, at its first character, inside another
    entry. *)
Definition lead_inside (table : list string) : bool :=
  existsb (fun c =>
             existsb (fun x =>
                        existsb (fun c' =>
                                   match c' with
                                   | String y _ => Ascii.eqb x y
                                   | EmptyString => false
                                   end) table)
                     (tl (list_ascii_of_string c)))
          table.

(** The batch import in the words of the specification, entry by entry, on
    the pairs of the store and the tally: a blank entry is ignored; an entry
    whose trimmed secret is in the store counts as a duplicate, with its
    masked form recorded, and the store is left as it is; another entry is
    either persisted under a new ID and counts as a success, or counts as
    failed; in every case the import goes on with the next entry. *)
Inductive import_spec : list string -> KV * Tally -> KV * Tally -> Prop :=
| import_done : forall st, import_spec [] st st
| import_blank : forall raw rest s t final,
    blank raw ->
    import_spec rest (s, t) final ->
    import_spec (raw :: rest) (s, t) final
| import_duplicate : forall raw key rest s t final,
    ~ blank raw ->
    trimmed raw key ->
    (exists e, In e (map snd s) /\ entry_key e = key) ->
    import_spec rest
      (s, mkTally (success t) (failed t) (S (duplicates t))
                  (duplicateKeys t ++ [spec_masked key]))
      final ->
    import_spec (raw :: rest) (s, t) final
| import_saved : forall raw key rest s t id e final,
    ~ blank raw ->
    trimmed raw key ->
    (forall e', In e' (map snd s) -> entry_key e' <> key) ->
    entry_id e = id ->
    entry_key e = key ->
    import_spec rest
      (kv_set id e s,
       mkTally (S (success t)) (failed t) (duplicates t) (duplicateKeys t))
      final ->
    import_spec (raw :: rest) (s, t) final
| import_failure : forall raw rest s t final,
    ~ blank raw ->
    import_spec rest
      (s, mkTally (success t) (S (failed t)) (duplicates t) (duplicateKeys t))
      final ->
    import_spec (raw :: rest) (s, t) final.

(** [n] entries of the input are not blank. *)
Inductive count_non_blank : list string -> nat -> Prop :=
| count_none : count_non_blank [] 0
| count_skip : forall raw rest n,
    blank raw -> count_non_blank rest n -> count_non_blank (raw :: rest) n
| count_one : forall raw rest n,
    ~ blank raw -> count_non_blank rest n ->
    count_non_blank (raw :: rest) (S n).

(** Number of entries of an input that the import does not skip. *)
Definition non_blank (keys : list string) : nat :=
  List.length (filter (fun raw => negb (JS.trim raw =? "")%string) keys).

(** The balance check of [POST /api/keys/zero-balance/delete] as a
    predicate on an entry: the remote answers 2xx with a [usage.standard]
    whose allowance minus consumption is at most 0. *)
Definition exhausted (remote : string -> Outcome) (e : ApiKeyEntry) : bool :=
  match remote (entry_key e) with
  | NetworkError _ => false
  | Responded r =>
      resp_ok r &&
      match resp_json r with
      | Ok (ApiValue (Some u)) =>
          match usage_standard u with
          | Some st =>
              JS.le_zero (JS.sub (std_totalAllowance st)
                                 (std_orgTotalTokensUsed st))
          | None => false
          end
      | _ => false
      end
  end.

(** The world [w] after [lines] have been printed. *)
Definition add_lines (w : World) (lines : list string) : World :=
  mkWorld (kv w) (console w ++ lines) (remote w) (faults w) (now w) (ticks w).

(** The world after a KV operation that does not throw and leaves the
    pairs [s]. *)
Definition after_kv (w : World) (s : KV) : World :=
  mkWorld s (console w) (remote w) (tl (faults w)) (now w) (ticks w).

(** The world after [Date.now()]. *)
Definition after_now (w : World) : World := snd (date_now w).

(** The secrets that [log_keys] prints for [items]. *)
Definition secrets_of (keyEntries : list ApiKeyEntry) (items : list KeyData)
  : list string :=
  flat_map
    (fun item =>
       match find (fun e => (entry_id e =? data_id item)%string) keyEntries with
       | Some originalEntry => [entry_key originalEntry]
       | None => []
       end)
    items.

(** The results that [getAggregatedData] counts as having a balance. *)
Definition keysWithBalance (results : list KeyData) : list KeyData :=
  filter (fun r => 0 <? remaining r) (filter no_error results).

(** The lines that [getAggregatedData] prints once the results are in. *)
Definition balance_report (keyEntries : list ApiKeyEntry)
  (results : list KeyData) : list string :=
  if (0 <? List.length (keysWithBalance results))%nat then
    [JS.nl ++ repeat_string "=" 80; balance_banner; repeat_string "-" 80]
    ++ secrets_of keyEntries (keysWithBalance results)
    ++ [repeat_string "=" 80 ++ JS.nl]
  else
    [JS.nl ++ no_balance_warning ++ JS.nl].

(** The view that [getAggregatedData] builds from the results, at time
    value [t]. *)
Definition view_of (t : Z) (keyEntries : list ApiKeyEntry)
  (results : list KeyData) : AggregateView :=
  mkView (t + 8 * 60 * 60 * 1000) (List.length keyEntries)
         (fold_left add_totals (filter no_error results) no_totals)
         results.

(** How a result of [fetchApiKeyData] relates to the entry it was fetched
    for. *)
Definition fetched_for (e : ApiKeyEntry) (d : KeyData) : Prop :=
  data_id d = entry_id e /\
  data_key d = (if no_error d then maskedKey (entry_key e)
                else prefixKey (entry_key e)) /\
  (no_error d = true <-> data_error d = None).

(* ================================================================== *)
(** ** Sample worlds and tactics *)

(** A world with an empty store, a silent console and a quiet clock, whose
    remote endpoint is [r]. *)
Definition world_of (s : KV) (r : string -> Outcome) (fs : list bool) : World :=
  mkWorld s [] r fs 1700000000000 [].

(** A remote endpoint that answers every secret with the same response. *)
Definition always (o : Outcome) : string -> Outcome := fun _ => o.

Definition unauthorized : Outcome :=
  Responded (mkResponse 401 (Ok "Unauthorized") (Throw "Unexpected token U")).

Definition html_page : Outcome :=
  Responded (mkResponse 200 (Ok "<html></html>") (Throw "Unexpected token <")).

Definition usage_of (allowance used : Z) : Outcome :=
  Responded
    (mkResponse 200 (Ok "{...}")
       (Ok (ApiValue
              (Some (mkUsage (JS.Number 1700000000000) (JS.Number 1702592000000)
                       (Some (mkStandard (JS.Number used) (JS.Number allowance)
                                         None))))))).

(** The scenario of three credentials: A with allowance 1000 and 400 used,
    B with allowance 500 and 500 used, C rejected with status 401. *)
Definition secret_A : string := "sk-AAAA-secret-1111".
Definition secret_B : string := "sk-BBBB-secret-2222".
Definition secret_C : string := "sk-CCCC-secret-3333".

Definition scenario_remote (key : string) : Outcome :=
  if (key =? secret_A)%string then usage_of 1000 400
  else if (key =? secret_B)%string then usage_of 500 500
  else unauthorized.

Definition scenario_store : KV :=
  [ ("A", mkEntry "A" secret_A (Some "Key A") None 1690000000001);
    ("B", mkEntry "B" secret_B (Some "Key B") None 1690000000002);
    ("C", mkEntry "C" secret_C (Some "Key C") None 1690000000003) ].

Definition scenario : World := world_of scenario_store scenario_remote [].

(** Three credentials that hold one secret, and one that holds another. *)
Definition shared_secret : string := "sk-live-shared-0001".

Definition triple_store : KV :=
  [ ("a", mkEntry "a" shared_secret (Some "Key a") None 1690000000001);
    ("b", mkEntry "b" shared_secret (Some "Key b") None 1690000000002);
    ("c", mkEntry "c" shared_secret (Some "Key c") None 1690000000003);
    ("d", mkEntry "d" secret_A (Some "Key d") None 1690000000004) ].

(** The listing of the store succeeds, the first delete throws. *)
Definition delete_fails : World :=
  world_of triple_store (always unauthorized) [false; true; false].

Definition triple : World := world_of triple_store (always unauthorized) [].

(** An import into a store that holds [secret_A] already. *)
Definition import_world : World :=
  world_of [("A", mkEntry "A" secret_A (Some "Key A") None 1690000000001)]
           scenario_remote [].

Definition import_input : list string :=
  [""; "  "; "  sk-live-1 "; secret_A; "sk-live-1"; "sk-live-2"].

(** Six stored credentials. *)
Definition six_entries : list ApiKeyEntry :=
  map (fun id => mkEntry id ("sk-secret-of-" ++ id) None None 1690000000000)
      ["k1"; "k2"; "k3"; "k4"; "k5"; "k6"].

(** A trace of [getAggregatedData] over them, resolving in store order. *)
Definition six_trace : list Flight.event :=
  map Flight.Dispatch (map entry_id six_entries)
  ++ map Flight.Resolve (map entry_id six_entries)
  ++ [Flight.Publish (map entry_id six_entries)].

(** The dashboard's view of the scenario once every row is loaded. *)
Definition scenario_view : ClientView :=
  mkClientView 1700028800000 3
    (mkTotals (JS.double_of 900) (JS.double_of 1500))
    [ mkRow "A" (maskedKey secret_A) None false None
            (Some (CellDate (DateISO 1700000000000)))
            (Some (CellDate (DateISO 1702592000000)))
            (JS.Number 400) (JS.Number 1000) None;
      mkRow "B" (maskedKey secret_B) None false None
            (Some (CellDate (DateISO 1700000000000)))
            (Some (CellDate (DateISO 1702592000000)))
            (JS.Number 500) (JS.Number 500) None;
      mkRow "C" (maskedKey secret_C) None false (Some "HTTP 401")
            None None JS.Undefined JS.Undefined None ].

Ltac run_fetch :=
  unfold fetchApiKeyData, try_catch, fetch_body, fetch_failed, bind,
    fetch_usage, lift_result, get_usage, console_log, ret, throw, failure.

(** The body of a 2xx response does not hold the nested [usage.standard]
    structure. *)
Definition lacks_structure (r : Response) : Prop :=
  match resp_json r with
  | Ok (ApiValue (Some u)) => usage_standard u = None
  | _ => True
  end.


(** Two credentials whose allowances are the largest odd integer that a
    double holds, [2^53 - 1], and 2. *)
Definition rounding_remote (key : string) : Outcome :=
  if (key =? secret_A)%string then usage_of 9007199254740991 0
  else usage_of 2 0.

Definition rounding_world : World :=
  world_of
    [ ("A", mkEntry "A" secret_A (Some "Key A") None 1690000000001);
      ("B", mkEntry "B" secret_B (Some "Key B") None 1690000000002) ]
    rounding_remote [].
(* ================================================================== *)
(** ** The other key routes: add, delete, note *)

(** The fields that the routes read from the JSON body of a request; a
    field is [None] when it is absent (for [keys] and [ids]: when it is
    not an array). *)
Record Body := mkBody {
  body_password : option string;
  body_keys : option (list string);
  body_ids : option (list string);
  body_key : option string;
  body_name : option string;
  body_note : option string
}.

(** [s.split("/")]: the pieces between the slashes, at least one. *)
Fixpoint split_slash (s : string) : list string :=
  match s with
  | EmptyString => [EmptyString]
  | String c s' =>
      if (c =? "/")%char then EmptyString :: split_slash s'
      else match split_slash s' with
           | piece :: pieces => String c piece :: pieces
           | [] => [String c EmptyString]
           end
  end.

(** [pathParts[pathParts.length - 2]], [undefined] when there is none. *)
Definition before_last (pathParts : list string) : option string :=
  match rev pathParts with
  | _ :: id :: _ => Some id
  | _ => None
  end.

(** [url.pathname.split("/").pop()] *)
Definition last_part (pathname : string) : option string :=
  match rev (split_slash pathname) with
  | id :: _ => Some id
  | [] => None
  end.

(** [POST /api/keys]: the ID is [`key-${Date.now()}`]; the secret is not
    looked up in the store first. *)
Definition route_add (body : Result Body) : M (Reply string) :=
  try_catch
    (b <- lift_result body ;;
     if negb (JS.truthy (body_key b)) then ret (ErrorJson 400 "Key is required")
     else
       let key := match body_key b with Some k => k | None => "" end in
       stamp <- date_now ;;
       let id := "key-" ++ JS.of_Z stamp in
       saveApiKey id key (body_name b) ;;;
       ret (Json 200 id))
    (fun error => ret (ErrorJson 500 error)).

(** [DELETE /api/keys/...]: the ID is the last piece of the path; the
    body of the answer is [{ success: true }]. *)
Definition route_delete (pathname : string) : M (Reply unit) :=
  try_catch
    (if negb (JS.truthy (last_part pathname))
     then ret (ErrorJson 400 "Key ID required")
     else
       let id := match last_part pathname with Some i => i | None => "" end in
       deleteApiKey id ;;;
       ret (Json 200 tt))
    (fun error => ret (ErrorJson 500 error)).

(** [{ ...keyEntry, note: note || undefined }] *)
Definition with_note (keyEntry : ApiKeyEntry) (note : option string)
  : ApiKeyEntry :=
  mkEntry (entry_id keyEntry) (entry_key keyEntry) (entry_name keyEntry)
          (if JS.truthy note then note else None)
          (entry_createdAt keyEntry).

(** [PUT /api/keys/:id/note]; the body of the answer carries the note as
    it was sent. *)
Definition route_note (pathname : string) (body : Result Body)
  : M (Reply (option string)) :=
  try_catch
    (let id := before_last (split_slash pathname) in
     if negb (JS.truthy id) then ret (ErrorJson 400 "Key ID required")
     else
       let id := match id with Some i => i | None => "" end in
       b <- lift_result body ;;
       let note := body_note b in
       keyEntry <- getApiKey id ;;
       match keyEntry with
       | None => ret (ErrorJson 404 "Key not found")
       | Some e =>
           kv_op (fun s => (tt, kv_set id (with_note e note) s)) ;;;
           ret (Json 200 note)
       end)
    (fun error => ret (ErrorJson 500 error)).

(* ================================================================== *)
(** ** Notions used by the further statements *)

(** The keys of the pairs are in strictly increasing order, as [kv.list]
    yields them. *)
Definition store_sorted (s : KV) : Prop :=
  StronglySorted (fun p q => String.compare (fst p) (fst q) = Lt) s.

(** The invariant of the store: the pairs are in key order and each is
    filed under the ID of its entry. *)
Definition store_inv (s : KV) : Prop :=
  store_sorted s /\ Forall (fun p => entry_id (snd p) = fst p) s.

(** The secrets held in a store. *)
Definition secrets (s : KV) : list string := map (fun p => entry_key (snd p)) s.

(** A computation relates the pairs of the store before and after it, by
    [P], whether it returns or throws. *)
Definition respects (P : KV -> KV -> Prop) {A} (m : M A) : Prop :=
  forall w, P (kv w) (kv (snd (m w))).

(** The invariant of the store is carried from [s] to [s']. *)
Definition inv_carried (s s' : KV) : Prop := store_inv s -> store_inv s'.

(** The masked forms that an import records when every non-blank entry is
    a duplicate. *)
Definition masked_entries (keys : list string) : list string :=
  map (fun raw => maskedKey (JS.trim raw))
      (filter (fun raw => negb (JS.trim raw =? "")%string) keys).

(** Every non-blank entry of the input is a secret of the store. *)
Definition all_known (keys : list string) (s : KV) : Prop :=
  forall raw, In raw keys -> JS.trim raw = "" \/ In (JS.trim raw) (secrets s).

(** An input made of blanks and of the one secret of [import_world]. *)
Definition known_input : list string :=
  [""; secret_A; " sk-AAAA-secret-1111 "; "   "].

(** The entry that [saveApiKey] files at time value [t]. *)
Definition new_entry (id key : string) (name : option string) (t : Z)
  : ApiKeyEntry :=
  mkEntry id key
          (Some (if JS.truthy name
                 then match name with Some n => n | None => "" end
                 else "Key " ++ id))
          None t.

(** A string without a slash. *)
Definition no_slash (s : string) : Prop :=
  ~ In "/"%char (list_ascii_of_string s).

(** The path [/api/keys/<id>/<suffix>]. *)
Definition key_path (id suffix : string) : string :=
  "/api/keys/" ++ id ++ "/" ++ suffix.

(** A body that holds a key and a name only, and one that holds a note
    only. *)
Definition add_body (key name : option string) : Body :=
  mkBody None None None key name None.

Definition note_body (note : option string) : Body :=
  mkBody None None None None None note.

(* ================================================================== *)
(** ** The dashboard script: [loadData] *)

(** The view that [loadData] shows first: one placeholder per key, totals
    at 0; [timeStr] is the clock of the browser. *)
Definition skeleton (timeStr : Z) (keys : list SafeKey) : ClientView :=
  mkClientView timeStr (List.length keys) no_totals (map placeholder keys).

(** [loadData]: the list of the keys is fetched, the skeleton is rendered,
    then the usage of every key is loaded.  An error on the way is caught
    and shown in place of the table; the status text of a list that cannot
    be fetched is left out of its message (a reply that carries an error
    has no 2xx status, so the last case does not occur). *)
Definition loadData (timeStr : Z) (b : Browser)
  : M (Browser * list Row + string) :=
  try_catch
    (response <- handle_keys ;;
     if negb (status_ok (reply_status response))
     then throw "无法加载密钥列表: "
     else
       match response with
       | Json _ keys =>
           loaded <- loadUsageDataProgressively keys
                       (displayData (skeleton timeStr keys) b) ;;
           ret (inl loaded)
       | ErrorJson _ error => throw error
       end)
    (fun error => ret (inr ("加载失败: " ++ error))).

(** The secrets that the map [m] files with two IDs or more, in the order
    of the map. *)
Definition repeated (m : KeyMap) : list string :=
  map fst (filter (fun p => (1 <? List.length (snd p))%nat) m).

(** The row [r] reports on the key [k], and is not a placeholder; its
    error, when it has one, is not empty. *)
Definition loaded_for (k : SafeKey) (r : Row) : Prop :=
  row_id r = safe_id k /\
  row_key r = safe_masked k /\
  row_note r = safe_note k /\
  row_loading r = false /\
  (row_error r = None \/ exists m, row_error r = Some m /\ m <> "").

(** A row without an error tag. *)
Definition row_untagged (r : Row) : bool :=
  match row_error r with
  | None => true
  | Some _ => false
  end.

(** The amounts that count in the totals of the dashboard: those of the
    rows without an error tag. *)
Definition row_counted (field : Row -> JS.num) (rows : list Row) : list Z :=
  map (fun r => amount (field r)) (filter row_untagged rows).

(** [allData] once the first batch of a load is done: it is the last view
    rendered and its totals are those of its rows. *)
Definition settled (b : Browser) : Prop :=
  last (screen b) (allData b) = allData b /\
  cv_totals (allData b) = client_totals (cv_data (allData b)).

(** A page that has rendered nothing yet. *)
Definition blank_page : Browser := mkBrowser (skeleton 0 []) [].

(* ================================================================== *)
(** ** Sessions *)

Record Session := mkSession {
  session_id : string;
  session_createdAt : Z;
  session_expiresAt : Z
}.

(** The server around the key routes: [ADMIN_PASSWORD] of the environment,
    the world of the key routes, the pairs of the database under
    ["sessions"], and the identifiers that [crypto.randomUUID()] returns,
    with the number of those already drawn. *)
Record Server := mkServer {
  admin_password : option string;
  world : World;
  sessions : string -> option Session;
  uuids : nat -> string;
  uuid_count : nat
}.

Definition SM (A : Type) : Type := Server -> Result A * Server.

Definition sret {A} (a : A) : SM A := fun sv => (Ok a, sv).

Definition sbind {A B} (m : SM A) (k : A -> SM B) : SM B :=
  fun sv =>
    match m sv with
    | (Ok a, sv') => k a sv'
    | (Throw e, sv') => (Throw e, sv')
    end.

Definition stry {A} (m : SM A) (h : string -> SM A) : SM A :=
  fun sv =>
    match m sv with
    | (Ok a, sv') => (Ok a, sv')
    | (Throw e, sv') => h e sv'
    end.

Notation "x <~ m ;; k" := (sbind m (fun x => k))
  (at level 61, m at next level, right associativity).

Definition with_world (sv : Server) (w : World) : Server :=
  mkServer (admin_password sv) w (sessions sv) (uuids sv) (uuid_count sv).

(** A computation of the key routes, run by the server. *)
Definition lift {A} (m : M A) : SM A :=
  fun sv => let (r, w) := m (world sv) in (r, with_world sv w).

(** An operation of the same database on the pairs under ["sessions"]: it
    throws when the database does. *)
Definition session_op {A}
  (f : (string -> option Session) -> A * (string -> option Session)) : SM A :=
  fun sv =>
    match kv_op (fun s => (tt, s)) (world sv) with
    | (Throw e, w) => (Throw e, with_world sv w)
    | (Ok _, w) =>
        let (a, ss) := f (sessions sv) in
        (Ok a, mkServer (admin_password sv) w ss (uuids sv) (uuid_count sv))
    end.

Definition session_set (id : string) (session : Session)
  (ss : string -> option Session) : string -> option Session :=
  fun k => if (k =? id)%string then Some session else ss k.

Definition session_delete (id : string) (ss : string -> option Session)
  : string -> option Session :=
  fun k => if (k =? id)%string then None else ss k.

(** [crypto.randomUUID()] *)
Definition randomUUID : SM string :=
  fun sv =>
    (Ok (uuids sv (uuid_count sv)),
     mkServer (admin_password sv) (world sv) (sessions sv) (uuids sv)
              (S (uuid_count sv))).

(** [7 * 24 * 60 * 60 * 1000]: 7 days in milliseconds. *)
Definition session_lifetime : Z := 7 * 24 * 60 * 60 * 1000.

Definition createSession : SM string :=
  sessionId <~ randomUUID ;;
  createdAt <~ lift date_now ;;
  stamp <~ lift date_now ;;
  let session := mkSession sessionId createdAt (stamp + session_lifetime) in
  _ <~ session_op (fun ss => (tt, session_set sessionId session ss)) ;;
  sret sessionId.

Definition validateSession (sessionId : string) : SM bool :=
  result <~ session_op (fun ss => (ss sessionId, ss)) ;;
  match result with
  | None => sret false
  | Some session =>
      stamp <~ lift date_now ;;
      if stamp >? session_expiresAt session then
        _ <~ session_op (fun ss => (tt, session_delete sessionId ss)) ;;
        sret false
      else sret true
  end.

(* ================================================================== *)
(** ** The request handler *)

Inductive Method := GET | POST | PUT | DELETE | OPTIONS | OtherMethod.

Definition is_method (a b : Method) : bool :=
  match a, b with
  | GET, GET | POST, POST | PUT, PUT | DELETE, DELETE
  | OPTIONS, OPTIONS | OtherMethod, OtherMethod => true
  | _, _ => false
  end.

(** What the handler reads of a request: the method, [url.pathname], the
    cookie [session] and the outcome of [req.json()]. *)
Record Request := mkRequest {
  req_method : Method;
  req_pathname : string;
  req_session : option string;
  req_json : Result Body
}.

(** [ADMIN_PASSWORD] *)
Definition ask_password : SM (option string) :=
  fun sv => (Ok (admin_password sv), sv).

Definition isAuthenticated (req : Request) : SM bool :=
  password <~ ask_password ;;
  if negb (JS.truthy password) then sret true
  else
    let sessionId := req_session req in
    if negb (JS.truthy sessionId) then sret false
    else validateSession (match sessionId with Some s => s | None => "" end).

Inductive Page := LOGIN_PAGE | HTML_CONTENT.

(** The responses of the handler.  A route that answers with JSON of its
    own is tagged with its name and carries its reply. *)
Inductive Answer :=
| NoContent                               (* 204, no body *)
| LoggedIn (cookie : string)              (* 200, [Set-Cookie: session=...] *)
| Refused (status : Z) (error : string)   (* JSON [{ error }] *)
| Html (page : Page)                      (* 200 *)
| NotFound                                (* 404, "Not Found" *)
| DataReply (r : Reply AggregateView)
| KeysReply (r : Reply (list SafeKey))
| ImportReply (r : Reply Tally)
| DuplicatesReply (r : Reply (list DuplicateGroup))
| CleanReply (r : Reply nat)
| BatchDeleteReply (r : Reply BatchDeleted)
| ZeroBalanceReply (r : Reply (nat * nat))
| FullReply (r : Reply string)
| UsageReply (r : Reply ApiData)
| NoteReply (r : Reply (option string))
| DeleteReply (r : Reply unit)
| AddReply (r : Reply string).

(** [password === ADMIN_PASSWORD] *)
Definition same_password (password admin : option string) : bool :=
  match password, admin with
  | Some p, Some a => (p =? a)%string
  | None, None => true
  | _, _ => false
  end.

(** [POST /api/login] *)
Definition route_login (req : Request) : SM Answer :=
  stry
    (body <~ lift (lift_result (req_json req)) ;;
     admin <~ ask_password ;;
     if same_password (body_password body) admin then
       sessionId <~ createSession ;;
       sret (LoggedIn sessionId)
     else sret (Refused 401 "Invalid password"))
    (fun error => sret (Refused 500 error)).

(** [url.pathname.match(/^\/api\/keys\/[^/]+\/<suffix>$/)] *)
Definition key_route (suffix pathname : string) : bool :=
  match split_slash pathname with
  | [a; b; c; id; s] =>
      (a =? "")%string && (b =? "api")%string && (c =? "keys")%string &&
      negb (id =? "")%string && (s =? suffix)%string
  | _ => false
  end.

(** [POST /api/keys/import] *)
Definition route_import (body : Result Body) : M (Reply Tally) :=
  try_catch
    (b <- lift_result body ;;
     match body_keys b with
     | None => ret (ErrorJson 400 "Invalid request: 'keys' must be an array")
     | Some keys => handle_import keys
     end)
    (fun error => ret (ErrorJson 500 error)).

(** [POST /api/keys/batch-delete] *)
Definition route_batch_delete (body : Result Body) : M (Reply BatchDeleted) :=
  try_catch
    (b <- lift_result body ;;
     match body_ids b with
     | None => ret (ErrorJson 400 "Invalid request: 'ids' must be an array")
     | Some ids => handle_batch_delete ids
     end)
    (fun error => ret (ErrorJson 500 error)).

(** The ID of [GET /api/keys/:id/full] and [GET /api/keys/:id/usage]:
    [pathParts[pathParts.length - 2]], refused when it is falsy. *)
Definition with_key_id {A} (pathname : string) (route : string -> M (Reply A))
  : M (Reply A) :=
  let id := before_last (split_slash pathname) in
  if negb (JS.truthy id) then ret (ErrorJson 400 "Key ID required")
  else route (match id with Some i => i | None => "" end).

(** The routes behind the authentication, in the order of the handler. *)
Definition protected (req : Request) : M Answer :=
  let pathname := req_pathname req in
  let method := req_method req in
  if (pathname =? "/api/data")%string then
    r <- handle_data ;; ret (DataReply r)
  else if (pathname =? "/api/keys")%string && is_method method GET then
    r <- handle_keys ;; ret (KeysReply r)
  else if (pathname =? "/api/keys/import")%string && is_method method POST then
    r <- route_import (req_json req) ;; ret (ImportReply r)
  else if (pathname =? "/api/keys/duplicates")%string && is_method method GET then
    r <- handle_duplicates ;; ret (DuplicatesReply r)
  else if (pathname =? "/api/keys/duplicates/clean")%string
          && is_method method POST then
    r <- handle_duplicates_clean ;; ret (CleanReply r)
  else if (pathname =? "/api/keys/batch-delete")%string
          && is_method method POST then
    r <- route_batch_delete (req_json req) ;; ret (BatchDeleteReply r)
  else if (pathname =? "/api/keys/zero-balance/delete")%string
          && is_method method POST then
    r <- handle_zero_balance_delete ;; ret (ZeroBalanceReply r)
  else if key_route "full" pathname && is_method method GET then
    r <- with_key_id pathname handle_full ;; ret (FullReply r)
  else if key_route "usage" pathname && is_method method GET then
    r <- with_key_id pathname handle_usage ;; ret (UsageReply r)
  else if key_route "note" pathname && is_method method PUT then
    r <- route_note pathname (req_json req) ;; ret (NoteReply r)
  else if String.prefix "/api/keys/" pathname && is_method method DELETE then
    r <- route_delete pathname ;; ret (DeleteReply r)
  else if (pathname =? "/api/keys")%string && is_method method POST then
    r <- route_add (req_json req) ;; ret (AddReply r)
  else ret NotFound.

(** [handler]: the preflight, the login, the pages, then the routes behind
    the authentication. *)
Definition handler (req : Request) : SM Answer :=
  let pathname := req_pathname req in
  if is_method (req_method req) OPTIONS then sret NoContent
  else if (pathname =? "/api/login")%string && is_method (req_method req) POST
  then route_login req
  else
    admin <~ ask_password ;;
    login <~ (if JS.truthy admin && (pathname =? "/")%string then
                authenticated <~ isAuthenticated req ;;
                sret (negb authenticated)
              else sret false) ;;
    if login then sret (Html LOGIN_PAGE)
    else if (pathname =? "/")%string then sret (Html HTML_CONTENT)
    else
      authenticated <~ isAuthenticated req ;;
      if JS.truthy admin && negb authenticated
      then sret (Refused 401 "Unauthorized")
      else lift (protected req).

(** What [Date.now()] is going to return. *)
Definition clock_next (w : World) : Z :=
  match ticks w with
  | [] => now w
  | d :: _ => now w + d
  end.

(** The request carries the ID of a session of the store that has not
    expired. *)
Definition signed_in (sv : Server) (req : Request) : bool :=
  match req_session req with
  | Some sid =>
      negb (sid =? "")%string &&
      match sessions sv sid with
      | Some session => clock_next (world sv) <=? session_expiresAt session
      | None => false
      end
  | None => false
  end.

(** The request is for a route behind the authentication. *)
Definition guarded (req : Request) : bool :=
  negb (is_method (req_method req) OPTIONS) &&
  negb ((req_pathname req =? "/api/login")%string
        && is_method (req_method req) POST) &&
  negb (req_pathname req =? "/")%string.

(** The server once the session of a request has been looked up and found
    good: one operation of the database and one reading of the clock. *)
Definition checked (sv : Server) : Server :=
  with_world sv (after_now (after_kv (world sv) (kv (world sv)))).

(** A server with a password, no session, and the scenario as its world. *)
Definition locked (w : World) : Server :=
  mkServer (Some "hunter2") w (fun _ => None)
           (fun n => "uuid-" ++ JS.of_Z (Z.of_nat n)) 0.

Definition get (pathname : string) (session : option string) : Request :=
  mkRequest GET pathname session (Throw "Unexpected end of JSON input").

Definition login_request (password : option string) : Request :=
  mkRequest POST "/api/login" None
            (Ok (mkBody password None None None None None)).

(** What a refused session check leaves of the server: the keys, the
    console and the password as they were, and no session that was not
    there. *)
Definition untouched (sv sv' : Server) : Prop :=
  kv (world sv') = kv (world sv) /\
  console (world sv') = console (world sv) /\
  admin_password sv' = admin_password sv /\
  forall k, sessions sv' k = sessions sv k \/ sessions sv' k = None.

(** The same server with one session, good for 7 days from the clock of
    the world. *)
Definition signed (w : World) : Server :=
  mkServer (Some "hunter2") w
           (session_set "uuid-0"
              (mkSession "uuid-0" (now w) (now w + session_lifetime))
              (fun _ => None))
           (fun n => "uuid-" ++ JS.of_Z (Z.of_nat n)) 1.


(** A store filled through [POST /api/keys]: the process starts with an
    empty store; the same secret is added when the clock shows 999 and
    again when it shows 1000. *)
Definition early_clock : World :=
  mkWorld [] [] (always unauthorized) [] 0 [999; 0; 1; 0].

Definition same_secret : Result Body :=
  Ok (add_body (Some "sk-live-same-0001") None).

(** The amount that a field of a row holds in a subtraction: its number,
    0 for [null], none when the field is absent. *)
Inductive holds : JS.num -> Z -> Prop :=
| holds_number (n : Z) : holds (JS.Number n) n
| holds_null : holds JS.Null 0.

(** The rows that the cleanup of the dashboard targets: the rows tagged
    with an error, and the rows without an error whose allowance minus
    consumption is at most 0. *)
Inductive invalid_row (r : Row) : Prop :=
| invalid_failed (m : string) :
    row_error r = Some m -> m <> "" -> invalid_row r
| invalid_spent (a u : Z) :
    row_error r = None \/ row_error r = Some "" ->
    holds (row_totalAllowance r) a ->
    holds (row_orgTotalTokensUsed r) u ->
    a - u <= 0 ->
    invalid_row r.

(* ================================================================== *)
(** ** Secrets that look alike

    What a request writes on the console and answers does not depend on
    the characters of a secret that its masked form hides: it is the same
    in two worlds that differ in these characters only. *)

(** Two secrets look alike when they have the same first four and the same
    last four characters. *)
Definition look_alike (k k' : string) : Prop :=
  first_chars 4 k' = first_chars 4 k /\ last_chars 4 k' = last_chars 4 k.

(** A disguise replaces every secret by one that looks like it, and
    different secrets by different ones. *)
Definition disguise (f : string -> string) : Prop :=
  (forall k, look_alike k (f k)) /\ (forall k k', f k = f k' -> k = k').

Definition disguised_entry (f : string -> string) (e : ApiKeyEntry)
  : ApiKeyEntry :=
  mkEntry (entry_id e) (f (entry_key e)) (entry_name e) (entry_note e)
          (entry_createdAt e).

Definition disguised (f : string -> string) (s : KV) : KV :=
  map (fun p => (fst p, disguised_entry f (snd p))) s.

(** [w'] is [w] with its secrets in disguise: the store holds the
    disguised secrets, the remote answers a disguised secret as it answers
    the secret in [w], and the rest is the same.  The consoles are compared
    when [strict]. *)
Definition alike (f : string -> string) (strict : bool) (w w' : World) : Prop :=
  kv w' = disguised f (kv w) /\
  (forall k, remote w' (f k) = remote w k) /\
  faults w' = faults w /\
  now w' = now w /\
  ticks w' = ticks w /\
  (strict = true -> console w' = console w).

Definition alike_servers (f : string -> string) (strict : bool)
  (sv sv' : Server) : Prop :=
  admin_password sv' = admin_password sv /\
  sessions sv' = sessions sv /\
  uuids sv' = uuids sv /\
  uuid_count sv' = uuid_count sv /\
  alike f strict (world sv) (world sv').

(** The body [b'] is [b] with the secrets that it submits in disguise: the
    key of an addition, and what the entries of an import hold between the
    white space at their ends. *)
Definition alike_bodies (f : string -> string) (b b' : Body) : Prop :=
  body_password b' = body_password b /\
  body_ids b' = body_ids b /\
  body_name b' = body_name b /\
  body_note b' = body_note b /\
  body_key b' = option_map f (body_key b) /\
  match body_keys b, body_keys b' with
  | None, None => True
  | Some keys, Some keys' =>
      Forall2 (fun raw raw' =>
                 exists key, trimmed raw key /\ trimmed raw' (f key))
              keys keys'
  | _, _ => False
  end.

(** Two results are the same up to [R] on what they return. *)
Definition outcome_alike {A} (R : A -> A -> Prop) (r r' : Result A) : Prop :=
  match r, r' with
  | Ok a, Ok a' => R a a'
  | Throw e, Throw e' => e' = e
  | _, _ => False
  end.

Definition alike_requests (f : string -> string) (req req' : Request) : Prop :=
  req_method req' = req_method req /\
  req_pathname req' = req_pathname req /\
  req_session req' = req_session req /\
  outcome_alike (alike_bodies f) (req_json req) (req_json req').

(** The reveal operation: [GET /api/keys/:id/full]. *)
Definition reveal (req : Request) : bool :=
  key_route "full" (req_pathname req) && is_method (req_method req) GET.

(** The aggregation: [/api/data]. *)
Definition aggregation (req : Request) : bool :=
  (req_pathname req =? "/api/data")%string.

(** Run in worlds that are alike, [m] and [m'] end alike: they return
    values related by [R] or throw the same error, and leave worlds that
    are alike. *)
Definition sim (f : string -> string) (strict : bool) {A}
  (R : A -> A -> Prop) (m m' : M A) : Prop :=
  forall w w',
    alike f strict w w' ->
    outcome_alike R (fst (m w)) (fst (m' w')) /\
    alike f strict (snd (m w)) (snd (m' w')).

Definition ssim (f : string -> string) (strict : bool) {A}
  (R : A -> A -> Prop) (m m' : SM A) : Prop :=
  forall sv sv',
    alike_servers f strict sv sv' ->
    outcome_alike R (fst (m sv)) (fst (m' sv')) /\
    alike_servers f strict (snd (m sv)) (snd (m' sv')).

(** The entries of the store, and the entry that a lookup finds, in
    disguise. *)
Definition entries_alike (f : string -> string) (l l' : list ApiKeyEntry)
  : Prop :=
  l' = map (disguised_entry f) l.

Definition entry_alike (f : string -> string) (o o' : option ApiKeyEntry)
  : Prop :=
  o' = option_map (disguised_entry f) o.

(** The map of [findDuplicateKeys] with the secrets that it files in
    disguise. *)
Definition filed (f : string -> string) (m : KeyMap) : KeyMap :=
  map (fun p => (f (fst p), snd p)) m.

(** The disguise that exchanges the secrets [a] and [b]. *)
Definition swap (a b : string) (k : string) : string :=
  if (k =? a)%string then b else if (k =? b)%string then a else k.

(** The world [w] with its secrets in disguise, for a disguise that is
    its own inverse. *)
Definition in_disguise (f : string -> string) (w : World) : World :=
  mkWorld (disguised f (kv w)) (console w) (fun k => remote w (f k))
          (faults w) (now w) (ticks w).

(** A secret that looks like [shared_secret]. *)
Definition other_secret : string := "sk-l-another-secret-0001".

(** An import of a secret of the store, of a new secret and of a blank,
    and the same import in disguise. *)
Definition import_request (keys : list string) : Request :=
  mkRequest POST "/api/keys/import" (Some "uuid-0")
            (Ok (mkBody None (Some keys) None None None None)).

Definition plain_import : list string :=
  ["  sk-live-shared-0001 "; "sk-new-secret-42"; "  "].

Definition disguised_import : list string :=
  [other_secret; "sk-new-secret-42"; ""].
(* ================================================================== *)
(** * Properties *)

(** ** Strings and masks *)

Section Strings.

Lemma list_ascii_length (s : string) :
  List.length (list_ascii_of_string s) = String.length s.
Proof. induction s; simpl; congruence. Qed.

Lemma substring_firstn_skipn (s : string) (n m : nat) :
  String.substring n m s
  = string_of_list_ascii (firstn m (skipn n (list_ascii_of_string s))).
Proof.
  revert n m. induction s as [|c s IH]; intros n m.
  - destruct n, m; reflexivity.
  - destruct n as [|n].
    + destruct m as [|m]; simpl; [reflexivity|].
      f_equal. rewrite (IH 0%nat m). reflexivity.
    + simpl. apply IH.
Qed.

Lemma substring_0_4 (key : string) :
  JS.substring key 0 4 = first_chars 4 key.
Proof.
  unfold JS.substring, first_chars, JS.clamp, JS.length.
  rewrite substring_firstn_skipn.
  set (len := String.length key).
  assert (Hlo : Z.min (Z.max 0 (Z.min 0 (Z.of_nat len)))
                      (Z.max 0 (Z.min 4 (Z.of_nat len))) = 0) by lia.
  rewrite Hlo. simpl Z.to_nat at 1. simpl skipn.
  destruct (Z_le_gt_dec 4 (Z.of_nat len)) as [H|H].
  - replace (Z.to_nat _) with 4%nat by lia. reflexivity.
  - replace (Z.to_nat _) with len by lia.
    f_equal. rewrite !firstn_all2; [reflexivity| |];
      rewrite list_ascii_length; fold len; lia.
Qed.

Lemma substring_last_4 (key : string) :
  JS.substring_from key (JS.length key - 4) = last_chars 4 key.
Proof.
  unfold JS.substring_from, JS.substring, last_chars, JS.clamp, JS.length.
  rewrite substring_firstn_skipn, list_ascii_length.
  set (len := String.length key).
  replace (Z.to_nat (Z.min _ _)) with (len - 4)%nat by lia.
  f_equal. apply firstn_all2.
  rewrite length_skipn, list_ascii_length. fold len. lia.
Qed.

Lemma maskedKey_spec (key : string) : maskedKey key = spec_masked key.
Proof.
  unfold maskedKey, spec_masked.
  now rewrite substring_0_4, substring_last_4.
Qed.

Lemma prefixKey_spec (key : string) :
  prefixKey key = first_chars 4 key ++ "...".
Proof. unfold prefixKey. now rewrite substring_0_4. Qed.

End Strings.

(** ** White space and [trim] *)

Section Trim.

Lemma white_table : map utf8 white_code_points = JS.white_space.
Proof. reflexivity. Qed.

Lemma white_In (c : string) : white c <-> In c JS.white_space.
Proof.
  rewrite <- white_table, in_map_iff. unfold white.
  split; intros (p & H1 & H2); exists p; auto.
Qed.

Lemma strip_prefix_app (p s t : string) :
  JS.strip_prefix p s = Some t <-> s = p ++ t.
Proof.
  revert s. induction p as [|a p IH]; intros s; simpl.
  - split; [now intros [= ->]|now intros ->].
  - destruct s as [|b s]; [split; discriminate|].
    destruct (Ascii.eqb_spec a b) as [->|Hab].
    + rewrite IH. split; [now intros ->|now intros [= ->]].
    + split; [discriminate|]. intros [= Heq _]. now symmetry in Heq.
Qed.

Lemma append_assoc (a b c : string) : (a ++ b) ++ c = a ++ (b ++ c).
Proof. induction a; simpl; congruence. Qed.

Lemma append_empty (a : string) : a ++ "" = a.
Proof. induction a; simpl; congruence. Qed.

Lemma append_length (a b : string) :
  String.length (a ++ b) = (String.length a + String.length b)%nat.
Proof. induction a; simpl; congruence. Qed.

Lemma made_of_app (table : list string) (a b : string) :
  made_of table a -> made_of table b -> made_of table (a ++ b).
Proof.
  induction 1 as [|c s Hc _ IH]; intros Hb; [exact Hb|].
  rewrite append_assoc. constructor; auto.
Qed.

Lemma strip_any_Some (table : list string) (s t : string) :
  JS.strip_any table s = Some t -> exists c, In c table /\ s = c ++ t.
Proof.
  induction table as [|p table IH]; simpl; [discriminate|].
  destruct (JS.strip_prefix p s) as [s'|] eqn:Hp.
  - intros [= <-]. exists p. split; [now left|]. now apply strip_prefix_app.
  - intros H. destruct (IH H) as (c & Hc & Hs). exists c. split; [now right|exact Hs].
Qed.

Lemma strip_any_None (table : list string) (s : string) :
  JS.strip_any table s = None <->
  forall c rest, In c table -> s <> c ++ rest.
Proof.
  induction table as [|p table IH]; simpl.
  - split; [intros _ c rest []|reflexivity].
  - destruct (JS.strip_prefix p s) as [s'|] eqn:Hp.
    + split; [discriminate|]. intros H. exfalso.
      apply (H p s'); [now left|]. now apply strip_prefix_app.
    + rewrite IH. split.
      * intros H c rest [<-|Hc]; [|now apply H].
        intros Heq. apply strip_prefix_app in Heq. congruence.
      * intros H c rest Hc. apply H. now right.
Qed.

(** What [strip_all] removes is a sequence of entries, and with fuel
    enough nothing is left to remove. *)
Lemma strip_all_spec (table : list string) :
  ~ In "" table ->
  forall (fuel : nat) (s : string),
    (String.length s <= fuel)%nat ->
    exists a,
      made_of table a /\ s = a ++ JS.strip_all table fuel s /\
      JS.strip_any table (JS.strip_all table fuel s) = None.
Proof.
  intros Hne. induction fuel as [|fuel IH]; intros s Hlen.
  - destruct s; [|simpl in Hlen; lia]. exists "". simpl.
    split; [constructor|]. split; [reflexivity|].
    apply strip_any_None. intros c rest Hc Heq.
    destruct c; [contradiction|discriminate].
  - simpl. destruct (JS.strip_any table s) as [s'|] eqn:Hs.
    + destruct (strip_any_Some _ _ _ Hs) as (c & Hc & ->).
      assert (Hc0 : (0 < String.length c)%nat).
      { destruct c; [contradiction|simpl; lia]. }
      rewrite append_length in Hlen.
      destruct (IH s' ltac:(lia)) as (a & Ha & Heq & Hnone).
      exists (c ++ a). split; [now constructor|]. split; [|exact Hnone].
      rewrite append_assoc. now rewrite <- Heq.
    + exists "". split; [constructor|]. split; [reflexivity|exact Hs].
Qed.

Lemma append_cancel (a b c : string) : a ++ b = a ++ c -> b = c.
Proof. induction a as [|x a IH]; simpl; [auto|]. intros [= H]. auto. Qed.

Lemma prefix_cases (a b x y : string) :
  a ++ x = b ++ y -> exists z, a = b ++ z \/ b = a ++ z.
Proof.
  revert b. induction a as [|c a IH]; intros b H.
  - exists b. now right.
  - destruct b as [|d b]; [exists (String c a); now left|].
    simpl in H. injection H as -> H.
    destruct (IH b H) as (z & [->| ->]); exists z; [left|right]; reflexivity.
Qed.

Lemma prefix_freeb_spec (table : list string) :
  prefix_freeb table = true -> prefix_free table.
Proof.
  unfold prefix_freeb, prefix_free. intros H c c' z Hc Hc' Heq.
  rewrite forallb_forall in H. specialize (H c Hc).
  rewrite forallb_forall in H. specialize (H c' Hc').
  apply strip_prefix_app in Heq. rewrite Heq in H.
  now apply String.eqb_eq.
Qed.

Lemma strip_all_made (table : list string) :
  ~ In "" table ->
  prefix_free table ->
  forall s, made_of table s ->
  forall fuel, (String.length s <= fuel)%nat -> JS.strip_all table fuel s = "".
Proof.
  intros Hne Hfree s Hs. induction Hs as [|c r Hc Hr IH]; intros fuel Hlen.
  - destruct fuel; [reflexivity|]. simpl.
    assert (Hnone : JS.strip_any table "" = None).
    { apply strip_any_None. intros c rest Hc Heq.
      destruct c; [contradiction|discriminate]. }
    now rewrite Hnone.
  - assert (Hc0 : (0 < String.length c)%nat).
    { destruct c; [contradiction|simpl; lia]. }
    rewrite append_length in Hlen.
    destruct fuel as [|fuel]; [lia|]. simpl.
    destruct (JS.strip_any table (c ++ r)) as [r'|] eqn:Hstrip.
    + destruct (strip_any_Some _ _ _ Hstrip) as (c' & Hc' & Heq).
      assert (Hsame : c' = c /\ r' = r).
      { destruct (prefix_cases _ _ _ _ Heq) as (z & [Hz|Hz]).
        - pose proof (Hfree c' c z Hc' Hc Hz) as ->.
          rewrite append_empty in Hz. subst c'. split; [reflexivity|].
          symmetry. now apply (append_cancel c).
        - pose proof (Hfree c c' z Hc Hc' Hz) as ->.
          rewrite append_empty in Hz. subst c'. split; [reflexivity|].
          symmetry. now apply (append_cancel c). }
      destruct Hsame as [_ ->]. apply IH. lia.
    + exfalso. apply (proj1 (strip_any_None table (c ++ r)) Hstrip c r Hc).
      reflexivity.
Qed.

Lemma list_ascii_app (a b : string) :
  list_ascii_of_string (a ++ b)
  = (list_ascii_of_string a ++ list_ascii_of_string b)%list.
Proof. induction a; simpl; congruence. Qed.

Lemma string_of_app (a b : list ascii) :
  string_of_list_ascii (a ++ b)
  = string_of_list_ascii a ++ string_of_list_ascii b.
Proof. induction a; simpl; congruence. Qed.

Lemma rev_string_app (a b : string) :
  JS.rev_string (a ++ b) = JS.rev_string b ++ JS.rev_string a.
Proof.
  unfold JS.rev_string. now rewrite list_ascii_app, rev_app_distr, string_of_app.
Qed.

Lemma rev_string_involutive (s : string) : JS.rev_string (JS.rev_string s) = s.
Proof.
  unfold JS.rev_string.
  now rewrite list_ascii_of_string_of_list_ascii, rev_involutive,
    string_of_list_ascii_of_string.
Qed.

Lemma rev_string_length (s : string) :
  String.length (JS.rev_string s) = String.length s.
Proof.
  unfold JS.rev_string.
  assert (H : forall l, String.length (string_of_list_ascii l) = List.length l)
    by (induction l; simpl; congruence).
  assert (H' : forall t, List.length (list_ascii_of_string t) = String.length t)
    by (induction t; simpl; congruence).
  now rewrite H, length_rev, H'.
Qed.

Lemma made_of_rev (table : list string) (x : string) :
  made_of (map JS.rev_string table) x -> made_of table (JS.rev_string x).
Proof.
  induction 1 as [|c s Hc _ IH]; [constructor|].
  rewrite rev_string_app. apply made_of_app; [exact IH|].
  apply in_map_iff in Hc. destruct Hc as (c0 & <- & Hc0).
  rewrite rev_string_involutive.
  rewrite <- (append_empty c0). constructor; [exact Hc0|constructor].
Qed.

Lemma rev_made_of (table : list string) (x : string) :
  made_of table x -> made_of (map JS.rev_string table) (JS.rev_string x).
Proof.
  induction 1 as [|c s Hc _ IH]; [constructor|].
  rewrite rev_string_app. apply made_of_app; [exact IH|].
  rewrite <- (append_empty (JS.rev_string c)).
  constructor; [now apply in_map|constructor].
Qed.

Lemma blank_made_of (s : string) : blank s <-> made_of JS.white_space s.
Proof.
  split; induction 1 as [|c r Hc _ IH]; constructor; auto;
    now apply white_In.
Qed.

Lemma white_not_empty : ~ In "" JS.white_space.
Proof. simpl. intuition discriminate. Qed.

Lemma white_rev_not_empty : ~ In "" (map JS.rev_string JS.white_space).
Proof. simpl. intuition discriminate. Qed.

Lemma white_prefix_free : prefix_free JS.white_space.
Proof. apply prefix_freeb_spec. vm_compute. reflexivity. Qed.

Lemma white_suffix_free : prefix_free (map JS.rev_string JS.white_space).
Proof. apply prefix_freeb_spec. vm_compute. reflexivity. Qed.

(** [trim] removes white space at the two ends, and all of it. *)
Lemma trim_trimmed (raw : string) : trimmed raw (JS.trim raw).
Proof.
  unfold JS.trim, JS.trim_end, JS.trim_start.
  destruct (strip_all_spec JS.white_space white_not_empty
              (String.length raw) raw (Nat.le_refl _))
    as (a & Ha & Hraw & Hstart).
  set (u := JS.strip_all JS.white_space (String.length raw) raw) in *.
  destruct (strip_all_spec (map JS.rev_string JS.white_space)
              white_rev_not_empty (String.length u) (JS.rev_string u)
              ltac:(now rewrite rev_string_length))
    as (b & Hb & Hu & Hend).
  set (t := JS.strip_all (map JS.rev_string JS.white_space)
                         (String.length u) (JS.rev_string u)) in *.
  assert (Hu' : u = JS.rev_string t ++ JS.rev_string b).
  { rewrite <- rev_string_app, <- Hu. now rewrite rev_string_involutive. }
  exists a, (JS.rev_string b).
  split; [now apply blank_made_of|].
  split; [apply blank_made_of; now apply made_of_rev|].
  split; [now rewrite <- Hu'|]. split.
  - intros c rest Hc Heq.
    apply (proj1 (strip_any_None _ _) Hstart c (rest ++ JS.rev_string b)).
    + now apply white_In.
    + now rewrite Hu', Heq, append_assoc.
  - intros c rest Hc Heq.
    apply (proj1 (strip_any_None _ _) Hend (JS.rev_string c)
                 (JS.rev_string rest)).
    + apply in_map. now apply white_In.
    + rewrite <- rev_string_app, <- Heq. now rewrite rev_string_involutive.
Qed.

Lemma trim_blank (raw : string) : JS.trim raw = "" <-> blank raw.
Proof.
  split.
  - intros Hraw. destruct (trim_trimmed raw) as (a & b & Ha & Hb & Heq & _).
    rewrite Hraw in Heq. simpl in Heq. subst raw.
    apply blank_made_of. apply made_of_app; now apply blank_made_of.
  - intros Hraw. apply blank_made_of in Hraw.
    unfold JS.trim, JS.trim_end, JS.trim_start.
    rewrite (strip_all_made JS.white_space white_not_empty white_prefix_free
               raw Hraw _ (Nat.le_refl _)).
    reflexivity.
Qed.

End Trim.

Section TrimOnce.

(** No entry of the table starts inside another one. *)
Lemma lead_inside_spec (table : list string) :
  lead_inside table = false ->
  forall c c' k r s s',
    In c table -> In c' table -> c' <> "" ->
    c = k ++ r -> k <> "" -> r <> "" ->
    r ++ s <> c' ++ s'.
Proof.
  intros Hnone c c' k r s s' Hc Hc' Hne -> Hk Hr Heq.
  destruct k as [|k0 k]; [contradiction|].
  destruct r as [|x r]; [contradiction|].
  destruct c' as [|y c']; [contradiction|].
  simpl in Heq. injection Heq as -> _.
  assert (lead_inside table = true); [|congruence].
  unfold lead_inside. apply existsb_exists.
  exists (String k0 k ++ String y r). split; [exact Hc|].
  apply existsb_exists. exists y. split.
  - simpl. rewrite list_ascii_app. apply in_or_app. right. now left.
  - apply existsb_exists. exists (String y c'). split; [exact Hc'|].
    apply Ascii.eqb_refl.
Qed.

Lemma white_no_lead_inside : lead_inside JS.white_space = false.
Proof. vm_compute. reflexivity. Qed.

(** Entries in front of a string that starts with none are removed, and
    nothing else. *)
Lemma strip_all_front (table : list string) :
  ~ In "" table ->
  prefix_free table ->
  forall b, made_of table b ->
  forall k fuel,
    JS.strip_any table k = None ->
    (String.length (b ++ k) <= fuel)%nat ->
    JS.strip_all table fuel (b ++ k) = k.
Proof.
  intros Hne Hfree b Hb. induction Hb as [|c r Hc Hr IH]; intros k fuel Hk Hlen.
  - simpl. destruct fuel; [reflexivity|]. simpl. now rewrite Hk.
  - assert (Hc0 : (0 < String.length c)%nat).
    { destruct c; [contradiction|simpl; lia]. }
    rewrite append_assoc in *. rewrite append_length in Hlen.
    destruct fuel as [|fuel]; [lia|]. simpl.
    destruct (JS.strip_any table (c ++ r ++ k)) as [r'|] eqn:Hstrip.
    + destruct (strip_any_Some _ _ _ Hstrip) as (c' & Hc' & Heq).
      assert (Hsame : r' = r ++ k).
      { destruct (prefix_cases _ _ _ _ Heq) as (z & [Hz|Hz]).
        - pose proof (Hfree c' c z Hc' Hc Hz) as ->.
          rewrite append_empty in Hz. subst c'.
          symmetry. now apply (append_cancel c).
        - pose proof (Hfree c c' z Hc Hc' Hz) as ->.
          rewrite append_empty in Hz. subst c'.
          symmetry. now apply (append_cancel c). }
      rewrite Hsame. apply IH; [exact Hk|lia].
    + exfalso.
      apply (proj1 (strip_any_None table (c ++ r ++ k)) Hstrip c (r ++ k) Hc).
      reflexivity.
Qed.

(** A key with no white space at its ends and white space around it is
    what [trim] returns. *)
Lemma trimmed_unique (raw key : string) :
  trimmed raw key -> JS.trim raw = key.
Proof.
  intros (before & after & Hbefore & Hafter & -> & Hstart & Hend).
  destruct key as [|k0 key].
  { apply trim_blank. simpl. apply blank_made_of.
    apply made_of_app; now apply blank_made_of. }
  set (k := String k0 key) in *.
  assert (Hfront : JS.strip_any JS.white_space (k ++ after) = None).
  { apply strip_any_None. intros c rest Hc Heq.
    destruct (prefix_cases _ _ _ _ Heq) as (z & [Hz|Hz]).
    - apply (Hstart c z); [now apply white_In|exact Hz].
    - destruct z as [|z0 z].
      + rewrite append_empty in Hz.
        apply (Hstart c ""); [now apply white_In|].
        now rewrite append_empty.
      + rewrite Hz, append_assoc in Heq. apply append_cancel in Heq.
        apply blank_made_of in Hafter.
        destruct Hafter as [|c' s' Hc' _]; [discriminate|].
        apply (lead_inside_spec _ white_no_lead_inside c c' k (String z0 z)
                 rest s' Hc Hc');
          [intros ->; exact (white_not_empty Hc')|exact Hz|discriminate
          |discriminate|now symmetry]. }
  unfold JS.trim, JS.trim_start.
  rewrite (strip_all_front JS.white_space white_not_empty white_prefix_free
             before (proj1 (blank_made_of _) Hbefore) (k ++ after) _ Hfront
             (Nat.le_refl _)).
  unfold JS.trim_end. rewrite rev_string_app.
  rewrite (strip_all_front (map JS.rev_string JS.white_space)
             white_rev_not_empty white_suffix_free (JS.rev_string after)
             (rev_made_of _ _ (proj1 (blank_made_of _) Hafter))
             (JS.rev_string k)).
  - apply rev_string_involutive.
  - apply strip_any_None. intros c rest Hc Heq.
    apply in_map_iff in Hc. destruct Hc as (c0 & <- & Hc0).
    apply (Hend c0 (JS.rev_string rest)); [now apply white_In|].
    rewrite <- (rev_string_involutive k), Heq, rev_string_app.
    now rewrite rev_string_involutive.
  - rewrite <- rev_string_app, rev_string_length. apply Nat.le_refl.
Qed.

End TrimOnce.

(** ** Doubles that hold integers *)

Section Doubles.

Import SpecFloat.
Local Open Scope Z_scope.

Lemma digits2_size (m : positive) : digits2_pos m = Pos.size m.
Proof. induction m; simpl; congruence. Qed.

Lemma shifted_value (n : nat) (v : positive) :
  Z.pos (shifted n v) = Z.pos v * 2 ^ Z.of_nat n.
Proof.
  induction n as [|n IH].
  - simpl. lia.
  - unfold shifted in *. rewrite Nat2Z.inj_succ, Z.pow_succ_r by lia.
    simpl Nat.iter. rewrite Pos2Z.inj_xO, IH. lia.
Qed.

Lemma shifted_size (n : nat) (v : positive) :
  Z.pos (Pos.size (shifted n v)) = Z.pos (Pos.size v) + Z.of_nat n.
Proof.
  induction n as [|n IH].
  - simpl. lia.
  - unfold shifted in *. simpl Nat.iter. simpl Pos.size.
    rewrite Pos2Z.inj_succ, IH. lia.
Qed.

Lemma shifted_add (n k : nat) (v : positive) :
  shifted n (shifted k v) = shifted (n + k) v.
Proof. unfold shifted. now rewrite Nat.iter_add. Qed.

Lemma pos_iter_shifted (d : positive) (m : positive) :
  Pos.iter xO m d = shifted (Pos.to_nat d) m.
Proof.
  unfold shifted. induction d as [|d IH] using Pos.peano_ind.
  - reflexivity.
  - rewrite Pos.iter_succ, Pos2Nat.inj_succ. simpl. now rewrite IH.
Qed.

Lemma iter_pos_nat {A} (f : A -> A) (p : positive) (x : A) :
  iter_pos f p x = Nat.iter (Pos.to_nat p) f x.
Proof.
  revert x. induction p as [p IH|p IH|]; intros x; cbn [iter_pos].
  - rewrite !IH, Pos2Nat.inj_xI.
    replace (S (2 * Pos.to_nat p)) with (Pos.to_nat p + (Pos.to_nat p + 1))%nat by lia.
    rewrite !Nat.iter_add. reflexivity.
  - rewrite !IH, Pos2Nat.inj_xO.
    replace (2 * Pos.to_nat p)%nat with (Pos.to_nat p + Pos.to_nat p)%nat by lia.
    now rewrite Nat.iter_add.
  - reflexivity.
Qed.

(** Shifting out zeros loses nothing. *)
Lemma shr_zeros (k : nat) (v : positive) :
  Nat.iter k shr_1 (Build_shr_record (Z.pos (shifted k v)) false false)
  = Build_shr_record (Z.pos v) false false.
Proof.
  induction k as [|k IH]; [reflexivity|].
  rewrite Nat.iter_succ_r. unfold shifted. simpl Nat.iter at 2. exact IH.
Qed.

Lemma size_bounds (v : positive) :
  2 ^ (Z.pos (Pos.size v) - 1) <= Z.pos v < 2 ^ Z.pos (Pos.size v).
Proof.
  induction v as [p IH|p IH|]; [| |simpl; lia];
    cbn [Pos.size]; rewrite Pos2Z.inj_succ;
    replace (Z.succ (Z.pos (Pos.size p)) - 1)
      with (Z.succ (Z.pos (Pos.size p) - 1)) by lia;
    rewrite !Z.pow_succ_r by lia; lia.
Qed.

Lemma size_le_53 (v : positive) : Z.pos v < 2 ^ 53 -> Z.pos (Pos.size v) <= 53.
Proof.
  intros H. destruct (size_bounds v) as (Hlo & _).
  destruct (Z_le_gt_dec (Z.pos (Pos.size v)) 53) as [|Hgt]; [assumption|].
  exfalso. assert (2 ^ 53 <= 2 ^ (Z.pos (Pos.size v) - 1))
    by (apply Z.pow_le_mono_r; lia). lia.
Qed.

Lemma shr_fexp_full (m : positive) (e : Z) :
  Z.pos (Pos.size m) = 53 ->
  -1074 <= e <= 971 ->
  shr_fexp 53 1024 (Z.pos m) e loc_Exact
  = (Build_shr_record (Z.pos m) false false, e).
Proof.
  intros Hm He.
  assert (Hd : Zdigits2 (Z.pos m) = 53) by (simpl; now rewrite digits2_size).
  assert (Hf : fexp 53 1024 (53 + e) - e = 0) by (unfold fexp, emin; lia).
  unfold shr_fexp. rewrite Hd, Hf. reflexivity.
Qed.

(** A mantissa of 53 bits needs no rounding. *)
Lemma round_full (s : bool) (m : positive) (e : Z) :
  Z.pos (Pos.size m) = 53 ->
  -1074 <= e <= 971 ->
  binary_round_aux 53 1024 s (Z.pos m) e loc_Exact = S754_finite s m e.
Proof.
  intros Hm He.
  assert (Hd : Zdigits2 (Z.pos m) = 53) by (simpl; now rewrite digits2_size).
  assert (Hf : fexp 53 1024 (53 + e) - e = 0) by (unfold fexp, emin; lia).
  unfold binary_round_aux, shr_fexp. rewrite Hd, Hf. cbn [shr].
  cbn [shr_record_of_loc loc_of_shr_record shr_m round_nearest_even].
  rewrite Hd, Hf. cbn [shr shr_m].
  assert (Hle : (e <=? 1024 - 53) = true) by (apply Z.leb_le; lia).
  now rewrite Hle.
Qed.

(** Rounding a mantissa that holds an integer below [2^53], followed by
    zeros, is exact. *)
Lemma binary_round_exact (s : bool) (v : positive) (n : nat) :
  Z.pos v < 2 ^ 53 ->
  binary_round 53 1024 s (shifted n v) (- Z.of_nat n) = canonical s v.
Proof.
  intros Hv. pose proof (size_le_53 v Hv) as Hsize.
  unfold canonical.
  set (k := Z.to_nat (53 - Z.pos (Pos.size v))).
  remember (Z.pos (Pos.size v) - 53) as e eqn:He.
  remember (- Z.of_nat n) as en eqn:Hen.
  assert (Hk : Z.pos (Pos.size (shifted k v)) = 53)
    by (rewrite shifted_size; unfold k; lia).
  assert (Hrange : -1074 <= e <= 971) by lia.
  unfold binary_round.
  assert (Hf : fexp 53 1024 (Z.pos (digits2_pos (shifted n v)) + en) = e).
  { rewrite digits2_size, shifted_size. unfold fexp, emin. lia. }
  rewrite Hf. unfold shl_align.
  destruct (e - en) as [|d|d] eqn:Hdiff.
  - (* already at 53 bits *)
    assert (Hn : n = k) by (unfold k; lia).
    rewrite Hn. replace en with e by lia.
    now apply round_full.
  - (* more than 53 bits: the zeros in excess are shifted out *)
    assert (Hshr : shr_fexp 53 1024 (Z.pos (shifted n v)) en loc_Exact
                   = (Build_shr_record (Z.pos (shifted k v)) false false, e)).
    { unfold shr_fexp.
      assert (Hd : Zdigits2 (Z.pos (shifted n v)) + en = Z.pos (Pos.size v)).
      { cbn [Zdigits2]. rewrite digits2_size, shifted_size. lia. }
      assert (Hf2 : fexp 53 1024 (Z.pos (Pos.size v)) - en = Z.pos d)
        by (unfold fexp, emin; lia).
      rewrite Hd, Hf2. unfold shr. cbn [shr_record_of_loc].
      rewrite iter_pos_nat.
      assert (Hn : n = (Pos.to_nat d + k)%nat) by (unfold k; lia).
      rewrite Hn, <- shifted_add, shr_zeros. f_equal. lia. }
    transitivity (binary_round_aux 53 1024 s (Z.pos (shifted k v)) e loc_Exact);
      [|now apply round_full].
    unfold binary_round_aux. rewrite Hshr, shr_fexp_full by assumption.
    reflexivity.
  - (* fewer than 53 bits: zeros are appended *)
    rewrite pos_iter_shifted, shifted_add.
    replace (Pos.to_nat d + n)%nat with k by (unfold k; lia).
    now apply round_full.
Qed.

Lemma double_of_pos (v : positive) :
  Z.pos v < 2 ^ 53 -> JS.double_of (Z.pos v) = canonical false v.
Proof. intros Hv. exact (binary_round_exact false v 0 Hv). Qed.

Lemma double_of_neg (v : positive) :
  Z.pos v < 2 ^ 53 -> JS.double_of (Z.neg v) = canonical true v.
Proof. intros Hv. exact (binary_round_exact true v 0 Hv). Qed.

Lemma double_of_zero : JS.double_of 0 = S754_zero false.
Proof. reflexivity. Qed.

(** An integer below [2^53] in magnitude, followed by zeros, is
    normalised to the double of the integer. *)
Lemma normalize_exact (z : Z) (n : nat) :
  Z.abs z < 2 ^ 53 ->
  binary_normalize 53 1024 (z * 2 ^ Z.of_nat n) (- Z.of_nat n) false
  = JS.double_of z.
Proof.
  intros Hz. destruct z as [|v|v].
  - reflexivity.
  - rewrite <- shifted_value. cbn [binary_normalize].
    rewrite binary_round_exact by exact Hz.
    symmetry. now apply double_of_pos.
  - replace (Z.neg v * 2 ^ Z.of_nat n) with (Z.neg (shifted n v))
      by (rewrite <- !Pos2Z.opp_pos, shifted_value; lia).
    cbn [binary_normalize].
    rewrite binary_round_exact by exact Hz.
    symmetry. now apply double_of_neg.
Qed.

Lemma shl_align_shifted (k n : nat) (v : positive) :
  (k <= n)%nat ->
  fst (shl_align (shifted k v) (- Z.of_nat k) (- Z.of_nat n)) = shifted n v.
Proof.
  intros Hk. unfold shl_align.
  destruct (- Z.of_nat n - - Z.of_nat k) as [|d|d] eqn:Hdiff; cbn [fst].
  - f_equal. lia.
  - lia.
  - rewrite pos_iter_shifted, shifted_add. f_equal. lia.
Qed.

Lemma canonical_exponent (v : positive) :
  Z.pos v < 2 ^ 53 ->
  Z.pos (Pos.size v) - 53
  = - Z.of_nat (Z.to_nat (53 - Z.pos (Pos.size v))).
Proof. intros Hv. pose proof (size_le_53 v Hv). lia. Qed.

Lemma add_canonical (sa sb : bool) (va vb : positive) :
  Z.pos va < 2 ^ 53 ->
  Z.pos vb < 2 ^ 53 ->
  Z.abs (cond_Zopp sa (Z.pos va) + cond_Zopp sb (Z.pos vb)) < 2 ^ 53 ->
  JS.add (canonical sa va) (canonical sb vb)
  = JS.double_of (cond_Zopp sa (Z.pos va) + cond_Zopp sb (Z.pos vb)).
Proof.
  intros Ha Hb Hsum. unfold JS.add, canonical, SFadd.
  rewrite (canonical_exponent va Ha), (canonical_exponent vb Hb).
  set (ka := Z.to_nat (53 - Z.pos (Pos.size va))).
  set (kb := Z.to_nat (53 - Z.pos (Pos.size vb))).
  set (n := Nat.max ka kb).
  replace (Z.min (- Z.of_nat ka) (- Z.of_nat kb)) with (- Z.of_nat n)
    by (unfold n; lia).
  rewrite !shl_align_shifted by (unfold n; lia).
  rewrite !shifted_value.
  replace (cond_Zopp sa (Z.pos va * 2 ^ Z.of_nat n)
           + cond_Zopp sb (Z.pos vb * 2 ^ Z.of_nat n))
    with ((cond_Zopp sa (Z.pos va) + cond_Zopp sb (Z.pos vb))
          * 2 ^ Z.of_nat n)
    by (destruct sa, sb; unfold cond_Zopp; lia).
  now apply normalize_exact.
Qed.

(** Double addition is exact on integers as long as the operands and the
    sum stay below [2^53] in magnitude. *)
Lemma add_exact (a b : Z) :
  Z.abs a < 2 ^ 53 ->
  Z.abs b < 2 ^ 53 ->
  Z.abs (a + b) < 2 ^ 53 ->
  JS.add (JS.double_of a) (JS.double_of b) = JS.double_of (a + b).
Proof.
  intros Ha Hb Hsum.
  destruct a as [|va|va], b as [|vb|vb];
    try reflexivity;
    try (rewrite ?Z.add_0_r, ?Z.add_0_l;
         first [rewrite double_of_pos by exact Ha
               |rewrite double_of_neg by exact Ha
               |rewrite double_of_pos by exact Hb
               |rewrite double_of_neg by exact Hb];
         reflexivity).
  - rewrite (double_of_pos va Ha), (double_of_pos vb Hb).
    exact (add_canonical false false va vb Ha Hb Hsum).
  - rewrite (double_of_pos va Ha), (double_of_neg vb Hb).
    exact (add_canonical false true va vb Ha Hb Hsum).
  - rewrite (double_of_neg va Ha), (double_of_pos vb Hb).
    exact (add_canonical true false va vb Ha Hb Hsum).
  - rewrite (double_of_neg va Ha), (double_of_neg vb Hb).
    exact (add_canonical true true va vb Ha Hb Hsum).
Qed.

(** The double of an integer below [2^53] in magnitude holds it. *)
Lemma integer_of_double (z : Z) :
  Z.abs z < 2 ^ 53 -> JS.integer_of (JS.double_of z) = Some z.
Proof.
  intros Hz.
  assert (Hcan : forall s v, Z.pos v < 2 ^ 53 ->
            JS.integer_of (canonical s v) = Some (cond_Zopp s (Z.pos v))).
  { intros s v Hv. unfold canonical, JS.integer_of.
    rewrite (canonical_exponent v Hv).
    set (k := Z.to_nat (53 - Z.pos (Pos.size v))).
    rewrite shifted_value, Z.opp_involutive.
    destruct (0 <=? - Z.of_nat k) eqn:Hk.
    - apply Z.leb_le in Hk. replace (- Z.of_nat k) with 0 by lia.
      replace (Z.of_nat k) with 0 by lia. f_equal. f_equal. simpl. lia.
    - assert (Hpow : 0 < 2 ^ Z.of_nat k) by (apply Z.pow_pos_nonneg; lia).
      rewrite Z.mod_mul by lia. simpl Z.eqb. cbv iota.
      rewrite Z.div_mul by lia. reflexivity. }
  destruct z as [|v|v]; [reflexivity| |].
  - rewrite double_of_pos by exact Hz. now apply Hcan.
  - rewrite double_of_neg by exact Hz. now apply Hcan.
Qed.

End Doubles.

(* ------------------------------------------------------------------ *)
(** ** The remote usage fetcher *)

Example fetch_401 :
  fst (fetchApiKeyData "k1" "sk-1234567890" (world_of [] (always unauthorized) []))
  = Ok (failure "k1" "sk-1..." "HTTP 401").
Proof. reflexivity. Qed.

Example fetch_success :
  option_map data_key
    (match fst (fetchApiKeyData "k1" "sk-1234567890"
                  (world_of [] (always (usage_of 1000 400)) [])) with
     | Ok d => Some d
     | Throw _ => None
     end)
  = Some "sk-1...7890".
Proof. reflexivity. Qed.

(** C2, as stated, fails: a 2xx response whose body is not the expected
    structure (here a page of HTML, on which [response.json()] rejects) is
    classified ['Failed to fetch'], not ['Invalid API response structure']. *)
Lemma fetch_classification_counterexample :
  let w := world_of [] (always html_page) [] in
  let r := mkResponse 200 (Ok "<html></html>") (Throw "Unexpected token <") in
  remote w "sk-1234567890" = Responded r /\
  resp_ok r = true /\
  lacks_structure r /\
  exists d w',
    fetchApiKeyData "k1" "sk-1234567890" w = (Ok d, w') /\
    data_error d = Some "Failed to fetch" /\
    data_error d <> Some "Invalid API response structure".
Proof.
  cbv zeta. split; [reflexivity|]. split; [reflexivity|]. split; [exact I|].
  eexists _, _. split; [reflexivity|]. split; [reflexivity|discriminate].
Qed.

(** C2, amended: [fetchApiKeyData] never throws and always returns a tagged
    result.  Its error is ["HTTP " + status] for a non-2xx response whose
    body can be read, ['Invalid API response structure'] for a 2xx response
    whose JSON body (other than [null]) has no truthy [usage] or
    [usage.standard], and ['Failed to fetch'] whenever something in the
    [try] block throws: the fetch, the reading of the body, its parsing as
    JSON, or the reading of [usage] from a body that is [null]; it has no
    error when [usage.standard] is there.  The three errors are pairwise
    distinct. *)
Theorem fetch_classification :
  forall (id key : string) (w : World) (status : Z),
    (exists d w',
        fetchApiKeyData id key w = (Ok d, w') /\
        data_id d = id /\
        match remote w key with
        | NetworkError _ => data_error d = Some "Failed to fetch"
        | Responded r =>
            if resp_ok r then
              match resp_json r with
              | Throw _ => data_error d = Some "Failed to fetch"
              | Ok ApiNull => data_error d = Some "Failed to fetch"
              | Ok (ApiValue None) =>
                  data_error d = Some "Invalid API response structure"
              | Ok (ApiValue (Some u)) =>
                  match usage_standard u with
                  | None => data_error d = Some "Invalid API response structure"
                  | Some _ => data_error d = None
                  end
              end
            else
              match resp_text r with
              | Throw _ => data_error d = Some "Failed to fetch"
              | Ok _ => data_error d = Some ("HTTP " ++ JS.of_Z (resp_status r))
              end
        end) /\
    "HTTP " ++ JS.of_Z status <> "Invalid API response structure" /\
    "HTTP " ++ JS.of_Z status <> "Failed to fetch" /\
    "Invalid API response structure" <> "Failed to fetch".
Proof.
  intros id key w status. split.
  - run_fetch.
    destruct (remote w key) as [e|r]; [eauto 6|].
    destruct (resp_ok r); simpl.
    + destruct (resp_json r) as [[|[u|]]|e]; simpl; eauto 6.
      destruct (usage_standard u); simpl; eauto 6.
    + destruct (resp_text r); simpl; eauto 6.
  - repeat split; discriminate.
Qed.

(** C9, as stated, fails: on a failure path the returned key is the first
    4 characters and the ellipsis only. *)
Lemma fetch_masked_counterexample :
  exists d w',
    fetchApiKeyData "k1" "sk-1234567890" (world_of [] (always unauthorized) [])
    = (Ok d, w') /\
    data_error d = Some "HTTP 401" /\
    data_key d = "sk-1..." /\
    spec_masked "sk-1234567890" = "sk-1...7890" /\
    data_key d <> spec_masked "sk-1234567890".
Proof.
  eexists _, _. split; [reflexivity|].
  repeat split; try reflexivity. discriminate.
Qed.

(** C9, amended: on the success path the returned key is the first 4
    characters of the secret, ["..."], and its last 4 characters; on the
    three failure paths (non-2xx status, malformed 2xx body, exception) it
    is the first 4 characters followed by ["..."]. *)
Theorem fetch_masked_key :
  forall (id key : string) (w : World),
  exists d w',
    fetchApiKeyData id key w = (Ok d, w') /\
    data_key d = if no_error d
                 then spec_masked key
                 else first_chars 4 key ++ "...".
Proof.
  intros id key w.
  rewrite <- maskedKey_spec, <- prefixKey_spec.
  run_fetch.
  destruct (remote w key) as [e|r]; [eauto|].
  destruct (resp_ok r); simpl.
  - destruct (resp_json r) as [[|[u|]]|e]; simpl; eauto.
    destruct (usage_standard u); simpl; eauto.
  - destruct (resp_text r); simpl; eauto.
Qed.

(* ------------------------------------------------------------------ *)
(** ** Running computations *)

Section Running.

Lemma add_lines_nil (w : World) : add_lines w [] = w.
Proof. destruct w; unfold add_lines; simpl. now rewrite app_nil_r. Qed.

Lemma add_lines_app (w : World) (a b : list string) :
  add_lines (add_lines w a) b = add_lines w (a ++ b).
Proof. unfold add_lines; simpl. now rewrite app_assoc. Qed.

Lemma bind_ok {A B} (m : M A) (k : A -> M B) (w w' : World) (a : A) :
  m w = (Ok a, w') -> bind m k w = k a w'.
Proof. unfold bind. now intros ->. Qed.

Lemma bind_throw {A B} (m : M A) (k : A -> M B) (w w' : World) (e : string) :
  m w = (Throw e, w') -> bind m k w = (Throw e, w').
Proof. unfold bind. now intros ->. Qed.

Lemma try_ok {A} (m : M A) (h : string -> M A) (w w' : World) (a : A) :
  m w = (Ok a, w') -> try_catch m h w = (Ok a, w').
Proof. unfold try_catch. now intros ->. Qed.

Lemma try_throw {A} (m : M A) (h : string -> M A) (w w' : World) (e : string) :
  m w = (Throw e, w') -> try_catch m h w = h e w'.
Proof. unfold try_catch. now intros ->. Qed.

Lemma console_log_run (line : string) (w : World) :
  console_log line w = (Ok tt, add_lines w [line]).
Proof. reflexivity. Qed.

Lemma kv_op_run {A} (f : KV -> A * KV) (w : World) :
  read_ok w = true ->
  kv_op f w = (Ok (fst (f (kv w))), after_kv w (snd (f (kv w)))).
Proof.
  unfold read_ok, kv_op, after_kv.
  destruct (faults w) as [|[|] fs]; simpl; try discriminate;
    intros _; destruct (f (kv w)); reflexivity.
Qed.

Lemma kv_op_throws {A} (f : KV -> A * KV) (w : World) :
  read_ok w = false ->
  kv_op f w = (Throw "KV operation failed", after_kv w (kv w)).
Proof.
  unfold read_ok, kv_op, after_kv.
  destruct (faults w) as [|[|] fs]; simpl; try discriminate; reflexivity.
Qed.

Lemma calm_read_ok (w : World) : calm w -> read_ok w = true.
Proof.
  unfold calm, read_ok. destruct (faults w) as [|b fs]; [reflexivity|].
  intros H. inversion H; subst. reflexivity.
Qed.

Lemma calm_after_kv (w : World) (s : KV) : calm w -> calm (after_kv w s).
Proof.
  unfold calm, after_kv; simpl. destruct (faults w); simpl; [constructor|].
  intros H. now inversion H.
Qed.

Lemma calm_add_lines (w : World) (l : list string) :
  calm w -> calm (add_lines w l).
Proof. exact (fun H => H). Qed.

Lemma date_now_run (w : World) :
  date_now w = (Ok (now (after_now w)), after_now w).
Proof.
  unfold after_now, date_now. destruct (ticks w); reflexivity.
Qed.

Lemma after_now_kv (w : World) : kv (after_now w) = kv w.
Proof. unfold after_now, date_now. destruct (ticks w); reflexivity. Qed.

Lemma after_now_console (w : World) : console (after_now w) = console w.
Proof. unfold after_now, date_now. destruct (ticks w); reflexivity. Qed.

Lemma after_now_faults (w : World) : faults (after_now w) = faults w.
Proof. unfold after_now, date_now. destruct (ticks w); reflexivity. Qed.

(** [fetchApiKeyData] returns, and only prints. *)
Lemma failure_fetched_for (e : ApiKeyEntry) (error : string) :
  error <> "" ->
  fetched_for e
    (mkKeyData (entry_id e) (prefixKey (entry_key e)) (Some error)
               None None JS.Undefined JS.Undefined None).
Proof.
  intros H. apply String.eqb_neq in H.
  unfold fetched_for, no_error; simpl. rewrite H; simpl.
  repeat split; auto; discriminate.
Qed.

Lemma fetch_run (e : ApiKeyEntry) (w : World) :
  exists d lines,
    fetchApiKeyData (entry_id e) (entry_key e) w = (Ok d, add_lines w lines)
    /\ fetched_for e d.
Proof.
  run_fetch.
  destruct (remote w (entry_key e)) as [m|r].
  - eexists _, [_]. split; [reflexivity|].
    apply failure_fetched_for; discriminate.
  - destruct (resp_ok r); simpl.
    + destruct (resp_json r) as [[|[u|]]|m]; simpl;
        try (eexists _, [_]; split; [reflexivity|];
             apply failure_fetched_for; discriminate);
        try (eexists _, []; rewrite add_lines_nil; split; [reflexivity|];
             apply failure_fetched_for; discriminate).
      destruct (usage_standard u); simpl;
        eexists _, []; rewrite add_lines_nil; (split; [reflexivity|]);
        [|apply failure_fetched_for; discriminate].
      unfold fetched_for, no_error; simpl. tauto.
    + destruct (resp_text r); simpl;
        eexists _, [_]; (split; [reflexivity|]);
        apply failure_fetched_for; discriminate.
Qed.

(** [Promise.all(keyEntries.map(...))]: one result per entry, in order. *)
Lemma fetch_all_run (keyEntries : list ApiKeyEntry) (w : World) :
  exists results lines,
    promise_all (fun entry => fetchApiKeyData (entry_id entry) (entry_key entry))
         keyEntries w
    = (Ok results, add_lines w lines)
    /\ Forall2 fetched_for keyEntries results.
Proof.
  revert w. induction keyEntries as [|e l IH]; intros w.
  - exists [], []. rewrite add_lines_nil. split; [reflexivity|constructor].
  - destruct (fetch_run e w) as (d & l1 & Hd & Hfor).
    destruct (IH (add_lines w l1)) as (ds & l2 & Hds & Hall).
    exists (d :: ds), (l1 ++ l2)%list. split; [|now constructor].
    simpl. unfold bind at 1. rewrite Hd.
    unfold bind at 1. rewrite Hds. rewrite add_lines_app. reflexivity.
Qed.

Lemma log_keys_run (keyEntries : list ApiKeyEntry) (items : list KeyData)
  (w : World) :
  log_keys keyEntries items w
  = (Ok tt, add_lines w (secrets_of keyEntries items)).
Proof.
  revert w. induction items as [|item rest IH]; intros w; simpl.
  - now rewrite add_lines_nil.
  - unfold bind at 1.
    destruct (find _ keyEntries) as [e|].
    + rewrite console_log_run, IH, add_lines_app. reflexivity.
    + unfold ret. rewrite IH. reflexivity.
Qed.

End Running.

(* ------------------------------------------------------------------ *)
(** ** The aggregator *)

Section Aggregator.

Lemma getAllApiKeys_run (w : World) :
  read_ok w = true ->
  getAllApiKeys w = (Ok (map snd (kv w)), after_kv w (kv w)).
Proof. intros H. unfold getAllApiKeys. now rewrite kv_op_run. Qed.

Lemma report_run (keyEntries : list ApiKeyEntry) (results : list KeyData)
  (w : World) :
  (if (0 <? List.length (keysWithBalance results))%nat then
     console_log (JS.nl ++ repeat_string "=" 80) ;;;
     console_log balance_banner ;;;
     console_log (repeat_string "-" 80) ;;;
     log_keys keyEntries (keysWithBalance results) ;;;
     console_log (repeat_string "=" 80 ++ JS.nl)
   else
     console_log (JS.nl ++ no_balance_warning ++ JS.nl)) w
  = (Ok tt, add_lines w (balance_report keyEntries results)).
Proof.
  unfold balance_report.
  destruct (0 <? List.length (keysWithBalance results))%nat.
  - unfold bind. rewrite !console_log_run, log_keys_run, console_log_run.
    rewrite !add_lines_app. reflexivity.
  - apply console_log_run.
Qed.

(** What a run of [getAggregatedData] on a non-empty store does. *)
Lemma aggregate_run (w : World) :
  read_ok w = true ->
  kv w <> [] ->
  exists results lines w',
    Forall2 fetched_for (map snd (kv w)) results /\
    w' = after_now (add_lines (after_kv w (kv w)) lines) /\
    getAggregatedData w
    = (Ok (view_of (now w') (map snd (kv w)) results),
       add_lines w' (balance_report (map snd (kv w)) results)).
Proof.
  intros Hread Hne.
  destruct (fetch_all_run (map snd (kv w)) (after_kv w (kv w)))
    as (results & lines & Hrun & Hall).
  exists results, lines, (after_now (add_lines (after_kv w (kv w)) lines)).
  split; [exact Hall|]. split; [reflexivity|].
  unfold getAggregatedData. unfold bind at 1.
  rewrite (getAllApiKeys_run w Hread).
  destruct (List.length (map snd (kv w)) =? 0)%nat eqn:Hlen.
  - apply Nat.eqb_eq in Hlen. rewrite length_map in Hlen.
    destruct (kv w); [congruence|discriminate].
  - unfold bind at 1. rewrite Hrun.
    unfold bind at 1. rewrite date_now_run.
    unfold bind at 1.
    fold (keysWithBalance results).
    rewrite report_run. reflexivity.
Qed.

Lemma Forall2_In_r {A B} (R : A -> B -> Prop) (l : list A) (l' : list B) (b : B) :
  Forall2 R l l' -> In b l' -> exists a, In a l /\ R a b.
Proof.
  induction 1 as [|x y l l' Hxy _ IH]; intros Hin; [contradiction|].
  destruct Hin as [<-|Hin].
  - exists x. split; [now left|exact Hxy].
  - destruct (IH Hin) as (a & Ha & HR). exists a. split; [now right|exact HR].
Qed.

Lemma Forall2_map_eq {A B C} (f : A -> C) (g : B -> C) (l : list A) (l' : list B) :
  Forall2 (fun a b => g b = f a) l l' -> map g l' = map f l.
Proof. induction 1; simpl; congruence. Qed.

(** The reducer adds the two fields up separately. *)
Lemma fold_add_totals (l : list KeyData) (acc : Totals) :
  fold_left add_totals l acc
  = mkTotals
      (fold_left (fun sum x => JS.add sum (JS.double_of x))
                 (map (fun r => JS.or_zero (data_orgTotalTokensUsed r)) l)
                 (total_orgTotalTokensUsed acc))
      (fold_left (fun sum x => JS.add sum (JS.double_of x))
                 (map (fun r => JS.or_zero (data_totalAllowance r)) l)
                 (total_totalAllowance acc)).
Proof.
  revert acc. induction l as [|r l IH]; intros acc; simpl.
  - now destruct acc.
  - rewrite IH. reflexivity.
Qed.

(** Adding integers up in doubles is exact within the range. *)
Lemma fold_add_exact (l : list Z) (acc : Z) :
  Z.abs acc < 2 ^ 53 ->
  exact_range acc l ->
  fold_left (fun sum x => JS.add sum (JS.double_of x)) l (JS.double_of acc)
  = JS.double_of (acc + Zsum l) /\
  Z.abs (acc + Zsum l) < 2 ^ 53.
Proof.
  revert acc. induction l as [|x l IH]; intros acc Hacc Hrange; simpl.
  - rewrite Z.add_0_r. now split.
  - destruct Hrange as (Hx & Hsum & Hrest).
    rewrite add_exact by assumption.
    destruct (IH (acc + x) Hsum Hrest) as [Hfold Hbound].
    rewrite Z.add_assoc. now split.
Qed.

Lemma Zsum_filter {A} (p : A -> bool) (f : A -> Z) (l : list A) :
  Zsum (map f (filter p l))
  = Zsum (map (fun x => if p x then f x else 0) l).
Proof.
  induction l as [|x l IH]; simpl; [reflexivity|].
  destruct (p x); simpl; rewrite IH; reflexivity.
Qed.

(** What the reducer takes of a field is the amount it stands for. *)
Lemma or_zero_amount (field : JS.num) : JS.or_zero field = amount field.
Proof. now destruct field. Qed.

(** On the results of the fetcher, the filter of the aggregator keeps the
    snapshots without an error tag. *)
Lemma no_error_untagged (keyEntries : list ApiKeyEntry)
  (results : list KeyData) :
  Forall2 fetched_for keyEntries results ->
  filter no_error results = filter untagged results.
Proof.
  intros Hall. apply filter_ext_in. intros r Hr.
  destruct (Forall2_In_r _ _ _ _ Hall Hr) as (e & _ & _ & _ & Htag).
  unfold untagged. destruct (data_error r) as [m|] eqn:Herr.
  - destruct (no_error r); [|reflexivity].
    destruct Htag as [Htag _]. now specialize (Htag eq_refl).
  - now apply Htag.
Qed.

End Aggregator.

Example scenario_totals :
  option_map totals
    (match fst (getAggregatedData scenario) with
     | Ok v => Some v
     | Throw _ => None
     end)
  = Some (mkTotals (JS.double_of 900) (JS.double_of 1500)).
Proof. vm_compute. reflexivity. Qed.

(** C1, as stated, fails: the totals are added up in doubles.  With the
    allowances [2^53 - 1] and 2 the total is [2^53], one less than the
    sum. *)
Lemma aggregate_totals_counterexample :
  exists v w',
    getAggregatedData rounding_world = (Ok v, w') /\
    map data_error (data v) = [None; None] /\
    map data_totalAllowance (data v)
    = [JS.Number 9007199254740991; JS.Number 2] /\
    Zsum (counted data_totalAllowance (data v)) = 9007199254740993 /\
    JS.integer_of (total_totalAllowance (totals v)) = Some 9007199254740992 /\
    JS.integer_of (total_totalAllowance (totals v))
    <> Some (Zsum (counted data_totalAllowance (data v))).
Proof.
  eexists _, _. split; [vm_compute; reflexivity|].
  split; [reflexivity|]. split; [reflexivity|]. split; [reflexivity|].
  split; [reflexivity|]. vm_compute. discriminate.
Qed.

(** C1, amended: on a non-empty store whose listing succeeds,
    [getAggregatedData] returns a view that lists one snapshot per
    credential, in the order of the store, with or without an error tag.
    For each of the two fields, as long as the amounts of the snapshots
    without an error tag and their running sums stay below [2^53] in
    magnitude, the total of the view is the sum of these amounts; a
    snapshot with an error tag adds 0 to it. *)
Theorem aggregate_totals :
  forall w : World,
    read_ok w = true ->
    kv w <> [] ->
    exists v w',
      getAggregatedData w = (Ok v, w') /\
      map data_id (data v) = map entry_id (map snd (kv w)) /\
      total_count v = List.length (kv w) /\
      (exact_range 0 (counted data_totalAllowance (data v)) ->
       JS.integer_of (total_totalAllowance (totals v))
       = Some (Zsum (counted data_totalAllowance (data v)))) /\
      (exact_range 0 (counted data_orgTotalTokensUsed (data v)) ->
       JS.integer_of (total_orgTotalTokensUsed (totals v))
       = Some (Zsum (counted data_orgTotalTokensUsed (data v)))) /\
      forall field : KeyData -> JS.num,
        Zsum (counted field (data v))
        = Zsum (map (fun r => if untagged r then amount (field r) else 0)
                    (data v)).
Proof.
  intros w Hread Hne.
  destruct (aggregate_run w Hread Hne) as (results & lines & w' & Hall & _ & Hrun).
  eexists _, _. split; [exact Hrun|].
  unfold view_of. cbn [data totals total_count].
  rewrite fold_add_totals.
  cbn [total_totalAllowance total_orgTotalTokensUsed].
  change (total_orgTotalTokensUsed no_totals) with (JS.double_of 0).
  change (total_totalAllowance no_totals) with (JS.double_of 0).
  rewrite (no_error_untagged _ _ Hall).
  assert (Hfield : forall field : KeyData -> JS.num,
            map (fun r => JS.or_zero (field r)) (filter untagged results)
            = counted field results).
  { intros field. unfold counted. apply map_ext. intros r.
    apply or_zero_amount. }
  rewrite !Hfield.
  split; [|split; [apply length_map|split; [|split]]].
  - apply Forall2_map_eq.
    eapply Forall2_impl; [|exact Hall]. intros e d Hfor. apply Hfor.
  - intros Hrange.
    destruct (fold_add_exact _ 0 ltac:(reflexivity) Hrange) as [-> Hbound].
    now apply integer_of_double.
  - intros Hrange.
    destruct (fold_add_exact _ 0 ltac:(reflexivity) Hrange) as [-> Hbound].
    now apply integer_of_double.
  - intros field. unfold counted. apply Zsum_filter.
Qed.

Lemma aggregate_totals_witness :
  read_ok scenario = true /\
  kv scenario <> [] /\
  exists v w',
    getAggregatedData scenario = (Ok v, w') /\
    map data_id (data v) = ["A"; "B"; "C"] /\
    map data_error (data v) = [None; None; Some "HTTP 401"] /\
    counted data_totalAllowance (data v) = [1000; 500] /\
    JS.integer_of (total_totalAllowance (totals v)) = Some 1500 /\
    counted data_orgTotalTokensUsed (data v) = [400; 500] /\
    JS.integer_of (total_orgTotalTokensUsed (totals v)) = Some 900.
Proof.
  assert (H0 : read_ok scenario = true) by reflexivity.
  assert (H1 : kv scenario <> []) by discriminate.
  split; [exact H0|]. split; [exact H1|].
  destruct (aggregate_totals scenario H0 H1)
    as (v & w' & Hrun & Hids & _ & Hallowance & Hused & _).
  exists v, w'. split; [exact Hrun|].
  vm_compute in Hrun. injection Hrun as <- _.
  split; [reflexivity|]. split; [reflexivity|]. split; [reflexivity|].
  split; [apply Hallowance; vm_compute; intuition discriminate|].
  split; [reflexivity|].
  apply Hused; vm_compute; intuition discriminate.
Defined.

(** C7: when the store is empty, [getAggregatedData] throws the error "No
    API keys found in storage. Please import keys first.", which
    [/api/data] hands to the caller as a 500 response with that message;
    when the store is not empty it returns a view, sent with status 200.
    (When the listing of the store itself throws, the error is another
    one.) *)
Theorem aggregate_empty_store :
  forall w : World,
    if read_ok w then
      match kv w with
      | [] =>
          fst (getAggregatedData w) = Throw no_keys_message /\
          fst (handle_data w) = Ok (ErrorJson 500 no_keys_message)
      | _ :: _ =>
          exists v,
            fst (getAggregatedData w) = Ok v /\
            fst (handle_data w) = Ok (Json 200 v)
      end
    else
      fst (getAggregatedData w) = Throw "KV operation failed" /\
      fst (getAggregatedData w) <> Throw no_keys_message.
Proof.
  intros w. destruct (read_ok w) eqn:Hread.
  - destruct (kv w) as [|p s] eqn:Hkv.
    + unfold handle_data, try_catch, bind, getAggregatedData.
      unfold bind. rewrite (getAllApiKeys_run w Hread), Hkv. simpl.
      split; reflexivity.
    + assert (Hne : kv w <> []) by (rewrite Hkv; discriminate).
      destruct (aggregate_run w Hread Hne) as (results & lines & w' & _ & _ & Hrun).
      eexists. unfold handle_data, try_catch, bind.
      rewrite Hrun. simpl. split; reflexivity.
  - unfold getAggregatedData, bind, getAllApiKeys.
    rewrite (kv_op_throws _ w Hread). simpl. split; [reflexivity|discriminate].
Qed.

(* ------------------------------------------------------------------ *)
(** ** Secrets in responses and in the log *)

Example scenario_console :
  console (snd (getAggregatedData scenario))
  = [ "Error fetching data for key ID C: 401 Unauthorized";
      JS.nl ++ repeat_string "=" 80;
      balance_banner;
      repeat_string "-" 80;
      secret_A;
      repeat_string "=" 80 ++ JS.nl ]%string.
Proof. vm_compute. reflexivity. Qed.


Lemma find_fetched (keyEntries : list ApiKeyEntry) (results : list KeyData)
  (d : KeyData) :
  Forall2 fetched_for keyEntries results ->
  In d results ->
  exists e,
    find (fun e => (entry_id e =? data_id d)%string) keyEntries = Some e.
Proof.
  intros Hall Hin.
  destruct (Forall2_In_r _ _ _ _ Hall Hin) as (e0 & He0 & Hid & _).
  destruct (find _ keyEntries) as [e|] eqn:Hfind; [now exists e|].
  apply (find_none _ _ Hfind) in He0.
  rewrite Hid, String.eqb_refl in He0. discriminate.
Qed.

Lemma secrets_of_In (keyEntries : list ApiKeyEntry) (items : list KeyData)
  (d : KeyData) (e : ApiKeyEntry) :
  In d items ->
  find (fun e => (entry_id e =? data_id d)%string) keyEntries = Some e ->
  In (entry_key e) (secrets_of keyEntries items).
Proof.
  intros Hin Hfind. unfold secrets_of. apply in_flat_map.
  exists d. split; [exact Hin|]. rewrite Hfind. now left.
Qed.

(* ------------------------------------------------------------------ *)
(** ** Duplicate detection *)

Section Grouping.

Lemma map_get_set (k k' : string) (v : list string) (m : KeyMap) :
  map_get k' (map_set k v m)
  = if (k =? k')%string then Some v else map_get k' m.
Proof.
  induction m as [|[k0 v0] m IH]; simpl.
  - reflexivity.
  - destruct (k0 =? k)%string eqn:H0; simpl.
    + apply String.eqb_eq in H0. subst k0.
      destruct (k =? k')%string; reflexivity.
    + destruct (k0 =? k')%string eqn:H1; [|exact IH].
      apply String.eqb_eq in H1. subst k0.
      rewrite String.eqb_sym, H0. reflexivity.
Qed.

Lemma map_get_None (k : string) (m : KeyMap) :
  map_get k m = None <-> ~ In k (map fst m).
Proof.
  induction m as [|[k0 v0] m IH]; simpl; [tauto|].
  destruct (k0 =? k)%string eqn:H0.
  - apply String.eqb_eq in H0. split; [discriminate|tauto].
  - apply String.eqb_neq in H0. tauto.
Qed.

Lemma map_set_keys (k : string) (v : list string) (m : KeyMap) :
  map fst (map_set k v m)
  = match map_get k m with
    | Some _ => map fst m
    | None => (map fst m ++ [k])%list
    end.
Proof.
  induction m as [|[k0 v0] m IH]; simpl; [reflexivity|].
  destruct (k0 =? k)%string eqn:H0; simpl.
  - apply String.eqb_eq in H0. now subst.
  - rewrite IH. destruct (map_get k m); reflexivity.
Qed.

Lemma map_get_In (k : string) (v : list string) (m : KeyMap) :
  NoDup (map fst m) -> In (k, v) m -> map_get k m = Some v.
Proof.
  induction m as [|[k0 v0] m IH]; simpl; [contradiction|].
  intros Hnd [Heq|Hin].
  - injection Heq as -> ->. now rewrite String.eqb_refl.
  - inversion Hnd as [|? ? Hnotin Hnd']; subst.
    destruct (k0 =? k)%string eqn:H0; [|now apply IH].
    apply String.eqb_eq in H0. subst k0.
    exfalso. apply Hnotin. apply in_map_iff. now exists (k, v).
Qed.

Lemma In_map_get (k : string) (v : list string) (m : KeyMap) :
  map_get k m = Some v -> In (k, v) m.
Proof.
  induction m as [|[k0 v0] m IH]; simpl; [discriminate|].
  destruct (k0 =? k)%string eqn:H0.
  - apply String.eqb_eq in H0. intros [= ->]. left. now subst.
  - intros H. right. now apply IH.
Qed.

Lemma ids_with_app (k : string) (l l' : list ApiKeyEntry) :
  ids_with k (l ++ l') = (ids_with k l ++ ids_with k l')%list.
Proof. unfold ids_with. now rewrite filter_app, map_app. Qed.

Lemma grouped_step (m : KeyMap) (l : list ApiKeyEntry) (e : ApiKeyEntry) :
  grouped m l -> grouped (group_entry m e) (l ++ [e]).
Proof.
  intros [Hnd Hget]. unfold group_entry. split.
  - rewrite map_set_keys.
    destruct (map_get (entry_key e) m) eqn:Hk; [exact Hnd|].
    apply NoDup_app; [exact Hnd|repeat constructor; intros []|].
    intros k Hin [<-|[]]. now apply map_get_None in Hk.
  - intros k. rewrite map_get_set, ids_with_app.
    unfold ids_with at 2. simpl.
    destruct (entry_key e =? k)%string eqn:Hk; simpl.
    + apply String.eqb_eq in Hk. subst k. rewrite Hget.
      destruct (ids_with (entry_key e) l); reflexivity.
    + rewrite app_nil_r. apply Hget.
Qed.

Lemma fold_group_entry (l l0 : list ApiKeyEntry) (m : KeyMap) :
  grouped m l0 -> grouped (fold_left group_entry l m) (l0 ++ l).
Proof.
  revert l0 m. induction l as [|e l IH]; intros l0 m H; simpl.
  - now rewrite app_nil_r.
  - replace (l0 ++ e :: l)%list with ((l0 ++ [e]) ++ l)%list
      by now rewrite <- app_assoc.
    apply IH. now apply grouped_step.
Qed.

Lemma group_by_key_grouped (l : list ApiKeyEntry) :
  grouped (group_by_key l) l.
Proof.
  apply (fold_group_entry l [] []). split; [constructor|reflexivity].
Qed.

(** The reported groups are the secrets held by two entries or more, each
    with the IDs of its entries in iteration order. *)
Lemma duplicates_of_In (l : list ApiKeyEntry) (g : DuplicateGroup) :
  In g (duplicates_of (group_by_key l)) <->
  exists k,
    g = mkGroup (maskedKey k) (ids_with k l) (List.length (ids_with k l))
    /\ (1 < List.length (ids_with k l))%nat.
Proof.
  destruct (group_by_key_grouped l) as [Hnd Hget].
  unfold duplicates_of. rewrite in_flat_map. split.
  - intros ([k ids] & Hin & Hg).
    apply (map_get_In _ _ _ Hnd) in Hin. rewrite Hget in Hin.
    destruct (1 <? List.length ids)%nat eqn:Hlen; [|contradiction].
    destruct Hg as [<-|[]]. exists k.
    destruct (ids_with k l) eqn:Hids; [discriminate|].
    injection Hin as <-. split; [reflexivity|]. now apply Nat.ltb_lt.
  - intros (k & -> & Hlen).
    exists (k, ids_with k l). split.
    + apply In_map_get. rewrite Hget.
      destruct (ids_with k l); [simpl in Hlen; lia|reflexivity].
    + apply Nat.ltb_lt in Hlen. rewrite Hlen. now left.
Qed.

End Grouping.

(* ------------------------------------------------------------------ *)
(** ** Cleaning of duplicates *)

Section Cleaning.

Lemma delete_all_nil (s : KV) : delete_all [] s = s.
Proof.
  induction s as [|p s IH]; [reflexivity|].
  change (delete_all [] (p :: s)) with (p :: delete_all [] s).
  now rewrite IH.
Qed.

Lemma delete_all_cons (id : string) (ids : list string) (s : KV) :
  delete_all ids (kv_delete id s) = delete_all (id :: ids) s.
Proof.
  unfold delete_all, kv_delete.
  induction s as [|p s IH]; simpl; [reflexivity|].
  destruct (fst p =? id)%string; simpl; rewrite IH; reflexivity.
Qed.

Lemma delete_all_app (ids ids' : list string) (s : KV) :
  delete_all ids' (delete_all ids s) = delete_all (ids ++ ids') s.
Proof.
  unfold delete_all.
  induction s as [|p s IH]; simpl; [reflexivity|].
  rewrite existsb_app.
  destruct (existsb (String.eqb (fst p)) ids); simpl; rewrite IH; reflexivity.
Qed.

Lemma delete_all_keys (ids : list string) (s : KV) (id : string) :
  In id (map fst (delete_all ids s)) <-> In id (map fst s) /\ ~ In id ids.
Proof.
  unfold delete_all. rewrite !in_map_iff. split.
  - intros (p & <- & Hp). apply filter_In in Hp. destruct Hp as [Hp Hb].
    split; [now exists p|].
    intros Hin. apply negb_true_iff in Hb.
    assert (existsb (String.eqb (fst p)) ids = true); [|congruence].
    apply existsb_exists. exists (fst p). split; [exact Hin|].
    apply String.eqb_refl.
  - intros ((p & <- & Hp) & Hnot). exists p. split; [reflexivity|].
    apply filter_In. split; [exact Hp|].
    apply negb_true_iff. destruct (existsb _ ids) eqn:Hex; [|reflexivity].
    apply existsb_exists in Hex. destruct Hex as (x & Hx & Heq).
    apply String.eqb_eq in Heq. subst x. contradiction.
Qed.

Lemma deleteApiKey_run (id : string) (w : World) :
  read_ok w = true ->
  deleteApiKey id w = (Ok tt, after_kv w (kv_delete id (kv w))).
Proof. intros H. unfold deleteApiKey. now rewrite kv_op_run. Qed.

Lemma delete_rest_run (ids : list string) (n : nat) (w : World) :
  calm w ->
  exists w',
    delete_rest ids n w = (Ok (n + List.length ids)%nat, w') /\
    kv w' = delete_all ids (kv w) /\
    console w' = console w /\
    calm w'.
Proof.
  revert n w. induction ids as [|id ids IH]; intros n w Hcalm; simpl.
  - exists w. rewrite delete_all_nil, Nat.add_0_r. now repeat split.
  - unfold bind. rewrite (deleteApiKey_run id w (calm_read_ok w Hcalm)).
    destruct (IH (S n) _ (calm_after_kv w (kv_delete id (kv w)) Hcalm))
      as (w' & Hrun & Hkv & Hcon & Hc).
    exists w'. rewrite Hrun, Hkv. simpl.
    rewrite delete_all_cons, <- plus_n_Sm. now repeat split.
Qed.

Lemma clean_groups_run (groups : list DuplicateGroup) (n : nat) (w : World) :
  calm w ->
  exists w',
    clean_groups groups n w
    = (Ok (n + List.length (doomed groups))%nat, w') /\
    kv w' = delete_all (doomed groups) (kv w) /\
    console w' = console w /\
    calm w'.
Proof.
  revert n w. induction groups as [|g groups IH]; intros n w Hcalm; simpl.
  - exists w. rewrite delete_all_nil, Nat.add_0_r. now repeat split.
  - destruct (delete_rest_run (tl (dup_ids g)) n w Hcalm)
      as (w1 & Hrun1 & Hkv1 & Hcon1 & Hc1).
    destruct (IH (n + List.length (tl (dup_ids g)))%nat w1 Hc1)
      as (w' & Hrun & Hkv & Hcon & Hc).
    exists w'. unfold bind. rewrite Hrun1, Hrun, Hkv, Hkv1.
    rewrite delete_all_app, length_app, Nat.add_assoc.
    split; [reflexivity|]. split; [reflexivity|]. split; [congruence|exact Hc].
Qed.

Lemma store_ok_ids (s : KV) :
  store_ok s -> map entry_id (map snd s) = map fst s.
Proof.
  intros [_ Hid]. induction s as [|p s IH]; simpl; [reflexivity|].
  inversion Hid; subst. f_equal; auto.
Qed.

Lemma ids_with_NoDup (k : string) (entries : list ApiKeyEntry) :
  NoDup (map entry_id entries) -> NoDup (ids_with k entries).
Proof.
  unfold ids_with. intros Hnd.
  induction entries as [|e rest IH]; simpl; [constructor|].
  inversion Hnd as [|? ? Hfresh Hrest]; subst.
  destruct (entry_key e =? k)%string; simpl; [|now apply IH].
  constructor; [|now apply IH].
  rewrite in_map_iff. intros (e' & Hid & He').
  apply filter_In in He'. apply Hfresh.
  rewrite <- Hid. apply in_map. tauto.
Qed.

Lemma NoDup_map_inj {A B} (f : A -> B) (l : list A) (a b : A) :
  NoDup (map f l) -> In a l -> In b l -> f a = f b -> a = b.
Proof.
  induction l as [|x l IH]; simpl; [contradiction|].
  intros Hnd Ha Hb Hf. inversion Hnd as [|? ? Hnotin Hnd']; subst.
  destruct Ha as [->|Ha], Hb as [->|Hb]; auto.
  - exfalso. apply Hnotin. rewrite Hf. now apply in_map.
  - exfalso. apply Hnotin. rewrite <- Hf. now apply in_map.
Qed.

Lemma ids_with_In (k id : string) (l : list ApiKeyEntry) :
  In id (ids_with k l) <->
  exists e, In e l /\ entry_id e = id /\ entry_key e = k.
Proof.
  unfold ids_with. rewrite in_map_iff. split.
  - intros (e & <- & He). apply filter_In in He. destruct He as [He Hk].
    apply String.eqb_eq in Hk. now exists e.
  - intros (e & He & <- & <-). exists e. split; [reflexivity|].
    apply filter_In. split; [exact He|apply String.eqb_refl].
Qed.

(** The first ID of a reported group is not among the IDs that the
    cleaning deletes. *)
Lemma first_not_doomed (l : list ApiKeyEntry) (k first : string)
  (others : list string) :
  NoDup (map entry_id l) ->
  ids_with k l = first :: others ->
  ~ In first (doomed (duplicates_of (group_by_key l))).
Proof.
  intros Hnd Hids Hin. unfold doomed in Hin.
  apply in_flat_map in Hin. destruct Hin as (g & Hg & Hin).
  apply duplicates_of_In in Hg. destruct Hg as (k' & -> & _).
  simpl in Hin.
  assert (Hk : k' = k).
  { assert (H1 : In first (ids_with k l)) by (rewrite Hids; now left).
    assert (H2 : In first (ids_with k' l)).
    { destruct (ids_with k' l); [contradiction|now right]. }
    apply ids_with_In in H1. apply ids_with_In in H2.
    destruct H1 as (e1 & He1 & Hid1 & Hk1), H2 as (e2 & He2 & Hid2 & Hk2).
    assert (e1 = e2) by (eapply NoDup_map_inj; eauto; congruence).
    congruence. }
  subst k'. rewrite Hids in Hin. simpl in Hin.
  assert (Hnd' : NoDup (ids_with k l)) by now apply ids_with_NoDup.
  rewrite Hids in Hnd'. now inversion Hnd'.
Qed.

End Cleaning.

Lemma ids_with_first (k first : string) (others : list string)
  (l : list ApiKeyEntry) :
  ids_with k l = first :: others ->
  exists e,
    find (fun e => (entry_key e =? k)%string) l = Some e /\ entry_id e = first.
Proof.
  unfold ids_with. induction l as [|e l IH]; simpl; [discriminate|].
  destruct (entry_key e =? k)%string; simpl.
  - intros [= <- _]. now exists e.
  - exact IH.
Qed.

Lemma find_earliest (k : string) (l : list ApiKeyEntry) (e e' : ApiKeyEntry) :
  by_creation l ->
  find (fun e => (entry_key e =? k)%string) l = Some e ->
  In e' l -> entry_key e' = k ->
  entry_createdAt e <= entry_createdAt e'.
Proof.
  unfold by_creation. induction 1 as [|x l Hs IH Hall]; simpl; [discriminate|].
  destruct (entry_key x =? k)%string eqn:Hk.
  - intros [= <-] [<-|Hin] _; [lia|].
    rewrite Forall_forall in Hall. now apply Hall.
  - intros Hfind [<-|Hin] Hkey.
    + rewrite Hkey, String.eqb_refl in Hk. discriminate.
    + now apply IH.
Qed.

Example clean_triple :
  fst (handle_duplicates_clean triple) = Ok (Json 200 2%nat) /\
  map fst (kv (snd (handle_duplicates_clean triple))) = ["a"; "d"].
Proof. split; reflexivity. Qed.




(** C8: the code at an input on which it departs from the claim.  Three
    credentials [a], [b], [c] hold one secret; the delete of [b] throws.
    [POST /api/keys/duplicates/clean] then answers 500 and stops: it has
    made two KV operations (the listing and the failed delete), [c] is
    never tried and stays in the store.  On the same failure
    [POST /api/keys/batch-delete] goes on and deletes [c]. *)
Theorem clean_aborts_on_failure :
  fst (handle_duplicates_clean delete_fails)
  = Ok (ErrorJson 500 "KV operation failed") /\
  map fst (kv (snd (handle_duplicates_clean delete_fails)))
  = ["a"; "b"; "c"; "d"] /\
  faults (snd (handle_duplicates_clean delete_fails)) = [false] /\
  let w := world_of triple_store (always unauthorized) [true; false] in
  fst (handle_batch_delete ["b"; "c"] w)
  = Ok (Json 200 (mkBatchDeleted 1 2 ["b"])) /\
  map fst (kv (snd (handle_batch_delete ["b"; "c"] w))) = ["a"; "b"; "d"].
Proof. repeat split; reflexivity. Qed.

(* ------------------------------------------------------------------ *)
(** ** Batch import *)

Example import_scenario :
  fst (batchImportKeys [""; "  "; "sk-live-1"] (world_of [] scenario_remote []))
  = Ok (mkTally 1 0 0 []) /\
  List.length (kv (snd (batchImportKeys [""; "  "; "sk-live-1"]
                          (world_of [] scenario_remote [])))) = 1%nat.
Proof. split; reflexivity. Qed.

Example import_mixed :
  fst (batchImportKeys import_input import_world)
  = Ok (mkTally 2 0 2 ["sk-A...1111"; "sk-l...ve-1"]).
Proof. reflexivity. Qed.

Example import_with_failure :
  fst (batchImportKeys ["k-one"; "k-two"; "k-three"]
         (world_of [] scenario_remote [false; true; false; false]))
  = Ok (mkTally 2 1 0 []).
Proof. reflexivity. Qed.

(** An entry between two ideographic spaces (U+3000) is stored without
    them, and an entry made of such a space only is ignored. *)
Example import_wide_spaces :
  let wide := JS.bytes [227; 128; 128]%nat in
  let run := batchImportKeys [wide ++ "sk-live-1" ++ wide; wide]
                             (world_of [] scenario_remote []) in
  fst run = Ok (mkTally 1 0 0 []) /\
  secrets (kv (snd run)) = ["sk-live-1"].
Proof. split; reflexivity. Qed.

Section ImportLoop.

Lemma count_faults_after_kv_ok (w : World) (s : KV) :
  read_ok w = true -> count_faults (after_kv w s) = count_faults w.
Proof.
  unfold read_ok, count_faults, after_kv; simpl.
  destruct (faults w) as [|[|] fs]; simpl; try discriminate; reflexivity.
Qed.

Lemma count_faults_after_kv_throw (w : World) (s : KV) :
  read_ok w = false -> S (count_faults (after_kv w s)) = count_faults w.
Proof.
  unfold read_ok, count_faults, after_kv; simpl.
  destruct (faults w) as [|[|] fs]; simpl; try discriminate; reflexivity.
Qed.

Lemma count_faults_add_lines (w : World) (l : list string) :
  count_faults (add_lines w l) = count_faults w.
Proof. reflexivity. Qed.

Lemma count_faults_after_now (w : World) :
  count_faults (after_now w) = count_faults w.
Proof. unfold count_faults. now rewrite after_now_faults. Qed.

Lemma existsb_key (key : string) (l : list ApiKeyEntry) :
  existsb (fun entry => (entry_key entry =? key)%string) l = true <->
  exists e, In e l /\ entry_key e = key.
Proof.
  rewrite existsb_exists. split; intros (e & He & Hk); exists e;
    (split; [exact He|]); now apply String.eqb_eq.
Qed.

Lemma kv_set_length (k : string) (v : ApiKeyEntry) (s : KV) :
  (List.length (kv_set k v s) <= S (List.length s))%nat.
Proof.
  induction s as [|[k' v'] s IH]; simpl; [lia|].
  destruct (String.compare k k'); simpl; lia.
Qed.

Lemma checkDuplicateKey_run (key : string) (w : World) :
  checkDuplicateKey key w
  = if read_ok w
    then (Ok (existsb (fun entry => (entry_key entry =? key)%string)
                      (map snd (kv w))),
          after_kv w (kv w))
    else (Throw "KV operation failed", after_kv w (kv w)).
Proof.
  unfold checkDuplicateKey, getAllApiKeys.
  destruct (read_ok w) eqn:Hread.
  - erewrite bind_ok by (apply kv_op_run; exact Hread). reflexivity.
  - erewrite bind_throw by (apply kv_op_throws; exact Hread). reflexivity.
Qed.

Lemma saveApiKey_run (id key : string) (w : World) :
  let w1 := after_now w in
  let entry := mkEntry id key (Some ("Key " ++ id)) None (now w1) in
  saveApiKey id key None w
  = if read_ok w1
    then (Ok tt, after_kv w1 (kv_set id entry (kv w1)))
    else (Throw "KV operation failed", after_kv w1 (kv w1)).
Proof.
  intros w1 entry. unfold saveApiKey.
  erewrite bind_ok by apply date_now_run. fold w1. simpl JS.truthy. cbv iota.
  fold entry. destruct (read_ok w1) eqn:Hw.
  - now rewrite kv_op_run.
  - now rewrite kv_op_throws.
Qed.

(** One turn of the loop on a non-blank entry: it does not throw, and it
    is a duplicate skip, a save or a failure. *)
Lemma import_turn (i : nat) (key : string) (t : Tally) (w : World) :
  exists t1 w1,
    try_catch (import_one i key t) (import_failed i t) w = (Ok t1, w1) /\
    (failed t1 + count_faults w1 = failed t + count_faults w)%nat /\
    ((t1 = mkTally (success t) (failed t) (S (duplicates t))
                   (duplicateKeys t ++ [maskedKey key])
      /\ kv w1 = kv w
      /\ exists e, In e (map snd (kv w)) /\ entry_key e = key)
     \/
     (exists id e,
         t1 = mkTally (S (success t)) (failed t) (duplicates t)
                      (duplicateKeys t)
         /\ kv w1 = kv_set id e (kv w)
         /\ entry_id e = id /\ entry_key e = key
         /\ forall e', In e' (map snd (kv w)) -> entry_key e' <> key)
     \/
     (t1 = mkTally (success t) (S (failed t)) (duplicates t)
                   (duplicateKeys t)
      /\ kv w1 = kv w)).
Proof.
  unfold import_one, import_failed.
  pose proof (checkDuplicateKey_run key w) as Hcheck.
  destruct (read_ok w) eqn:Hread.
  - destruct (existsb _ (map snd (kv w))) eqn:Hex.
    + (* duplicate *)
      eexists _, _. split.
      { apply try_ok. erewrite bind_ok by exact Hcheck. cbv iota.
        erewrite bind_ok by apply console_log_run. reflexivity. }
      split.
      * cbn [failed]. rewrite count_faults_add_lines.
        now rewrite count_faults_after_kv_ok.
      * left. split; [reflexivity|]. split; [reflexivity|].
        now apply existsb_key.
    + (* not in the store: stamp, then save *)
      assert (Hfresh : forall e', In e' (map snd (kv w)) ->
                                  entry_key e' <> key).
      { intros e' He' Hk. assert (existsb (fun entry =>
          (entry_key entry =? key)%string) (map snd (kv w)) = true)
          by (apply existsb_key; now exists e'). congruence. }
      set (w2 := after_now (after_kv w (kv w))).
      set (id := ("key-" ++ JS.of_Z (now w2) ++ "-" ++ JS.of_Z (Z.of_nat i))%string).
      pose proof (saveApiKey_run id key w2) as Hsave. cbv zeta in Hsave.
      destruct (read_ok (after_now w2)) eqn:Hwrite.
      * eexists _, _. split.
        { apply try_ok. erewrite bind_ok by exact Hcheck. cbv iota.
          erewrite bind_ok by apply date_now_run. fold w2. fold id.
          erewrite bind_ok by exact Hsave. reflexivity. }
        split.
        -- cbn [failed]. rewrite count_faults_after_kv_ok by exact Hwrite.
           unfold w2. rewrite !count_faults_after_now.
           now rewrite count_faults_after_kv_ok.
        -- right. left. eexists _, _. split; [reflexivity|].
           split.
           { simpl kv. unfold w2. rewrite !after_now_kv. reflexivity. }
           split; [reflexivity|split; [reflexivity|exact Hfresh]].
      * eexists _, _. split.
        { erewrite try_throw.
          2:{ erewrite bind_ok by exact Hcheck. cbv iota.
              erewrite bind_ok by apply date_now_run. fold w2. fold id.
              erewrite bind_throw by exact Hsave. reflexivity. }
          erewrite bind_ok by apply console_log_run. reflexivity. }
        split.
        -- cbn [failed]. rewrite count_faults_add_lines.
           pose proof (count_faults_after_kv_throw (after_now w2)
                         (kv (after_now w2)) Hwrite) as H.
           unfold w2 in H at 3. rewrite !count_faults_after_now in H.
           rewrite (count_faults_after_kv_ok w (kv w) Hread) in H. lia.
        -- right. right. split; [reflexivity|].
           simpl kv. unfold w2. rewrite !after_now_kv. reflexivity.
  - (* the listing of the store throws *)
    eexists _, _. split.
    { erewrite try_throw by (erewrite bind_throw by exact Hcheck; reflexivity).
      erewrite bind_ok by apply console_log_run. reflexivity. }
    split.
    + cbn [failed]. rewrite count_faults_add_lines.
      pose proof (count_faults_after_kv_throw w (kv w) Hread). lia.
    + right. right. split; reflexivity.
Qed.

Lemma non_empty_length (s : string) :
  (0 <? JS.length s) = negb (s =? "")%string.
Proof. destruct s; reflexivity. Qed.

(** The loop does not throw and follows the specification entry by
    entry; every entry counted as failed used up one fault. *)
Lemma import_from_run (keys : list string) :
  forall (i : nat) (t0 : Tally) (w : World),
  exists t w',
    import_from i keys t0 w = (Ok t, w') /\
    import_spec keys (kv w, t0) (kv w', t) /\
    (failed t + count_faults w' = failed t0 + count_faults w)%nat.
Proof.
  induction keys as [|raw rest IH]; intros i t0 w; simpl.
  - exists t0, w. split; [reflexivity|]. split; [constructor|reflexivity].
  - rewrite non_empty_length.
    destruct (JS.trim raw =? "")%string eqn:Hblank; simpl.
    + apply String.eqb_eq, trim_blank in Hblank.
      destruct (IH (S i) t0 w) as (t & w' & Hrun & Hspec & Hf).
      exists t, w'. split; [exact Hrun|]. split; [|exact Hf].
      now apply import_blank.
    + apply String.eqb_neq in Hblank.
      assert (Hnot : ~ blank raw) by (intros Hb; now apply trim_blank in Hb).
      pose proof (trim_trimmed raw) as Htrim.
      destruct (import_turn i (JS.trim raw) t0 w)
        as (t1 & w1 & Hturn & Hf1 & Hcase).
      destruct (IH (S i) t1 w1) as (t & w' & Hrun & Hspec & Hf).
      exists t, w'. split; [|split; [|lia]].
      * erewrite bind_ok by exact Hturn. exact Hrun.
      * destruct Hcase as [(-> & Hkv & He)
                          |[(id & e & -> & Hkv & Hid & Hkey & Hfresh)
                           |(-> & Hkv)]];
          rewrite Hkv in Hspec.
        -- eapply import_duplicate; eauto. now rewrite <- maskedKey_spec.
        -- eapply import_saved; eauto.
        -- now apply import_failure.
Qed.

(** What the specification of the import implies for the counts and for
    the size of the store. *)
Lemma import_spec_counts (keys : list string) (st st' : KV * Tally) :
  import_spec keys st st' ->
  exists n,
    count_non_blank keys n /\
    (success (snd st') + failed (snd st') + duplicates (snd st')
     = success (snd st) + failed (snd st) + duplicates (snd st) + n)%nat /\
    (List.length (duplicateKeys (snd st')) + duplicates (snd st)
     = List.length (duplicateKeys (snd st)) + duplicates (snd st'))%nat /\
    (List.length (fst st') + success (snd st)
     <= List.length (fst st) + success (snd st'))%nat.
Proof.
  induction 1 as [st|raw rest s t final Hb _ (n & Hn & IH)
                  |raw key rest s t final Hb Hk He _ (n & Hn & IH)
                  |raw key rest s t id e final Hb Hk Hfresh Hid Hkey _
                     (n & Hn & IH)
                  |raw rest s t final Hb _ (n & Hn & IH)]; simpl in *.
  - exists 0%nat. split; [constructor|lia].
  - exists n. split; [now constructor|exact IH].
  - exists (S n). split; [now constructor|].
    rewrite length_app in IH. simpl in IH. lia.
  - exists (S n). split; [now constructor|].
    pose proof (kv_set_length id e s). lia.
  - exists (S n). split; [now constructor|lia].
Qed.

End ImportLoop.

(** C5: for every input list, [batchImportKeys] returns a tally (it never
    throws) that follows the specification entry by entry: a blank or
    whitespace-only entry is ignored; an entry whose trimmed secret is in
    the store adds one to [duplicates], records its masked form and leaves
    the store as it is; another entry is persisted and adds one to
    [success], or adds one to [failed] when the store throws, and the
    import goes on with the next entry.  Hence the three counts add up to
    the number of entries that are not blank, [failed] is at most the number
    of KV operations that throw, one masked form is recorded per duplicate,
    and the store grows by at most [success] credentials. *)
Theorem batch_import_tally :
  forall (keys : list string) (w : World),
  exists t w' n,
    batchImportKeys keys w = (Ok t, w') /\
    import_spec keys (kv w, mkTally 0 0 0 []) (kv w', t) /\
    (failed t <= count_faults w)%nat /\
    count_non_blank keys n /\
    (success t + failed t + duplicates t = n)%nat /\
    List.length (duplicateKeys t) = duplicates t /\
    (List.length (kv w') <= List.length (kv w) + success t)%nat.
Proof.
  intros keys w. unfold batchImportKeys.
  destruct (import_from_run keys 0 (mkTally 0 0 0 []) w)
    as (t & w' & Hrun & Hspec & Hf).
  destruct (import_spec_counts _ _ _ Hspec) as (n & Hn & H1 & H2 & H3).
  exists t, w', n. split; [exact Hrun|]. split; [exact Hspec|].
  simpl in *. repeat split; try assumption; lia.
Qed.

(* ------------------------------------------------------------------ *)
(** ** Batches and calls in flight *)

Section Batches.

Context {A : Type}.

Lemma slice_length (i : nat) (keys : list A) :
  (List.length (slice i (i + concurrency) keys) <= concurrency)%nat.
Proof.
  unfold slice. rewrite length_firstn. lia.
Qed.

Lemma slice_skipn (i : nat) (keys : list A) :
  (slice i (i + concurrency) keys ++ skipn (i + concurrency) keys)%list
  = skipn i keys.
Proof.
  unfold slice.
  replace (i + concurrency - i)%nat with concurrency by lia.
  replace (i + concurrency)%nat with (concurrency + i)%nat by lia.
  rewrite <- skipn_skipn. apply firstn_skipn.
Qed.

Lemma batches_from_concat (keys : list A) (fuel i : nat) :
  (List.length keys - i <= fuel)%nat ->
  List.concat (batches_from fuel i keys) = skipn i keys.
Proof.
  revert i. induction fuel as [|fuel IH]; intros i Hfuel; simpl.
  - symmetry. apply skipn_all2. lia.
  - destruct (i <? List.length keys)%nat eqn:Hi.
    + apply Nat.ltb_lt in Hi. simpl. rewrite IH.
      * apply slice_skipn.
      * unfold concurrency. lia.
    + apply Nat.ltb_ge in Hi. symmetry. now apply skipn_all2.
Qed.

Lemma batches_from_bounded (keys : list A) (fuel i : nat) :
  Forall (fun batch => (List.length batch <= concurrency)%nat)
         (batches_from fuel i keys).
Proof.
  revert i. induction fuel as [|fuel IH]; intros i; simpl; [constructor|].
  destruct (i <? List.length keys)%nat; constructor.
  - apply slice_length.
  - apply IH.
Qed.

Lemma batches_from_full (keys : list A) (fuel i : nat)
  (front : list (list A)) (batch : list A) (back : list (list A)) :
  batches_from fuel i keys = (front ++ batch :: back)%list ->
  back <> [] ->
  List.length batch = concurrency.
Proof.
  revert i front. induction fuel as [|fuel IH]; intros i front; simpl.
  - destruct front; discriminate.
  - destruct (i <? List.length keys)%nat eqn:Hi; [|destruct front; discriminate].
    destruct front as [|b0 front]; simpl.
    + intros [= <- <-] Hback.
      assert (Hnext : (i + concurrency < List.length keys)%nat).
      { destruct fuel as [|fuel']; simpl in Hback; [congruence|].
        destruct (i + concurrency <? List.length keys)%nat eqn:Hn;
          [now apply Nat.ltb_lt|congruence]. }
      unfold slice. rewrite length_firstn, length_skipn. lia.
    + intros [= _ Hrest] Hback. exact (IH _ front Hrest Hback).
Qed.

(** The loop visits every key once, in order, at most 5 per batch. *)
Lemma batches_cover (keys : list A) :
  List.concat (batches keys) = keys /\
  Forall (fun batch => (List.length batch <= concurrency)%nat) (batches keys).
Proof.
  unfold batches. split.
  - rewrite batches_from_concat by lia. reflexivity.
  - apply batches_from_bounded.
Qed.

End Batches.

Module FlightFacts.
Import Flight.

Lemma in_flight_app (a b : list event) :
  in_flight (a ++ b) = in_flight a + in_flight b.
Proof.
  induction a as [|[id|id|ids] a IH]; simpl; lia.
Qed.

Lemma in_flight_dispatches (ids : list string) :
  in_flight (map Dispatch ids) = Z.of_nat (List.length ids).
Proof. induction ids; simpl; lia. Qed.

Lemma in_flight_resolves (ids : list string) :
  in_flight (map Resolve ids) = - Z.of_nat (List.length ids).
Proof. induction ids; simpl; lia. Qed.

(** A prefix of the dispatches of a batch. *)
Lemma dispatch_prefix (ids : list string) (p s : list event) :
  map Dispatch ids = (p ++ s)%list ->
  0 <= in_flight p <= Z.of_nat (List.length ids).
Proof.
  revert p. induction ids as [|id ids IH]; intros p H; simpl in *.
  - symmetry in H. apply app_eq_nil in H. destruct H as [-> _]. simpl. lia.
  - destruct p as [|e p]; simpl in *; [lia|].
    injection H as <- H. specialize (IH p H). lia.
Qed.

(** A prefix of the resolutions of a batch. *)
Lemma resolve_prefix (ids : list string) (p s : list event) :
  map Resolve ids = (p ++ s)%list ->
  - Z.of_nat (List.length ids) <= in_flight p <= 0.
Proof.
  revert p. induction ids as [|id ids IH]; intros p H; simpl in *.
  - symmetry in H. apply app_eq_nil in H. destruct H as [-> _]. simpl. lia.
  - destruct p as [|e p]; simpl in *; [lia|].
    injection H as <- H. specialize (IH p H). lia.
Qed.

Lemma no_publish_in_calls (batch order : list string) (ids : list string) :
  ~ In (Publish ids) (map Dispatch batch ++ map Resolve order).
Proof.
  intros H. apply in_app_or in H.
  destruct H as [H|H]; apply in_map_iff in H; destruct H as (x & Hx & _);
    discriminate.
Qed.

(** Between the start of a batch and its publication, the calls in flight
    are between 0 and the size of the batch. *)
Lemma calls_prefix (batch order : list string) (p s : list event) :
  List.length order = List.length batch ->
  (map Dispatch batch ++ map Resolve order)%list = (p ++ s)%list ->
  0 <= in_flight p <= Z.of_nat (List.length batch).
Proof.
  intros Hlen H. symmetry in H. apply app_eq_app in H.
  destruct H as (l & [[-> Hs]|[Hd ->]]).
  - rewrite in_flight_app, in_flight_dispatches.
    apply resolve_prefix in Hs. lia.
  - now apply dispatch_prefix in Hd.
Qed.

Lemma in_flight_calls (batch order : list string) :
  List.length order = List.length batch ->
  in_flight (map Dispatch batch ++ map Resolve order) = 0.
Proof.
  intros H. rewrite in_flight_app, in_flight_dispatches, in_flight_resolves.
  lia.
Qed.

(** At most [n] calls are in flight when no batch has more than [n]. *)
Lemma runs_bounded (n : nat) (plan : list (list string)) (t : list event) :
  runs plan t ->
  Forall (fun batch => (List.length batch <= n)%nat) plan ->
  forall p s, t = (p ++ s)%list -> 0 <= in_flight p <= Z.of_nat n.
Proof.
  induction 1 as [|batch order rest t Hperm Hruns IH]; intros Hall p s Hsplit.
  - symmetry in Hsplit. apply app_eq_nil in Hsplit.
    destruct Hsplit as [-> _]. simpl. lia.
  - inversion Hall as [|? ? Hb Hrest]; subst.
    pose proof (Permutation_length Hperm) as Hlen.
    rewrite app_assoc in Hsplit. symmetry in Hsplit.
    apply app_eq_app in Hsplit.
    destruct Hsplit as (l & [[-> Hs]|[Hc Hs]]).
    + rewrite in_flight_app, (in_flight_calls _ _ Hlen).
      destruct l as [|e l]; simpl in *; [lia|].
      injection Hs as <- Hs. simpl. apply (IH Hrest l s Hs).
    + apply (calls_prefix batch order p l Hlen) in Hc. lia.
Qed.

(** When the results of a batch become visible, no call is in flight and
    every call of the batch has resolved. *)
Lemma runs_publish (plan : list (list string)) (t : list event) :
  runs plan t ->
  forall p ids s,
    t = (p ++ Publish ids :: s)%list ->
    in_flight p = 0 /\ In ids plan /\
    forall id, In id ids -> In (Resolve id) p.
Proof.
  induction 1 as [|batch order rest t Hperm Hruns IH]; intros p ids s Hsplit.
  - destruct p; discriminate.
  - pose proof (Permutation_length Hperm) as Hlen.
    rewrite app_assoc in Hsplit. symmetry in Hsplit.
    apply app_eq_app in Hsplit.
    destruct Hsplit as (l & [[-> Hs]|[Hc Hs]]).
    + destruct l as [|e l]; simpl in Hs.
      * injection Hs as <- _. rewrite app_nil_r.
        split; [now apply in_flight_calls|]. split; [now left|].
        intros id Hid. apply in_or_app. right. apply in_map.
        apply (Permutation_in id (Permutation_sym Hperm) Hid).
      * injection Hs as <- Hs.
        destruct (IH l ids s Hs) as (H0 & Hin & Hres).
        split; [|split; [now right|]].
        -- rewrite in_flight_app, (in_flight_calls _ _ Hlen). simpl. lia.
        -- intros id Hid. apply in_or_app. right. right. now apply Hres.
    + destruct l as [|e l]; simpl in Hs.
      * injection Hs as -> _.
        rewrite app_nil_r in Hc. subst p.
        split; [now apply in_flight_calls|]. split; [now left|].
        intros id Hid. apply in_or_app. right. apply in_map.
        apply (Permutation_in id (Permutation_sym Hperm) Hid).
      * injection Hs as <- _. exfalso.
        apply (no_publish_in_calls batch order ids).
        rewrite Hc. apply in_or_app. right. now left.
Qed.

(** Every plan has a trace: the calls may resolve in the order of their
    dispatch. *)
Lemma runs_exists (plan : list (list string)) : exists t, runs plan t.
Proof.
  induction plan as [|batch rest [t Ht]].
  - exists []. constructor.
  - eexists. apply (runs_batch batch batch rest t); [reflexivity|exact Ht].
Qed.

End FlightFacts.

(* ------------------------------------------------------------------ *)
(** ** The progressive loader *)

Section Loader.

Lemma try_catch_total {A} (m : M A) (h : string -> M A) (w : World) :
  (forall e w1, exists a w', h e w1 = (Ok a, w')) ->
  exists a w', try_catch m h w = (Ok a, w').
Proof.
  intros Hh. unfold try_catch. destruct (m w) as [[a|e] w1]; eauto.
Qed.

Lemma handle_usage_total (id : string) (w : World) :
  exists reply w', handle_usage id w = (Ok reply, w').
Proof.
  unfold handle_usage. apply try_catch_total. intros e w1. unfold ret. eauto.
Qed.

Lemma load_body_id (keyEntry : SafeKey) (w w' : World) (r : Row) :
  load_body keyEntry w = (Ok r, w') -> row_id r = safe_id keyEntry.
Proof.
  unfold load_body, bind, get_usage, ret, throw, row_failure.
  destruct (handle_usage (safe_id keyEntry) w) as [[reply|e] w1];
    [|discriminate].
  destruct (negb (status_ok (reply_status reply))); [now intros [= <- _]|].
  destruct reply as [status [|[u|]]|status e]; try discriminate;
    try (now intros [= <- _]).
  destruct (usage_standard u); now intros [= <- _].
Qed.

(** A call of the loader never throws, and reports on its key. *)
Lemma load_one_run (keyEntry : SafeKey) (w : World) :
  exists r w', load_one keyEntry w = (Ok r, w') /\ row_id r = safe_id keyEntry.
Proof.
  unfold load_one, try_catch.
  destruct (load_body keyEntry w) as [[r|e] w1] eqn:Hbody.
  - exists r, w1. split; [reflexivity|]. exact (load_body_id _ _ _ _ Hbody).
  - eexists _, _. split; reflexivity.
Qed.

Lemma load_batch_run (batch : list SafeKey) (w : World) :
  exists rows w',
    promise_all load_one batch w = (Ok rows, w') /\
    map row_id rows = map safe_id batch.
Proof.
  revert w. induction batch as [|k batch IH]; intros w; simpl.
  - exists [], w. split; reflexivity.
  - destruct (load_one_run k w) as (r & w1 & Hr & Hid).
    destruct (IH w1) as (rows & w' & Hrows & Hids).
    exists (r :: rows), w'. split.
    + erewrite bind_ok by exact Hr. erewrite bind_ok by exact Hrows.
      reflexivity.
    + simpl. congruence.
Qed.

Lemma load_loop_run (bs : list (list SafeKey)) :
  forall (b : Browser) (results : list Row) (w : World),
  exists b' results' w',
    load_loop bs b results w = (Ok (b', results'), w') /\
    map row_id results'
    = (map row_id results ++ map safe_id (List.concat bs))%list /\
    List.length (screen b') = (List.length (screen b) + List.length bs)%nat.
Proof.
  induction bs as [|batch rest IH]; intros b results w; simpl.
  - exists b, results, w. rewrite app_nil_r, Nat.add_0_r. now repeat split.
  - destruct (load_batch_run batch w) as (rows & w1 & Hrows & Hids).
    erewrite bind_ok by exact Hrows.
    match goal with
    | |- context [load_loop rest ?b1 ?r1 w1] =>
        destruct (IH b1 r1 w1) as (b' & results' & w' & Hrun & Hres & Hscreen)
    end.
    exists b', results', w'. split; [exact Hrun|]. split.
    + rewrite Hres, !map_app, Hids, <- app_assoc. reflexivity.
    + rewrite Hscreen. unfold displayData; simpl. rewrite length_app. simpl. lia.
Qed.

(** [loadUsageDataProgressively] returns one row per key, in order, and
    renders the page once per batch. *)
Lemma loader_run (keys : list SafeKey) (b : Browser) (w : World) :
  exists b' results w',
    loadUsageDataProgressively keys b w = (Ok (b', results), w') /\
    map row_id results = map safe_id keys /\
    List.length (screen b')
    = (List.length (screen b) + List.length (batches keys))%nat.
Proof.
  unfold loadUsageDataProgressively.
  destruct (load_loop_run (batches keys) b [] w)
    as (b' & results & w' & Hrun & Hres & Hscreen).
  exists b', results, w'. split; [exact Hrun|]. split; [|exact Hscreen].
  rewrite Hres. simpl. now rewrite (proj1 (batches_cover keys)).
Qed.

End Loader.

(** C3, as stated, fails: [getAggregatedData] over six credentials has six
    calls in flight once they are dispatched. *)
Lemma flight_counterexample :
  Flight.runs (Flight.plan_getAggregatedData six_entries) six_trace /\
  exists p s,
    six_trace = (p ++ s)%list /\
    Flight.in_flight p = 6 /\
    5 < Flight.in_flight p.
Proof.
  split.
  - apply (Flight.runs_batch _ _ [] []); [reflexivity|constructor].
  - exists (map Flight.Dispatch (map entry_id six_entries)).
    eexists. split; [reflexivity|]. split; [reflexivity|reflexivity].
Qed.

(** C3, amended: in the progressive loading of the dashboard
    ([loadUsageDataProgressively]) the keys are processed in order, in
    batches of 5 (the last one may be smaller); never more than 5 calls are
    in flight; and when the
    results of a batch become visible, every call of that batch has
    resolved and none is in flight.  The server-side aggregation
    ([getAggregatedData]) dispatches one call per stored credential at
    once, so that as many calls as there are credentials are in flight; its
    results too become visible only when every call has resolved. *)
Theorem flight_bound :
  forall (keys : list SafeKey) (keyEntries : list ApiKeyEntry),
    List.concat (batches keys) = keys /\
    (forall front batch back,
        batches keys = (front ++ batch :: back)%list ->
        (List.length batch <= 5)%nat /\
        (back <> [] -> List.length batch = 5%nat)) /\
    (exists t, Flight.runs (Flight.plan_loadUsageDataProgressively keys) t) /\
    (forall t,
        Flight.runs (Flight.plan_loadUsageDataProgressively keys) t ->
        (forall p s, t = (p ++ s)%list -> 0 <= Flight.in_flight p <= 5) /\
        (forall p ids s,
            t = (p ++ Flight.Publish ids :: s)%list ->
            Flight.in_flight p = 0 /\
            (List.length ids <= 5)%nat /\
            forall id, In id ids -> In (Flight.Resolve id) p)) /\
    (exists t, Flight.runs (Flight.plan_getAggregatedData keyEntries) t) /\
    (forall t,
        Flight.runs (Flight.plan_getAggregatedData keyEntries) t ->
        (exists p s,
            t = (p ++ s)%list /\
            Flight.in_flight p = Z.of_nat (List.length keyEntries)) /\
        (forall p ids s,
            t = (p ++ Flight.Publish ids :: s)%list ->
            Flight.in_flight p = 0 /\
            ids = map entry_id keyEntries /\
            forall id, In id ids -> In (Flight.Resolve id) p)).
Proof.
  intros keys keyEntries.
  assert (Hsizes : Forall (fun batch => (List.length batch <= 5)%nat)
                     (Flight.plan_loadUsageDataProgressively keys)).
  { unfold Flight.plan_loadUsageDataProgressively.
    apply Forall_map.
    eapply Forall_impl; [|exact (proj2 (batches_cover keys))].
    intros batch Hb. now rewrite length_map. }
  split; [exact (proj1 (batches_cover keys))|].
  split.
  { intros front batch back Hsplit. split.
    - pose proof (proj2 (batches_cover keys)) as Hall.
      rewrite Hsplit in Hall. apply Forall_app in Hall.
      destruct Hall as [_ Hall]. now inversion Hall.
    - intros Hback.
      exact (batches_from_full keys _ 0 front batch back Hsplit Hback). }
  split; [apply FlightFacts.runs_exists|]. split.
  - intros t Hruns. split.
    + intros p s Hsplit.
      exact (FlightFacts.runs_bounded 5 _ t Hruns Hsizes p s Hsplit).
    + intros p ids s Hsplit.
      destruct (FlightFacts.runs_publish _ t Hruns p ids s Hsplit)
        as (H0 & Hin & Hres).
      split; [exact H0|]. split; [|exact Hres].
      rewrite Forall_forall in Hsizes. now apply Hsizes.
  - split; [apply FlightFacts.runs_exists|].
    intros t Hruns. split.
    + unfold Flight.plan_getAggregatedData in Hruns.
      destruct keyEntries as [|e l].
      * exists [], t. split; reflexivity.
      * change (Flight.runs [map entry_id (e :: l)] t) in Hruns.
        inversion Hruns as [|batch order rest t' Hperm Hrest]; subst.
        exists (map Flight.Dispatch (map entry_id (e :: l))).
        eexists. split; [reflexivity|].
        rewrite FlightFacts.in_flight_dispatches, length_map. reflexivity.
    + intros p ids s Hsplit.
      destruct (FlightFacts.runs_publish _ t Hruns p ids s Hsplit)
        as (H0 & Hin & Hres).
      split; [exact H0|]. split; [|exact Hres].
      unfold Flight.plan_getAggregatedData in Hin.
      destruct (List.length keyEntries =? 0)%nat; [contradiction|].
      destruct Hin as [<-|[]]. reflexivity.
Qed.

(* ------------------------------------------------------------------ *)
(** ** Cleanup of invalid and exhausted credentials *)

Example scenario_cleanup_from_dashboard :
  fst (clearInvalidKeysFromModal (Some scenario_view) true scenario)
  = Ok (Some (Json 200 (mkBatchDeleted 2 2 []))) /\
  map fst (kv (snd (clearInvalidKeysFromModal (Some scenario_view) true scenario)))
  = ["A"].
Proof. split; reflexivity. Qed.

Section Cleanup.

Lemma delete_one_run (id : string) (w : World) :
  read_ok w = true ->
  delete_one id w = (Ok (id, true), after_kv w (kv_delete id (kv w))).
Proof.
  intros H. unfold delete_one. apply try_ok.
  erewrite bind_ok by (apply deleteApiKey_run; exact H). reflexivity.
Qed.

Lemma delete_promises_run (ids : list string) (w : World) :
  calm w ->
  exists w',
    promise_all delete_one ids w = (Ok (map (fun id => (id, true)) ids), w') /\
    kv w' = delete_all ids (kv w) /\
    calm w'.
Proof.
  revert w. induction ids as [|id ids IH]; intros w Hcalm; simpl.
  - exists w. rewrite delete_all_nil. now repeat split.
  - destruct (IH _ (calm_after_kv w (kv_delete id (kv w)) Hcalm))
      as (w' & Hrun & Hkv & Hc).
    exists w'. split; [|split; [|exact Hc]].
    + erewrite bind_ok by (apply delete_one_run; now apply calm_read_ok).
      erewrite bind_ok by exact Hrun. reflexivity.
    + rewrite Hkv. simpl. apply delete_all_cons.
Qed.

Lemma all_deleted (ids : list string) :
  List.length (filter snd (map (fun id : string => (id, true)) ids))
  = List.length ids /\
  map fst (filter (fun r : string * bool => negb (snd r))
                  (map (fun id : string => (id, true)) ids)) = [].
Proof.
  induction ids as [|id ids [IH1 IH2]]; simpl; [auto|].
  split; [now rewrite IH1|exact IH2].
Qed.

(** On a store whose operations succeed, the batch delete removes every ID
    it is given and reports no failure. *)
Lemma batch_delete_run (ids : list string) (w : World) :
  calm w ->
  exists w',
    handle_batch_delete ids w
    = (Ok (Json 200 (mkBatchDeleted (List.length ids) (List.length ids) [])),
       w') /\
    kv w' = delete_all ids (kv w).
Proof.
  intros Hcalm.
  destruct (delete_promises_run ids w Hcalm) as (w' & Hrun & Hkv & _).
  exists w'. split; [|exact Hkv].
  unfold handle_batch_delete. apply try_ok.
  erewrite bind_ok by exact Hrun.
  destruct (all_deleted ids) as [-> ->]. reflexivity.
Qed.

(** The balance check of one key only prints, and selects the key when it
    is exhausted. *)
Lemma check_balance_run (e : ApiKeyEntry) (selected : list string) (w : World) :
  exists lines,
    check_balance e selected w
    = (Ok (if exhausted (remote w) e
           then (selected ++ [entry_id e])%list else selected),
       add_lines w lines).
Proof.
  unfold check_balance, exhausted, try_catch, bind, fetch_usage, lift_result,
    get_usage, ret, throw.
  destruct (remote w (entry_key e)) as [m|r].
  - eexists [_]. reflexivity.
  - destruct (resp_ok r); simpl.
    + destruct (resp_json r) as [[|[u|]]|m]; simpl;
        try (eexists [_]; reflexivity);
        try (exists []; now rewrite add_lines_nil).
      destruct (usage_standard u) as [st|]; simpl;
        [|exists []; now rewrite add_lines_nil].
      destruct (JS.le_zero _); exists []; now rewrite add_lines_nil.
    + exists []. now rewrite add_lines_nil.
Qed.

Lemma check_balances_run (l : list ApiKeyEntry) (selected : list string)
  (w : World) :
  exists lines,
    check_balances l selected w
    = (Ok (selected ++ map entry_id (filter (exhausted (remote w)) l))%list,
       add_lines w lines).
Proof.
  revert selected w. induction l as [|e l IH]; intros selected w; simpl.
  - exists []. now rewrite add_lines_nil, app_nil_r.
  - destruct (check_balance_run e selected w) as (l1 & H1).
    erewrite bind_ok by exact H1.
    destruct (IH (if exhausted (remote w) e
                  then (selected ++ [entry_id e])%list else selected)
                 (add_lines w l1)) as (l2 & H2).
    exists (l1 ++ l2)%list. rewrite H2, add_lines_app. simpl remote.
    destruct (exhausted (remote w) e); simpl; [|reflexivity].
    now rewrite <- app_assoc.
Qed.

Lemma delete_identified_run (ids : list string) (n : nat) (w : World) :
  calm w ->
  exists w',
    delete_identified ids n w = (Ok (n + List.length ids)%nat, w') /\
    kv w' = delete_all ids (kv w).
Proof.
  revert n w. induction ids as [|id ids IH]; intros n w Hcalm; simpl.
  - exists w. now rewrite delete_all_nil, Nat.add_0_r.
  - destruct (IH (S n) _ (calm_after_kv w (kv_delete id (kv w)) Hcalm))
      as (w' & Hrun & Hkv).
    exists w'. split.
    + erewrite bind_ok.
      2:{ apply try_ok.
          erewrite bind_ok
            by (apply deleteApiKey_run; now apply calm_read_ok).
          reflexivity. }
      rewrite Hrun. f_equal. f_equal. lia.
    + rewrite Hkv. simpl. apply delete_all_cons.
Qed.

(** Deleting the IDs of the entries that [sel] selects leaves the pairs
    whose entry it does not select. *)
Lemma delete_selected (sel : ApiKeyEntry -> bool) (s : KV) :
  store_ok s ->
  delete_all (map entry_id (filter sel (map snd s))) s
  = filter (fun p => negb (sel (snd p))) s.
Proof.
  intros Hok. unfold delete_all. apply filter_ext_in. intros p Hp. f_equal.
  pose proof (store_ok_ids s Hok) as Hids. destruct Hok as [Hnd Hid].
  rewrite Forall_forall in Hid.
  destruct (sel (snd p)) eqn:Hsel.
  - apply existsb_exists. exists (fst p). split; [|apply String.eqb_refl].
    apply in_map_iff. exists (snd p). split; [now apply Hid|].
    apply filter_In. split; [now apply in_map|exact Hsel].
  - destruct (existsb _ _) eqn:Hex; [|reflexivity].
    apply existsb_exists in Hex. destruct Hex as (id & Hin & Heq).
    apply String.eqb_eq in Heq. subst id.
    apply in_map_iff in Hin. destruct Hin as (e & He & Hin).
    apply filter_In in Hin. destruct Hin as [Hin He'].
    apply in_map_iff in Hin. destruct Hin as (q & <- & Hq).
    assert (q = p); [|subst q; congruence].
    apply (NoDup_map_inj fst s q p Hnd Hq Hp).
    rewrite <- (Hid q Hq). exact He.
Qed.

End Cleanup.

Section Targets.

Lemma truthy_tagged (error : option string) :
  JS.truthy error = true <-> exists m, error = Some m /\ m <> "".
Proof.
  destruct error as [m|]; unfold JS.truthy; split.
  - intros H. exists m. split; [reflexivity|].
    intros ->. discriminate.
  - intros (m' & [= <-] & Hm). apply String.eqb_neq in Hm. now rewrite Hm.
  - discriminate.
  - intros (m' & Hm & _). discriminate.
Qed.

Lemma falsy_untagged (error : option string) :
  JS.truthy error = false <-> error = None \/ error = Some "".
Proof.
  destruct error as [m|]; unfold JS.truthy; split.
  - intros H. right. apply negb_false_iff, String.eqb_eq in H. now subst.
  - intros [H|[= ->]]; [discriminate|reflexivity].
  - now left.
  - reflexivity.
Qed.

Lemma holds_to_number (x : JS.num) (n : Z) :
  holds x n <-> JS.to_number x = Some n.
Proof.
  split.
  - intros []; reflexivity.
  - destruct x; simpl; [discriminate| |]; intros [= <-]; constructor.
Qed.

(** The two filters of the cleanup, in the words of the amended claim. *)
Lemma invalid_row_filters (r : Row) :
  invalid_row r <-> row_failed r = true \/ row_zero_balance r = true.
Proof.
  unfold row_failed, row_zero_balance. split.
  - intros [m Herror Hm|a u Herror Ha Hu Hle].
    + left. apply truthy_tagged. now exists m.
    + right. apply falsy_untagged in Herror. rewrite Herror.
      apply holds_to_number in Ha, Hu. unfold JS.sub. rewrite Ha, Hu.
      simpl. now apply Z.leb_le.
  - intros [Hfailed|Hzero].
    + apply truthy_tagged in Hfailed. destruct Hfailed as (m & Herror & Hm).
      exact (invalid_failed r m Herror Hm).
    + destruct (JS.truthy (row_error r)) eqn:Herror; [discriminate|].
      apply falsy_untagged in Herror. unfold JS.sub in Hzero.
      destruct (JS.to_number (row_totalAllowance r)) as [a|] eqn:Ha;
        [|discriminate].
      destruct (JS.to_number (row_orgTotalTokensUsed r)) as [u|] eqn:Hu;
        [|discriminate].
      apply holds_to_number in Ha, Hu. simpl in Hzero.
      apply Z.leb_le in Hzero.
      exact (invalid_spent r a u Herror Ha Hu Hzero).
Qed.

Lemma delete_all_In (ids : list string) (s : KV) (p : string * ApiKeyEntry) :
  In p (delete_all ids s) <-> In p s /\ ~ In (fst p) ids.
Proof.
  unfold delete_all. rewrite filter_In, negb_true_iff. split.
  - intros [Hp Hb]. split; [exact Hp|]. intros Hin.
    assert (existsb (String.eqb (fst p)) ids = true); [|congruence].
    apply existsb_exists. exists (fst p). split; [exact Hin|].
    apply String.eqb_refl.
  - intros [Hp Hnot]. split; [exact Hp|].
    destruct (existsb _ ids) eqn:Hex; [|reflexivity].
    apply existsb_exists in Hex. destruct Hex as (id & Hin & Heq).
    apply String.eqb_eq in Heq. now subst id.
Qed.

End Targets.

(** C6, as stated, fails on [POST /api/keys/zero-balance/delete]: in the
    scenario the credential C is rejected by the remote with status 401,
    so that the aggregation tags it with an error; the route deletes B,
    whose balance is 0, and leaves C in the store. *)
Lemma cleanup_counterexample :
  (exists d w1,
      fetchApiKeyData "C" secret_C scenario = (Ok d, w1) /\
      data_error d = Some "HTTP 401") /\
  fst (handle_zero_balance_delete scenario) = Ok (Json 200 (1%nat, 1%nat)) /\
  map fst (kv (snd (handle_zero_balance_delete scenario))) = ["A"; "C"] /\
  In "C" (map fst (kv (snd (handle_zero_balance_delete scenario)))).
Proof.
  split; [eexists _, _; split; reflexivity|].
  split; [reflexivity|]. split; [reflexivity|]. right. left. reflexivity.
Qed.

(** C6, amended: the cleanup of the dashboard ([clearInvalidKeysFromModal])
    takes from the loaded view the rows with an error and the rows without
    an error whose allowance minus consumption is at most 0, and sends
    their IDs to the batch delete, which (on a store whose operations
    succeed) deletes exactly these credentials.  The route
    [POST /api/keys/zero-balance/delete] fetches every credential again and
    deletes, one by one and without the batch delete, exactly those for
    which the remote answers 2xx with an allowance minus consumption of at
    most 0; it keeps the credentials that cannot be fetched. *)
Theorem cleanup_targets :
  forall (v : ClientView) (w : World),
    calm w ->
    store_ok (kv w) ->
    let ids := map row_id (allInvalidKeys v) in
    (forall id,
        In id ids <->
        exists r, In r (cv_data v) /\ row_id r = id /\ invalid_row r) /\
    (exists reply w',
        clearInvalidKeysFromModal (Some v) true w = (Ok reply, w') /\
        kv w' = delete_all ids (kv w) /\
        (forall p,
            In p (kv w') <->
            In p (kv w) /\
            ~ exists r, In r (cv_data v) /\ row_id r = fst p /\ invalid_row r) /\
        match ids with
        | [] => reply = None
        | _ :: _ =>
            reply = Some (Json 200 (mkBatchDeleted (List.length ids)
                                                   (List.length ids) [])) /\
            clearInvalidKeysFromModal (Some v) true w
            = bind (handle_batch_delete ids) (fun r => ret (Some r)) w
        end) /\
    (exists n w',
        handle_zero_balance_delete w = (Ok (Json 200 (n, n)), w') /\
        n = List.length (filter (exhausted (remote w)) (map snd (kv w))) /\
        kv w' = filter (fun p => negb (exhausted (remote w) (snd p))) (kv w)).
Proof.
  intros v w Hcalm Hok ids.
  assert (Hids : forall id,
             In id ids <->
             exists r, In r (cv_data v) /\ row_id r = id /\ invalid_row r).
  { intros id. unfold ids, allInvalidKeys.
    rewrite map_app, in_app_iff, !in_map_iff. split.
    - intros [(r & Hid & Hr)|(r & Hid & Hr)]; apply filter_In in Hr;
        exists r; rewrite invalid_row_filters; tauto.
    - intros (r & Hr & Hid & Hinvalid).
      apply invalid_row_filters in Hinvalid.
      destruct Hinvalid as [Hf|Hz]; [left|right]; exists r;
        (split; [exact Hid|]); apply filter_In; tauto. }
  assert (Hkept : forall p,
             In p (delete_all ids (kv w)) <->
             In p (kv w) /\
             ~ exists r, In r (cv_data v) /\ row_id r = fst p /\ invalid_row r).
  { intros p. now rewrite delete_all_In, Hids. }
  split; [exact Hids|split].
  - unfold clearInvalidKeysFromModal. clear Hids. subst ids.
    destruct (allInvalidKeys v) as [|r rows] eqn:Hinv.
    + exists None, w. simpl. rewrite delete_all_nil.
      split; [reflexivity|]. split; [reflexivity|].
      split; [|reflexivity].
      intros p. rewrite <- Hkept. simpl. now rewrite delete_all_nil.
    + destruct (batch_delete_run (map row_id (r :: rows)) w Hcalm)
        as (w' & Hrun & Hkv).
      eexists _, w'. cbn [List.length Nat.eqb negb map].
      erewrite !bind_ok by exact Hrun.
      split; [reflexivity|]. split; [exact Hkv|].
      split; [intros p; rewrite Hkv; apply Hkept|]. split; reflexivity.
  - pose proof (calm_read_ok w Hcalm) as Hread.
    destruct (check_balances_run (map snd (kv w)) [] (after_kv w (kv w)))
      as (lines & Hcheck).
    simpl in Hcheck.
    set (doomed_ids := map entry_id
                           (filter (exhausted (remote w)) (map snd (kv w)))) in *.
    destruct (delete_identified_run doomed_ids 0
                (add_lines (after_kv w (kv w)) lines)
                (calm_after_kv w (kv w) Hcalm)) as (w' & Hdel & Hkv).
    exists (List.length doomed_ids), w'. split; [|split].
    + unfold handle_zero_balance_delete. apply try_ok.
      erewrite bind_ok by (apply getAllApiKeys_run; exact Hread).
      erewrite bind_ok by exact Hcheck.
      erewrite bind_ok by exact Hdel. reflexivity.
    + unfold doomed_ids. now rewrite length_map.
    + rewrite Hkv. simpl kv. now apply delete_selected.
Qed.

Lemma cleanup_targets_witness :
  calm scenario /\
  store_ok (kv scenario) /\
  map row_id (allInvalidKeys scenario_view) = ["C"; "B"] /\
  (forall id,
      In id ["C"; "B"] <->
      exists r, In r (cv_data scenario_view) /\ row_id r = id /\ invalid_row r) /\
  (exists reply w',
      clearInvalidKeysFromModal (Some scenario_view) true scenario
      = (Ok reply, w') /\
      reply = Some (Json 200 (mkBatchDeleted 2 2 [])) /\
      map fst (kv w') = ["A"]) /\
  (exists n w',
      handle_zero_balance_delete scenario = (Ok (Json 200 (n, n)), w') /\
      n = 1%nat /\
      map fst (kv w') = ["A"; "C"]).
Proof.
  assert (H0 : calm scenario) by constructor.
  assert (H1 : store_ok (kv scenario))
    by (split; [repeat constructor; simpl; intuition discriminate
               | repeat constructor]).
  split; [exact H0|]. split; [exact H1|]. split; [reflexivity|].
  destruct (cleanup_targets scenario_view scenario H0 H1)
    as (Hids & (reply & w' & Hrun & Hkv & _ & Hreply)
        & (n & w2 & Hrun2 & Hn & Hkv2)).
  split; [exact Hids|]. split.
  - exists reply, w'. split; [exact Hrun|].
    split; [exact (proj1 Hreply)|]. rewrite Hkv. reflexivity.
  - exists n, w2. split; [exact Hrun2|].
    split; [rewrite Hn; reflexivity|]. rewrite Hkv2. reflexivity.
Defined.

(* ================================================================== *)
(** * Further properties *)

(** ** The store: lookups after updates, and its invariant *)

Section StoreOrder.

Lemma ascii_compare_lt_trans (a b c : ascii) :
  Ascii.compare a b = Lt -> Ascii.compare b c = Lt -> Ascii.compare a c = Lt.
Proof.
  unfold Ascii.compare. rewrite !N.compare_lt_iff. lia.
Qed.

Lemma string_compare_refl (s : string) : String.compare s s = Eq.
Proof.
  induction s as [|c s IH]; simpl; [reflexivity|].
  unfold Ascii.compare. now rewrite N.compare_refl.
Qed.

Lemma string_compare_lt_trans (s1 s2 s3 : string) :
  String.compare s1 s2 = Lt -> String.compare s2 s3 = Lt ->
  String.compare s1 s3 = Lt.
Proof.
  revert s2 s3. induction s1 as [|c1 s1 IH]; intros [|c2 s2] [|c3 s3];
    simpl; try discriminate; try reflexivity.
  destruct (Ascii.compare c1 c2) eqn:H12; try discriminate;
    destruct (Ascii.compare c2 c3) eqn:H23; try discriminate.
  - apply Ascii.compare_eq_iff in H12, H23. subst.
    rewrite (proj2 (N.compare_eq_iff _ _) eq_refl : Ascii.compare c3 c3 = Eq).
    apply IH.
  - apply Ascii.compare_eq_iff in H12. subst. now rewrite H23.
  - apply Ascii.compare_eq_iff in H23. subst. now rewrite H12.
  - now rewrite (ascii_compare_lt_trans _ _ _ H12 H23).
Qed.

Lemma string_compare_gt_lt (s1 s2 : string) :
  String.compare s1 s2 = Gt -> String.compare s2 s1 = Lt.
Proof. intros H. rewrite String.compare_antisym, H. reflexivity. Qed.

Lemma string_compare_neq (s1 s2 : string) :
  String.compare s1 s2 <> Eq -> (s2 =? s1)%string = false.
Proof.
  intros H. apply String.eqb_neq. intros ->. apply H, string_compare_refl.
Qed.

End StoreOrder.

Section StoreLookups.

Lemma kv_get_set_same (k : string) (v : ApiKeyEntry) (s : KV) :
  kv_get k (kv_set k v s) = Some v.
Proof.
  unfold kv_get. induction s as [|[k' v'] s IH]; simpl.
  - now rewrite String.eqb_refl.
  - destruct (String.compare k k') eqn:Hc; simpl.
    + now rewrite String.eqb_refl.
    + now rewrite String.eqb_refl.
    + rewrite string_compare_neq by congruence. exact IH.
Qed.

Lemma kv_get_set_other (k k' : string) (v : ApiKeyEntry) (s : KV) :
  k' <> k -> kv_get k' (kv_set k v s) = kv_get k' s.
Proof.
  intros Hne. apply String.eqb_neq in Hne. rewrite String.eqb_sym in Hne.
  unfold kv_get. induction s as [|[k0 v0] s IH]; simpl.
  - now rewrite Hne.
  - destruct (String.compare k k0) eqn:Hc; simpl.
    + apply String.compare_eq_iff in Hc. subst k0. now rewrite Hne.
    + now rewrite Hne.
    + destruct (k0 =? k')%string; [reflexivity|exact IH].
Qed.

Lemma kv_get_delete_same (k : string) (s : KV) :
  kv_get k (kv_delete k s) = None.
Proof.
  unfold kv_get, kv_delete. induction s as [|[k0 v0] s IH]; simpl;
    [reflexivity|].
  destruct (k0 =? k)%string eqn:H0; simpl; [exact IH|].
  now rewrite H0.
Qed.

Lemma kv_get_delete_other (k k' : string) (s : KV) :
  k' <> k -> kv_get k' (kv_delete k s) = kv_get k' s.
Proof.
  intros Hne. unfold kv_get, kv_delete.
  induction s as [|[k0 v0] s IH]; simpl; [reflexivity|].
  destruct (k0 =? k)%string eqn:H0; simpl.
  - apply String.eqb_eq in H0. subst k0.
    apply String.eqb_neq in Hne. rewrite String.eqb_sym in Hne.
    now rewrite Hne.
  - destruct (k0 =? k')%string; [reflexivity|exact IH].
Qed.

Lemma kv_get_None (k : string) (s : KV) :
  kv_get k s = None <-> ~ In k (map fst s).
Proof.
  unfold kv_get. induction s as [|[k0 v0] s IH]; simpl; [tauto|].
  destruct (k0 =? k)%string eqn:H0; simpl.
  - apply String.eqb_eq in H0. split; [discriminate|tauto].
  - apply String.eqb_neq in H0. tauto.
Qed.

Lemma kv_get_In (k : string) (e : ApiKeyEntry) (s : KV) :
  kv_get k s = Some e -> In (k, e) s.
Proof.
  unfold kv_get. induction s as [|[k0 v0] s IH]; simpl; [discriminate|].
  destruct (k0 =? k)%string eqn:H0; simpl.
  - apply String.eqb_eq in H0. intros [= ->]. left. now subst.
  - intros H. right. now apply IH.
Qed.

Lemma kv_delete_absent (k : string) (s : KV) :
  ~ In k (map fst s) -> kv_delete k s = s.
Proof.
  unfold kv_delete. induction s as [|[k0 v0] s IH]; simpl; [reflexivity|].
  intros H. destruct (k0 =? k)%string eqn:H0.
  - apply String.eqb_eq in H0. tauto.
  - simpl. f_equal. apply IH. tauto.
Qed.

Lemma kv_delete_keys (k : string) (s : KV) :
  ~ In k (map fst (kv_delete k s)).
Proof. apply kv_get_None, kv_get_delete_same. Qed.

Lemma kv_set_In (k : string) (v : ApiKeyEntry) (s : KV) (p : string * ApiKeyEntry) :
  In p (kv_set k v s) -> p = (k, v) \/ In p s.
Proof.
  induction s as [|[k0 v0] s IH]; simpl; [intros [<-|[]]; now left|].
  destruct (String.compare k k0); simpl.
  - intros [<-|H]; auto.
  - intros [<-|H]; auto.
  - intros [<-|H]; auto. destruct (IH H); auto.
Qed.

End StoreLookups.

Section StoreInvariant.

Lemma sorted_cons_inv (p : string * ApiKeyEntry) (s : KV) :
  store_sorted (p :: s) ->
  store_sorted s /\ Forall (fun q => String.compare (fst p) (fst q) = Lt) s.
Proof. intros H. inversion H; subst. now split. Qed.

Lemma kv_set_sorted (k : string) (v : ApiKeyEntry) (s : KV) :
  store_sorted s -> store_sorted (kv_set k v s).
Proof.
  unfold store_sorted.
  induction s as [|[k0 v0] s IH]; intros Hs; simpl.
  - repeat constructor.
  - apply sorted_cons_inv in Hs. destruct Hs as [Hs Hall].
    destruct (String.compare k k0) eqn:Hc.
    + apply String.compare_eq_iff in Hc. subst k0. now constructor.
    + constructor; [now constructor|]. constructor; [exact Hc|].
      eapply Forall_impl; [|exact Hall]. simpl. intros q Hq.
      exact (string_compare_lt_trans _ _ _ Hc Hq).
    + constructor; [now apply IH|].
      apply Forall_forall. intros q Hq. apply kv_set_In in Hq.
      destruct Hq as [->|Hq]; simpl.
      * now apply string_compare_gt_lt.
      * rewrite Forall_forall in Hall. now apply Hall.
Qed.

Lemma filter_sorted (f : string * ApiKeyEntry -> bool) (s : KV) :
  store_sorted s -> store_sorted (filter f s).
Proof.
  unfold store_sorted. induction 1 as [|p s Hs IH Hall]; simpl;
    [constructor|].
  destruct (f p); [|exact IH]. constructor; [exact IH|].
  apply Forall_forall. intros q Hq. apply filter_In in Hq.
  rewrite Forall_forall in Hall. now apply Hall.
Qed.

Lemma sorted_NoDup (s : KV) : store_sorted s -> NoDup (map fst s).
Proof.
  unfold store_sorted. induction 1 as [|p s Hs IH Hall]; simpl;
    constructor; [|exact IH].
  intros Hin. apply in_map_iff in Hin. destruct Hin as (q & Hq & Hin).
  rewrite Forall_forall in Hall. specialize (Hall q Hin).
  rewrite Hq, string_compare_refl in Hall. discriminate.
Qed.

(** A store that satisfies the invariant has unique IDs. *)
Lemma store_inv_ok (s : KV) : store_inv s -> store_ok s.
Proof. intros [Hs Hid]. split; [now apply sorted_NoDup|exact Hid]. Qed.

Lemma kv_set_inv (k : string) (v : ApiKeyEntry) (s : KV) :
  entry_id v = k -> store_inv s -> store_inv (kv_set k v s).
Proof.
  intros Hv [Hs Hid]. split; [now apply kv_set_sorted|].
  apply Forall_forall. intros p Hp. apply kv_set_In in Hp.
  destruct Hp as [->|Hp]; [exact Hv|].
  rewrite Forall_forall in Hid. now apply Hid.
Qed.

Lemma filter_inv (f : string * ApiKeyEntry -> bool) (s : KV) :
  store_inv s -> store_inv (filter f s).
Proof.
  intros [Hs Hid]. split; [now apply filter_sorted|].
  apply Forall_forall. intros p Hp. apply filter_In in Hp.
  rewrite Forall_forall in Hid. now apply Hid.
Qed.

End StoreInvariant.

(** ** Computations and the store *)

Section Respects.

Variable P : KV -> KV -> Prop.
Hypothesis P_refl : forall s, P s s.
Hypothesis P_trans : forall s1 s2 s3, P s1 s2 -> P s2 s3 -> P s1 s3.

Lemma respects_ret {A} (a : A) : respects P (ret a).
Proof. intros w. apply P_refl. Qed.

Lemma respects_throw {A} (e : string) : respects P (@throw A e).
Proof. intros w. apply P_refl. Qed.

Lemma respects_bind {A B} (m : M A) (k : A -> M B) :
  respects P m -> (forall a, respects P (k a)) -> respects P (bind m k).
Proof.
  intros Hm Hk w. unfold bind. specialize (Hm w).
  destruct (m w) as [[a|e] w1]; simpl in *; [|exact Hm].
  exact (P_trans _ _ _ Hm (Hk a w1)).
Qed.

Lemma respects_try {A} (m : M A) (h : string -> M A) :
  respects P m -> (forall e, respects P (h e)) -> respects P (try_catch m h).
Proof.
  intros Hm Hh w. unfold try_catch. specialize (Hm w).
  destruct (m w) as [[a|e] w1]; simpl in *; [exact Hm|].
  exact (P_trans _ _ _ Hm (Hh e w1)).
Qed.

Lemma respects_log (line : string) : respects P (console_log line).
Proof. intros w. apply P_refl. Qed.

Lemma respects_now : respects P date_now.
Proof. intros w. unfold date_now. destruct (ticks w); apply P_refl. Qed.

Lemma respects_lift {A} (r : Result A) : respects P (lift_result r).
Proof. intros w. apply P_refl. Qed.

Lemma respects_fetch (key : string) : respects P (fetch_usage key).
Proof.
  intros w. unfold fetch_usage. destruct (remote w key); apply P_refl.
Qed.

Lemma respects_get_usage (d : ApiData) : respects P (get_usage d).
Proof. destruct d; [apply respects_throw|apply respects_ret]. Qed.

Lemma respects_object_keys (d : ApiData) : respects P (object_keys d).
Proof. destruct d; [apply respects_throw|apply respects_ret]. Qed.

Lemma respects_kv_op {A} (f : KV -> A * KV) :
  (forall s, P s (snd (f s))) -> respects P (kv_op f).
Proof.
  intros Hf w. unfold kv_op.
  destruct (faults w) as [|[|] fs]; simpl; try apply P_refl;
    specialize (Hf (kv w)); destruct (f (kv w)); exact Hf.
Qed.

Lemma respects_read {A} (g : KV -> A) : respects P (kv_op (fun s => (g s, s))).
Proof. apply respects_kv_op. intros s. apply P_refl. Qed.

Lemma respects_promise_all {A B} (call : A -> M B) (items : list A) :
  (forall a, respects P (call a)) -> respects P (promise_all call items).
Proof.
  intros Hc. induction items as [|a items IH]; simpl.
  - apply respects_ret.
  - apply respects_bind; [apply Hc|]. intros b.
    apply respects_bind; [exact IH|]. intros bs. apply respects_ret.
Qed.

End Respects.

(** Steps through the structure of a computation, given that [P] is
    reflexive ([Hr]) and transitive ([Ht]). *)
Ltac respects_step Hr Ht :=
  lazymatch goal with
  | |- respects _ (ret _) => apply (respects_ret _ Hr)
  | |- respects _ (throw _) => apply (respects_throw _ Hr)
  | |- respects _ (console_log _) => apply (respects_log _ Hr)
  | |- respects _ date_now => apply (respects_now _ Hr)
  | |- respects _ (lift_result _) => apply (respects_lift _ Hr)
  | |- respects _ (fetch_usage _) => apply (respects_fetch _ Hr)
  | |- respects _ (get_usage _) => apply (respects_get_usage _ Hr)
  | |- respects _ (object_keys _) => apply (respects_object_keys _ Hr)
  | |- respects _ (kv_op _) => apply (respects_read _ Hr)
  | |- respects _ (bind _ _) => apply (respects_bind _ Ht); [|intros ?]
  | |- respects _ (try_catch _ _) => apply (respects_try _ Ht); [|intros ?]
  | |- respects _ (promise_all _ _) =>
      apply (respects_promise_all _ Hr Ht); intros ?
  | |- respects _ (if ?b then _ else _) => destruct b
  | |- respects _ (match ?x with _ => _ end) => destruct x
  end.

Ltac respects_auto Hr Ht := repeat respects_step Hr Ht.

Section ReadOnly.

Let eq_refl_kv : forall s : KV, s = s := fun s => eq_refl.
Let eq_trans_kv : forall s1 s2 s3 : KV, s1 = s2 -> s2 = s3 -> s1 = s3 :=
  fun s1 s2 s3 H1 H2 => eq_trans H1 H2.

Lemma fetchApiKeyData_reads (id key : string) :
  respects eq (fetchApiKeyData id key).
Proof.
  unfold fetchApiKeyData, fetch_body, fetch_failed.
  respects_auto eq_refl_kv eq_trans_kv.
Qed.

Lemma log_keys_reads (keyEntries : list ApiKeyEntry) (items : list KeyData) :
  respects eq (log_keys keyEntries items).
Proof.
  induction items as [|item rest IH]; simpl;
    respects_auto eq_refl_kv eq_trans_kv; exact IH.
Qed.

Lemma getAggregatedData_reads : respects eq getAggregatedData.
Proof.
  unfold getAggregatedData, getAllApiKeys.
  respects_auto eq_refl_kv eq_trans_kv;
    first [apply fetchApiKeyData_reads | apply log_keys_reads].
Qed.

Lemma handle_usage_reads (id : string) : respects eq (handle_usage id).
Proof.
  unfold handle_usage, getApiKey. respects_auto eq_refl_kv eq_trans_kv.
Qed.

Lemma load_one_reads (keyEntry : SafeKey) : respects eq (load_one keyEntry).
Proof.
  unfold load_one, load_body.
  respects_auto eq_refl_kv eq_trans_kv; apply handle_usage_reads.
Qed.

Lemma load_loop_reads (bs : list (list SafeKey)) :
  forall b results, respects eq (load_loop bs b results).
Proof.
  induction bs as [|batch rest IH]; intros b results; simpl;
    respects_auto eq_refl_kv eq_trans_kv; [apply load_one_reads|apply IH].
Qed.

End ReadOnly.

(** X1: the routes that read ([/api/data], [GET /api/keys],
    [GET /api/keys/duplicates], [GET /api/keys/:id/full],
    [GET /api/keys/:id/usage]) and the progressive loading of the dashboard
    never change the pairs of the store, whatever the remote answers and
    whether or not an operation of the store throws. *)
Theorem read_routes_leave_store :
  forall w : World,
    kv (snd (handle_data w)) = kv w /\
    kv (snd (handle_keys w)) = kv w /\
    kv (snd (handle_duplicates w)) = kv w /\
    (forall id, kv (snd (handle_full id w)) = kv w) /\
    (forall id, kv (snd (handle_usage id w)) = kv w) /\
    (forall keys b, kv (snd (loadUsageDataProgressively keys b w)) = kv w).
Proof.
  intros w.
  assert (Hr : forall s : KV, s = s) by reflexivity.
  assert (Ht : forall s1 s2 s3 : KV, s1 = s2 -> s2 = s3 -> s1 = s3)
    by (intros; congruence).
  repeat split; intros; symmetry.
  - revert w. change (respects eq handle_data).
    unfold handle_data. respects_auto Hr Ht. apply getAggregatedData_reads.
  - revert w. change (respects eq handle_keys).
    unfold handle_keys, getAllApiKeys. respects_auto Hr Ht.
  - revert w. change (respects eq handle_duplicates).
    unfold handle_duplicates, findDuplicateKeys, getAllApiKeys.
    respects_auto Hr Ht.
  - revert w. change (respects eq (handle_full id)).
    unfold handle_full, getApiKey. respects_auto Hr Ht.
  - apply handle_usage_reads.
  - apply load_loop_reads.
Qed.

Section InvariantKept.

Lemma inv_carried_refl (s : KV) : inv_carried s s.
Proof. exact (fun H => H). Qed.

Lemma inv_carried_trans (s1 s2 s3 : KV) :
  inv_carried s1 s2 -> inv_carried s2 s3 -> inv_carried s1 s3.
Proof. unfold inv_carried. auto. Qed.

Lemma saveApiKey_inv (id key : string) (name : option string) :
  respects inv_carried (saveApiKey id key name).
Proof.
  unfold saveApiKey.
  apply (respects_bind _ inv_carried_trans);
    [apply (respects_now _ inv_carried_refl)|intros t].
  apply (respects_kv_op _ inv_carried_refl). intros s Hs.
  now apply kv_set_inv.
Qed.

Lemma deleteApiKey_inv (id : string) : respects inv_carried (deleteApiKey id).
Proof.
  apply (respects_kv_op _ inv_carried_refl). intros s Hs.
  now apply filter_inv.
Qed.

Lemma import_from_inv (keys : list string) :
  forall i t, respects inv_carried (import_from i keys t).
Proof.
  induction keys as [|raw rest IH]; intros i t; simpl;
    respects_auto inv_carried_refl inv_carried_trans;
    try apply IH.
  - unfold import_one, checkDuplicateKey, getAllApiKeys.
    respects_auto inv_carried_refl inv_carried_trans.
    apply saveApiKey_inv.
  - unfold import_failed. respects_auto inv_carried_refl inv_carried_trans.
Qed.

Lemma delete_rest_inv (ids : list string) :
  forall n, respects inv_carried (delete_rest ids n).
Proof.
  induction ids as [|id ids IH]; intros n; simpl;
    respects_auto inv_carried_refl inv_carried_trans;
    [apply deleteApiKey_inv|apply IH].
Qed.

Lemma clean_groups_inv (groups : list DuplicateGroup) :
  forall n, respects inv_carried (clean_groups groups n).
Proof.
  induction groups as [|g groups IH]; intros n; simpl;
    respects_auto inv_carried_refl inv_carried_trans;
    [apply delete_rest_inv|apply IH].
Qed.

Lemma delete_identified_inv (ids : list string) :
  forall n, respects inv_carried (delete_identified ids n).
Proof.
  induction ids as [|id ids IH]; intros n; simpl;
    respects_auto inv_carried_refl inv_carried_trans;
    [apply deleteApiKey_inv|apply IH].
Qed.

Lemma check_balances_inv (l : list ApiKeyEntry) :
  forall sel, respects inv_carried (check_balances l sel).
Proof.
  induction l as [|e l IH]; intros sel; simpl;
    respects_auto inv_carried_refl inv_carried_trans; [|apply IH].
  unfold check_balance. respects_auto inv_carried_refl inv_carried_trans.
Qed.

Lemma route_note_inv (pathname : string) (body : Result Body) :
  respects inv_carried (route_note pathname body).
Proof.
  intros w Hinv. unfold route_note, try_catch.
  destruct (JS.truthy (before_last (split_slash pathname))); simpl;
    [|exact Hinv].
  unfold bind, lift_result. destruct body as [b|e]; simpl; [|exact Hinv].
  unfold getApiKey, kv_op.
  set (id := match before_last (split_slash pathname) with
             | Some i => i | None => "" end).
  assert (Hset : forall e, kv_get id (kv w) = Some e ->
                   store_inv (kv_set id (with_note e (body_note b)) (kv w))).
  { intros e He. apply kv_set_inv; [|exact Hinv].
    apply kv_get_In in He. destruct Hinv as [_ Hid].
    rewrite Forall_forall in Hid. exact (Hid _ He). }
  destruct (faults w) as [|[|] fs]; simpl; try exact Hinv;
    destruct (kv_get id (kv w)) as [e|] eqn:He; simpl; try exact Hinv;
    try (destruct fs as [|[|] fs']; simpl; try exact Hinv; now apply Hset).
  now apply Hset.
Qed.

End InvariantKept.

(** X2: the empty store satisfies the invariant of the store (pairs in key
    order, each filed under the ID of its entry); every route that writes
    (batch import, add, delete, note, cleaning of duplicates, batch delete,
    zero-balance delete) carries it from the store it finds to the store it
    leaves, whatever fails on the way; and a store that satisfies it has
    unique IDs. *)
Theorem store_invariant_kept :
  store_inv [] /\
  (forall s, store_inv s -> store_ok s) /\
  (forall w : World,
      store_inv (kv w) ->
      (forall keys, store_inv (kv (snd (batchImportKeys keys w)))) /\
      (forall body, store_inv (kv (snd (route_add body w)))) /\
      (forall pathname, store_inv (kv (snd (route_delete pathname w)))) /\
      (forall pathname body,
          store_inv (kv (snd (route_note pathname body w)))) /\
      store_inv (kv (snd (handle_duplicates_clean w))) /\
      (forall ids, store_inv (kv (snd (handle_batch_delete ids w)))) /\
      store_inv (kv (snd (handle_zero_balance_delete w)))).
Proof.
  pose proof inv_carried_refl as Hr. pose proof inv_carried_trans as Ht.
  split; [split; constructor|]. split; [exact store_inv_ok|].
  intros w Hinv.
  split; [|split; [|split; [|split; [|split; [|split]]]]].
  - intros keys. now apply (import_from_inv keys 0 (mkTally 0 0 0 []) w).
  - intros body. revert w Hinv. change (respects inv_carried (route_add body)).
    unfold route_add. respects_auto Hr Ht. apply saveApiKey_inv.
  - intros pathname. revert w Hinv.
    change (respects inv_carried (route_delete pathname)).
    unfold route_delete. respects_auto Hr Ht. apply deleteApiKey_inv.
  - intros pathname body. now apply route_note_inv.
  - revert w Hinv. change (respects inv_carried handle_duplicates_clean).
    unfold handle_duplicates_clean, findDuplicateKeys, getAllApiKeys.
    respects_auto Hr Ht. apply clean_groups_inv.
  - intros ids. revert w Hinv.
    change (respects inv_carried (handle_batch_delete ids)).
    unfold handle_batch_delete, delete_one. respects_auto Hr Ht.
    apply deleteApiKey_inv.
  - revert w Hinv. change (respects inv_carried handle_zero_balance_delete).
    unfold handle_zero_balance_delete, getAllApiKeys. respects_auto Hr Ht;
      [apply check_balances_inv|apply delete_identified_inv].
Qed.

(** ** Batch delete, whatever fails *)

Section BatchDelete.

Lemma delete_all_one (id : string) (s : KV) :
  delete_all [id] s = kv_delete id s.
Proof.
  unfold delete_all, kv_delete. apply filter_ext. intros p. simpl.
  now rewrite orb_false_r.
Qed.

Lemma delete_one_any (id : string) (w : World) :
  exists ok w',
    delete_one id w = (Ok (id, ok), w') /\
    kv w' = (if ok then kv_delete id (kv w) else kv w).
Proof.
  destruct (read_ok w) eqn:Hread.
  - exists true. eexists. split; [now apply delete_one_run|reflexivity].
  - exists false. eexists. split.
    + unfold delete_one, deleteApiKey.
      erewrite try_throw
        by (erewrite bind_throw by (apply kv_op_throws; exact Hread);
            reflexivity).
      erewrite bind_ok by apply console_log_run. reflexivity.
    + reflexivity.
Qed.

(** The deletes of a batch: one result per ID, in order; the pairs of the
    IDs that report success are gone, the others are as they were. *)
Lemma delete_promises_any (ids : list string) (w : World) :
  exists results w',
    promise_all delete_one ids w = (Ok results, w') /\
    map fst results = ids /\
    kv w' = delete_all (map fst (filter snd results)) (kv w).
Proof.
  revert w. induction ids as [|id ids IH]; intros w; simpl.
  - exists [], w. simpl. now rewrite delete_all_nil.
  - destruct (delete_one_any id w) as (ok & w1 & H1 & Hkv1).
    destruct (IH w1) as (results & w' & Hrun & Hids & Hkv).
    exists ((id, ok) :: results), w'. split; [|split].
    + erewrite bind_ok by exact H1. erewrite bind_ok by exact Hrun.
      reflexivity.
    + simpl. now rewrite Hids.
    + rewrite Hkv, Hkv1. simpl. destruct ok; simpl; [|reflexivity].
      apply delete_all_cons.
Qed.

Lemma filter_split_length {A} (f : A -> bool) (l : list A) :
  (List.length (filter f l) + List.length (filter (fun x => negb (f x)) l)
   = List.length l)%nat.
Proof.
  induction l as [|x l IH]; simpl; [reflexivity|].
  destruct (f x); simpl; lia.
Qed.

Lemma delete_all_incl (ids : list string) (s : KV) :
  incl (delete_all ids s) s.
Proof. intros p Hp. unfold delete_all in Hp. now apply filter_In in Hp. Qed.

Lemma delete_all_keeps (ids : list string) (s : KV) (p : string * ApiKeyEntry) :
  In p s -> ~ In (fst p) ids -> In p (delete_all ids s).
Proof.
  intros Hp Hnot. unfold delete_all. apply filter_In. split; [exact Hp|].
  apply negb_true_iff. destruct (existsb _ ids) eqn:Hex; [|reflexivity].
  apply existsb_exists in Hex. destruct Hex as (x & Hx & Heq).
  apply String.eqb_eq in Heq. subst x. contradiction.
Qed.

End BatchDelete.

(** X3: [POST /api/keys/batch-delete] never throws and always answers 200,
    whatever operations of the store fail: the count of deleted IDs and the
    list of failed IDs add up to the number of requested IDs; every failed
    ID was requested; a requested ID that is not reported as failed is not
    in the store afterwards; and no other credential is touched: a pair
    whose ID was not requested stays, and nothing is added. *)
Theorem batch_delete_any_failures :
  forall (ids : list string) (w : World),
  exists n failed w',
    handle_batch_delete ids w
    = (Ok (Json 200 (mkBatchDeleted n (List.length ids) failed)), w') /\
    (n + List.length failed = List.length ids)%nat /\
    incl failed ids /\
    (forall id, In id ids -> ~ In id failed -> ~ In id (map fst (kv w'))) /\
    (forall p, In p (kv w) -> ~ In (fst p) ids -> In p (kv w')) /\
    incl (kv w') (kv w).
Proof.
  intros ids w.
  destruct (delete_promises_any ids w) as (results & w' & Hrun & Hids & Hkv).
  exists (List.length (filter snd results)),
         (map fst (filter (fun r => negb (snd r)) results)), w'.
  split; [|split; [|split; [|split; [|split]]]].
  - unfold handle_batch_delete. apply try_ok.
    erewrite bind_ok by exact Hrun. reflexivity.
  - rewrite length_map, <- Hids, length_map. apply filter_split_length.
  - intros id Hid. apply in_map_iff in Hid. destruct Hid as (r & <- & Hr).
    apply filter_In in Hr. rewrite <- Hids. apply in_map. tauto.
  - intros id Hid Hnot. rewrite Hkv, delete_all_keys. intros [_ Hgone].
    apply Hgone. rewrite <- Hids in Hid. apply in_map_iff in Hid.
    destruct Hid as ([id' ok] & <- & Hr). simpl in *.
    destruct ok.
    + apply in_map_iff. exists (id', true). split; [reflexivity|].
      apply filter_In. now split.
    + exfalso. apply Hnot. apply in_map_iff. exists (id', false).
      split; [reflexivity|]. apply filter_In. now split.
  - intros p Hp Hnot. rewrite Hkv. apply delete_all_keeps; [exact Hp|].
    intros Hin. apply Hnot. rewrite <- Hids. apply in_map_iff in Hin.
    destruct Hin as (r & <- & Hr). apply filter_In in Hr. apply in_map. tauto.
  - rewrite Hkv. apply delete_all_incl.
Qed.

(** ** Duplicates, once cleaned *)

Section CleanComplete.

Lemma ids_with_delete_all (k : string) (D : list string) (s : KV) :
  Forall (fun p => entry_id (snd p) = fst p) s ->
  ids_with k (map snd (delete_all D s))
  = filter (fun id => negb (existsb (String.eqb id) D))
           (ids_with k (map snd s)).
Proof.
  unfold ids_with, delete_all.
  induction 1 as [|p s Hp _ IH]; simpl; [reflexivity|].
  destruct (entry_key (snd p) =? k)%string eqn:Hk; simpl.
  - rewrite Hp.
    destruct (existsb (String.eqb (fst p)) D); simpl; [exact IH|].
    rewrite Hk. simpl. now rewrite IH, Hp.
  - destruct (existsb (String.eqb (fst p)) D); simpl; [exact IH|].
    rewrite Hk. exact IH.
Qed.

Lemma not_doomed_eqb (D : list string) (id : string) :
  ~ In id D -> existsb (String.eqb id) D = false.
Proof.
  intros H. destruct (existsb _ D) eqn:Hex; [|reflexivity].
  apply existsb_exists in Hex. destruct Hex as (x & Hx & Heq).
  apply String.eqb_eq in Heq. now subst.
Qed.

Lemma doomed_eqb (D : list string) (id : string) :
  In id D -> existsb (String.eqb id) D = true.
Proof.
  intros H. apply existsb_exists. exists id. split; [exact H|].
  apply String.eqb_refl.
Qed.

Lemma filter_all_doomed (D xs : list string) :
  (forall id, In id xs -> In id D) ->
  filter (fun id => negb (existsb (String.eqb id) D)) xs = [].
Proof.
  induction xs as [|x xs IH]; intros Hall; simpl; [reflexivity|].
  rewrite (doomed_eqb _ _ (Hall x (or_introl eq_refl))). simpl.
  apply IH. intros id Hid. apply Hall. now right.
Qed.

(** Of the credentials that hold a secret, the cleaning leaves the first
    one and only that one. *)
Lemma survivors_of (l : list ApiKeyEntry) (k first : string)
  (others : list string) :
  NoDup (map entry_id l) ->
  ids_with k l = first :: others ->
  filter (fun id => negb (existsb (String.eqb id)
                            (doomed (duplicates_of (group_by_key l)))))
         (first :: others)
  = [first].
Proof.
  intros Hnd Hids. simpl.
  rewrite (not_doomed_eqb _ _ (first_not_doomed l k first others Hnd Hids)).
  simpl. f_equal.
  destruct others as [|o others]; [reflexivity|].
  apply filter_all_doomed.
  { intros id Hid. unfold doomed. apply in_flat_map.
    exists (mkGroup (maskedKey k) (ids_with k l) (List.length (ids_with k l))).
    split.
    - apply duplicates_of_In. exists k. split; [reflexivity|].
      rewrite Hids. simpl. lia.
    - simpl. rewrite Hids. exact Hid. }
Qed.

Lemma secrets_ids_with (k : string) (s : KV) :
  In k (secrets s) <-> ids_with k (map snd s) <> [].
Proof.
  unfold secrets. split.
  - intros Hin Hnil. apply in_map_iff in Hin. destruct Hin as (p & Hk & Hp).
    assert (H : In (entry_id (snd p)) (ids_with k (map snd s))).
    { apply ids_with_In. exists (snd p). split; [now apply in_map|auto]. }
    rewrite Hnil in H. contradiction.
  - intros Hne. destruct (ids_with k (map snd s)) as [|id ids] eqn:Hids;
      [contradiction|].
    assert (H : In id (ids_with k (map snd s))) by (rewrite Hids; now left).
    apply ids_with_In in H. destruct H as (e & He & _ & Hk).
    apply in_map_iff in He. destruct He as (p & <- & Hp).
    apply in_map_iff. now exists p.
Qed.

Lemma clean_run (w : World) :
  calm w ->
  let groups := duplicates_of (group_by_key (map snd (kv w))) in
  exists w',
    handle_duplicates_clean w
    = (Ok (Json 200 (List.length (doomed groups))), w') /\
    kv w' = delete_all (doomed groups) (kv w) /\
    calm w'.
Proof.
  intros Hcalm groups.
  destruct (clean_groups_run groups 0 _ (calm_after_kv w (kv w) Hcalm))
    as (w' & Hrun & Hkv & _ & Hc).
  exists w'. split; [|split; [exact Hkv|exact Hc]].
  unfold handle_duplicates_clean. apply try_ok.
  unfold findDuplicateKeys.
  erewrite bind_ok.
  2:{ erewrite bind_ok by (apply getAllApiKeys_run; now apply calm_read_ok).
      reflexivity. }
  fold groups. erewrite bind_ok by exact Hrun. reflexivity.
Qed.

End CleanComplete.

(** X4: on a store with unique IDs whose operations succeed, the cleaning
    of duplicates loses no secret (every secret held before is still held
    afterwards, and no secret is new), leaves nothing for
    [findDuplicateKeys] to report, and is idempotent: a second cleaning
    deletes nothing and leaves the store as it is. *)
Theorem clean_is_complete :
  forall w : World,
    calm w ->
    store_ok (kv w) ->
    exists n w',
      handle_duplicates_clean w = (Ok (Json 200 n), w') /\
      (forall k, In k (secrets (kv w')) <-> In k (secrets (kv w))) /\
      fst (findDuplicateKeys w') = Ok [] /\
      exists w'',
        handle_duplicates_clean w' = (Ok (Json 200 0%nat), w'') /\
        kv w'' = kv w'.
Proof.
  intros w Hcalm Hok.
  destruct (clean_run w Hcalm) as (w' & Hrun & Hkv & Hcalm').
  set (D := doomed (duplicates_of (group_by_key (map snd (kv w))))) in *.
  assert (Hnd : NoDup (map entry_id (map snd (kv w)))).
  { rewrite (store_ok_ids _ Hok). apply Hok. }
  assert (Hids : forall k,
             ids_with k (map snd (kv w'))
             = match ids_with k (map snd (kv w)) with
               | [] => []
               | first :: _ => [first]
               end).
  { intros k. rewrite Hkv, ids_with_delete_all by apply Hok.
    destruct (ids_with k (map snd (kv w))) as [|first others] eqn:Hk;
      [reflexivity|].
    exact (survivors_of _ k first others Hnd Hk). }
  assert (Hnone : duplicates_of (group_by_key (map snd (kv w'))) = []).
  { destruct (duplicates_of (group_by_key (map snd (kv w')))) as [|g gs] eqn:Hg;
      [reflexivity|].
    assert (Hin : In g (duplicates_of (group_by_key (map snd (kv w')))))
      by (rewrite Hg; now left).
    apply duplicates_of_In in Hin. destruct Hin as (k & _ & Hlen).
    rewrite Hids in Hlen.
    destruct (ids_with k (map snd (kv w))); simpl in Hlen; lia. }
  eexists _, w'. split; [exact Hrun|]. split; [|split].
  - intros k. rewrite !secrets_ids_with, Hids.
    destruct (ids_with k (map snd (kv w))); split; congruence.
  - unfold findDuplicateKeys.
    erewrite bind_ok by (apply getAllApiKeys_run; now apply calm_read_ok).
    simpl. now rewrite Hnone.
  - destruct (clean_run w' Hcalm') as (w'' & Hrun' & Hkv' & _).
    rewrite Hnone in Hrun', Hkv'. simpl in Hrun', Hkv'.
    exists w''. split; [exact Hrun'|].
    now rewrite Hkv', delete_all_nil.
Qed.

Lemma clean_is_complete_witness :
  calm triple /\
  store_ok (kv triple) /\
  (exists n w',
      handle_duplicates_clean triple = (Ok (Json 200 n), w') /\
      (forall k, In k (secrets (kv w')) <-> In k (secrets (kv triple))) /\
      fst (findDuplicateKeys w') = Ok [] /\
      exists w'',
        handle_duplicates_clean w' = (Ok (Json 200 0%nat), w'') /\
        kv w'' = kv w').
Proof.
  assert (H0 : calm triple) by (constructor).
  assert (H1 : store_ok (kv triple)) by (split; [repeat constructor; simpl; intuition discriminate | repeat constructor]).
  split; [exact H0|].
  split; [exact H1|].
  exact (clean_is_complete triple H0 H1).
Defined.

(** ** What [findDuplicateKeys] reports *)

Section Groups.

Lemma duplicates_of_repeated (m : KeyMap) (l : list ApiKeyEntry) :
  (forall k ids, In (k, ids) m -> ids = ids_with k l) ->
  duplicates_of m
  = map (fun k => mkGroup (maskedKey k) (ids_with k l)
                          (List.length (ids_with k l)))
        (repeated m).
Proof.
  unfold duplicates_of, repeated.
  induction m as [|[k ids] m IH]; intros Hm; [reflexivity|].
  assert (Hids : ids = ids_with k l) by (apply Hm; now left).
  assert (Hrest : forall k' ids', In (k', ids') m -> ids' = ids_with k' l)
    by (intros k' ids' Hin; apply Hm; now right).
  cbn [flat_map filter snd].
  destruct (1 <? List.length ids)%nat; cbn [map fst app];
    rewrite (IH Hrest); [now rewrite <- Hids|reflexivity].
Qed.

Lemma repeated_In (m : KeyMap) (k : string) :
  In k (repeated m) ->
  exists ids, In (k, ids) m /\ (1 < List.length ids)%nat.
Proof.
  unfold repeated. induction m as [|[k0 ids0] m IH]; [intros []|].
  cbn [filter snd].
  destruct (1 <? List.length ids0)%nat eqn:Hlen.
  - intros [<-|Hin].
    + exists ids0. split; [now left|now apply Nat.ltb_lt].
    + destruct (IH Hin) as (ids & Hm & Hids). exists ids. split; [now right|exact Hids].
  - intros Hin. destruct (IH Hin) as (ids & Hm & Hids).
    exists ids. split; [now right|exact Hids].
Qed.

Lemma repeated_once (m : KeyMap) :
  NoDup (map fst m) -> NoDup (repeated m).
Proof.
  induction m as [|[k0 ids0] m IH]; intros Hnd; [constructor|].
  inversion Hnd as [|? ? Hfresh Hrest]; subst.
  unfold repeated. cbn [filter snd].
  destruct (1 <? List.length ids0)%nat; [|exact (IH Hrest)].
  cbn [map fst]. constructor; [|exact (IH Hrest)].
  intros Hin. apply Hfresh. destruct (repeated_In m k0 Hin) as (ids & Hm & _).
  apply in_map_iff. now exists (k0, ids).
Qed.

(** The groups reported for the entries [l]: one for each secret held by
    two entries or more. *)
Lemma duplicates_of_once (l : list ApiKeyEntry) :
  exists ks,
    NoDup ks /\
    (forall k, In k ks <-> (2 <= List.length (ids_with k l))%nat) /\
    duplicates_of (group_by_key l)
    = map (fun k => mkGroup (maskedKey k) (ids_with k l)
                            (List.length (ids_with k l))) ks.
Proof.
  destruct (group_by_key_grouped l) as [Hnd Hget].
  assert (Hfiled : forall k ids, In (k, ids) (group_by_key l) ->
                                 ids = ids_with k l).
  { intros k ids Hin. apply (map_get_In _ _ _ Hnd) in Hin.
    rewrite Hget in Hin. destruct (ids_with k l); [discriminate|].
    now injection Hin as <-. }
  exists (repeated (group_by_key l)).
  split; [exact (repeated_once _ Hnd)|].
  split; [|exact (duplicates_of_repeated _ l Hfiled)].
  intros k. split.
  - intros Hin. destruct (repeated_In _ k Hin) as (ids & Hm & Hlen).
    rewrite <- (Hfiled k ids Hm). lia.
  - intros Hlen. unfold repeated.
    change k with (fst (k, ids_with k l)). apply in_map.
    apply filter_In. split.
    + apply In_map_get. rewrite Hget.
      destruct (ids_with k l); [simpl in Hlen; lia|reflexivity].
    + cbn [snd]. apply Nat.ltb_lt. lia.
Qed.

End Groups.

(** X5: when the listing of the store succeeds, [findDuplicateKeys] leaves
    the store as it is and reports exactly the secrets held by two
    credentials or more: one group per such secret, with the masked secret,
    the IDs of all its credentials in the iteration order of the store, and
    their number.  Running it again on the unchanged store reports the same
    groups. *)
Theorem find_duplicates_report :
  forall w : World,
    read_ok w = true ->
    exists groups w',
      findDuplicateKeys w = (Ok groups, w') /\
      kv w' = kv w /\
      (exists ks,
          NoDup ks /\
          (forall k,
              In k ks <->
              In k (secrets (kv w)) /\
              (2 <= List.length (ids_with k (map snd (kv w))))%nat) /\
          groups
          = map (fun k =>
                   mkGroup (maskedKey k) (ids_with k (map snd (kv w)))
                           (List.length (ids_with k (map snd (kv w)))))
                ks) /\
      (forall w2, kv w2 = kv w -> read_ok w2 = true ->
                  fst (findDuplicateKeys w2) = Ok groups).
Proof.
  intros w Hread.
  exists (duplicates_of (group_by_key (map snd (kv w)))), (after_kv w (kv w)).
  split; [|split; [reflexivity|split]].
  - unfold findDuplicateKeys.
    erewrite bind_ok by (apply getAllApiKeys_run; exact Hread). reflexivity.
  - destruct (duplicates_of_once (map snd (kv w))) as (ks & Hnd & Hin & Hgroups).
    exists ks. split; [exact Hnd|]. split; [|exact Hgroups].
    intros k. rewrite Hin. split; [|tauto].
    intros Hlen. split; [|exact Hlen].
    apply secrets_ids_with. intros Hnil. rewrite Hnil in Hlen.
    simpl in Hlen. lia.
  - intros w2 Hkv Hread2. unfold findDuplicateKeys.
    erewrite bind_ok by (apply getAllApiKeys_run; exact Hread2).
    simpl. now rewrite Hkv.
Qed.

Lemma find_duplicates_report_witness :
  read_ok triple = true /\
  (exists groups w',
      findDuplicateKeys triple = (Ok groups, w') /\
      kv w' = kv triple /\
      (exists ks,
          NoDup ks /\
          (forall k,
              In k ks <->
              In k (secrets (kv triple)) /\
              (2 <= List.length (ids_with k (map snd (kv triple))))%nat) /\
          groups
          = map (fun k =>
                   mkGroup (maskedKey k) (ids_with k (map snd (kv triple)))
                           (List.length (ids_with k (map snd (kv triple)))))
                ks) /\
      (forall w2, kv w2 = kv triple -> read_ok w2 = true ->
                  fst (findDuplicateKeys w2) = Ok groups)).
Proof.
  assert (H0 : read_ok triple = true) by (reflexivity).
  split; [exact H0|].
  exact (find_duplicates_report triple H0).
Defined.

(** ** Importing what is there *)

Section ImportKnown.

Lemma secrets_existsb (key : string) (s : KV) :
  In key (secrets s) ->
  existsb (fun entry => (entry_key entry =? key)%string) (map snd s) = true.
Proof.
  intros H. apply existsb_key. unfold secrets in H. apply in_map_iff in H.
  destruct H as (p & Hk & Hp). exists (snd p). split; [now apply in_map|exact Hk].
Qed.

Lemma import_known_from (keys : list string) :
  forall (i : nat) (t : Tally) (w : World),
    calm w ->
    all_known keys (kv w) ->
    exists w',
      import_from i keys t w
      = (Ok (mkTally (success t) (failed t) (duplicates t + non_blank keys)
                     (duplicateKeys t ++ masked_entries keys)), w') /\
      kv w' = kv w.
Proof.
  unfold non_blank, masked_entries.
  induction keys as [|raw rest IH]; intros i t w Hcalm Hknown; simpl.
  - exists w. rewrite Nat.add_0_r, app_nil_r. destruct t. now split.
  - assert (Hrest : all_known rest (kv w))
      by (intros r Hr; apply Hknown; now right).
    rewrite non_empty_length.
    destruct (JS.trim raw =? "")%string eqn:Hblank; simpl.
    + exact (IH (S i) t w Hcalm Hrest).
    + destruct (Hknown raw (or_introl eq_refl)) as [Hb|Hin];
        [apply String.eqb_neq in Hblank; contradiction|].
      pose proof (checkDuplicateKey_run (JS.trim raw) w) as Hcheck.
      rewrite (calm_read_ok w Hcalm), (secrets_existsb _ _ Hin) in Hcheck.
      erewrite bind_ok.
      2:{ apply try_ok. unfold import_one.
          erewrite bind_ok by exact Hcheck. cbv iota.
          erewrite bind_ok by apply console_log_run. reflexivity. }
      match goal with
      | |- context [import_from (S i) rest ?t1 ?w1] =>
          destruct (IH (S i) t1 w1) as (w' & Hrun & Hkv)
      end.
      * apply calm_add_lines, calm_after_kv, Hcalm.
      * exact Hrest.
      * exists w'. rewrite Hrun. cbn [success failed duplicates duplicateKeys].
        split; [|exact Hkv].
        rewrite <- app_assoc, <- plus_n_Sm. reflexivity.
Qed.

End ImportKnown.

(** X6: on a store whose operations succeed, an import whose non-blank
    entries are all secrets of the store changes nothing: the store is left
    as it is, [success] and [failed] are 0, [duplicates] is the number of
    non-blank entries, and the masked form of each of them is recorded, in
    the order of the input. *)
Theorem import_of_known_secrets :
  forall (keys : list string) (w : World),
    calm w ->
    all_known keys (kv w) ->
    exists w',
      batchImportKeys keys w
      = (Ok (mkTally 0 0 (non_blank keys) (masked_entries keys)), w') /\
      kv w' = kv w.
Proof.
  intros keys w Hcalm Hknown.
  exact (import_known_from keys 0 (mkTally 0 0 0 []) w Hcalm Hknown).
Qed.

Lemma import_of_known_secrets_witness :
  calm import_world /\
  all_known known_input (kv import_world) /\
  (exists w',
      batchImportKeys known_input import_world
      = (Ok (mkTally 0 0 (non_blank known_input) (masked_entries known_input)), w') /\
      kv w' = kv import_world).
Proof.
  assert (H0 : calm import_world) by (constructor).
  assert (H1 : all_known known_input (kv import_world)) by (intros raw H; simpl in H; destruct H as [<-|[<-|[<-|[<-|[]]]]]; [left|right; left|right; left|left]; reflexivity).
  split; [exact H0|].
  split; [exact H1|].
  exact (import_of_known_secrets known_input import_world H0 H1).
Defined.

(** ** Masks of short secrets *)

Lemma string_of_list_of_string (s : string) :
  string_of_list_ascii (list_ascii_of_string s) = s.
Proof. induction s as [|c s IH]; simpl; congruence. Qed.

(** X7: a secret of at most 4 characters is not hidden by its masked forms:
    the mask of [GET /api/keys], of the duplicate report and of the success
    path of the fetch is the secret, ["..."], and the secret again; the
    form of the failure paths and of the log line of the import is the
    secret followed by ["..."]. *)
Theorem short_secret_shown :
  forall key : string,
    (String.length key <= 4)%nat ->
    maskedKey key = (key ++ "..." ++ key)%string /\
    prefixKey key = (key ++ "...")%string.
Proof.
  intros key Hlen.
  rewrite maskedKey_spec, prefixKey_spec.
  unfold spec_masked, first_chars, last_chars.
  rewrite list_ascii_length.
  replace (String.length key - 4)%nat with 0%nat by lia.
  rewrite firstn_all2 by (rewrite list_ascii_length; lia).
  simpl skipn. rewrite string_of_list_of_string. split; reflexivity.
Qed.

Lemma short_secret_shown_witness :
  (String.length "abc" <= 4)%nat /\
  (maskedKey "abc" = ("abc" ++ "..." ++ "abc")%string /\
    prefixKey "abc" = ("abc" ++ "...")%string).
Proof.
  assert (H0 : (String.length "abc" <= 4)%nat) by (simpl; lia).
  split; [exact H0|].
  exact (short_secret_shown "abc" H0).
Defined.

(** ** The zero-balance route, whatever fails *)

Section ZeroBalance.

Lemma delete_identified_any (ids : list string) :
  forall (n : nat) (w : World),
  exists m done w',
    delete_identified ids n w = (Ok m, w') /\
    kv w' = delete_all done (kv w) /\
    incl done ids /\
    (n <= m <= n + List.length ids)%nat.
Proof.
  induction ids as [|id ids IH]; intros n w; simpl.
  - exists n, [], w. rewrite delete_all_nil.
    repeat split; [intros x []|lia|lia].
  - destruct (read_ok w) eqn:Hread.
    + destruct (IH (S n) (after_kv w (kv_delete id (kv w))))
        as (m & done & w' & Hrun & Hkv & Hincl & Hm).
      exists m, (id :: done), w'. split; [|split; [|split]].
      * erewrite bind_ok.
        2:{ apply try_ok.
            erewrite bind_ok by (apply deleteApiKey_run; exact Hread).
            reflexivity. }
        exact Hrun.
      * rewrite Hkv. simpl. apply delete_all_cons.
      * intros x [<-|Hx]; [now left|right; now apply Hincl].
      * lia.
    + match goal with
      | |- context [try_catch ?m ?h] =>
          assert (Hthrow : try_catch m h w
                           = (Ok n, add_lines (after_kv w (kv w))
                                ["Failed to delete key " ++ id ++ ": "
                                 ++ "KV operation failed"]%string))
      end.
      { unfold deleteApiKey.
        erewrite try_throw
          by (erewrite bind_throw by (apply kv_op_throws; exact Hread);
              reflexivity).
        erewrite bind_ok by apply console_log_run. reflexivity. }
      destruct (IH n (add_lines (after_kv w (kv w))
                        ["Failed to delete key " ++ id ++ ": "
                         ++ "KV operation failed"]%string))
        as (m & done & w' & Hrun & Hkv & Hincl & Hm).
      exists m, done, w'. split; [|split; [|split]].
      * erewrite bind_ok by exact Hthrow. exact Hrun.
      * exact Hkv.
      * intros x Hx. right. now apply Hincl.
      * lia.
Qed.

End ZeroBalance.

(** X8: whatever operations of the store fail,
    [POST /api/keys/zero-balance/delete] on a store with unique IDs never
    deletes a credential for which the remote did not answer 2xx with an
    allowance minus consumption of at most 0: such a pair is still in the
    store afterwards, nothing is added, and the count of deleted keys is at
    most the number of keys selected.  When the listing of the store throws
    the route answers 500 and nothing is deleted. *)
Theorem zero_balance_spares_the_rest :
  forall w : World,
    store_ok (kv w) ->
    exists reply w',
      handle_zero_balance_delete w = (Ok reply, w') /\
      (forall p, In p (kv w) -> exhausted (remote w) (snd p) = false ->
                 In p (kv w')) /\
      incl (kv w') (kv w) /\
      match reply with
      | Json status (n, total) =>
          status = 200 /\ (n <= total)%nat /\
          total = List.length (filter (exhausted (remote w)) (map snd (kv w)))
      | ErrorJson status _ => status = 500 /\ kv w' = kv w
      end.
Proof.
  intros w Hok. unfold handle_zero_balance_delete.
  destruct (read_ok w) eqn:Hread.
  - destruct (check_balances_run (map snd (kv w)) [] (after_kv w (kv w)))
      as (lines & Hcheck). simpl in Hcheck.
    set (ids := map entry_id (filter (exhausted (remote w)) (map snd (kv w))))
      in *.
    destruct (delete_identified_any ids 0
                (add_lines (after_kv w (kv w)) lines))
      as (m & done & w' & Hdel & Hkv & Hincl & Hm).
    simpl in Hkv.
    eexists _, w'. split; [|split; [|split]].
    + apply try_ok.
      erewrite bind_ok by (apply getAllApiKeys_run; exact Hread).
      erewrite bind_ok by exact Hcheck.
      erewrite bind_ok by exact Hdel. reflexivity.
    + intros p Hp Hex. rewrite Hkv. apply delete_all_keeps; [exact Hp|].
      intros Hin. apply Hincl in Hin. unfold ids in Hin.
      apply in_map_iff in Hin. destruct Hin as (e & He & Hin).
      apply filter_In in Hin. destruct Hin as [Hin Hexh].
      apply in_map_iff in Hin. destruct Hin as (q & <- & Hq).
      destruct Hok as [Hnd Hid]. rewrite Forall_forall in Hid.
      assert (q = p); [|subst q; congruence].
      apply (NoDup_map_inj fst (kv w) q p Hnd Hq Hp).
      rewrite <- (Hid q Hq). exact He.
    + rewrite Hkv. apply delete_all_incl.
    + simpl. split; [reflexivity|]. subst ids.
      rewrite length_map in *. split; [lia|reflexivity].
  - eexists _, _. split; [|split; [|split]].
    + erewrite try_throw.
      2:{ unfold getAllApiKeys.
          erewrite bind_throw by (apply kv_op_throws; exact Hread).
          reflexivity. }
      reflexivity.
    + intros p Hp _. exact Hp.
    + intros p Hp. exact Hp.
    + simpl. split; reflexivity.
Qed.

Lemma zero_balance_spares_the_rest_witness :
  store_ok (kv scenario) /\
  (exists reply w',
      handle_zero_balance_delete scenario = (Ok reply, w') /\
      (forall p, In p (kv scenario) -> exhausted (remote scenario) (snd p) = false ->
                 In p (kv w')) /\
      incl (kv w') (kv scenario) /\
      match reply with
      | Json status (n, total) =>
          status = 200 /\ (n <= total)%nat /\
          total = List.length (filter (exhausted (remote scenario)) (map snd (kv scenario)))
      | ErrorJson status _ => status = 500 /\ kv w' = kv scenario
      end).
Proof.
  assert (H0 : store_ok (kv scenario)) by (split; [repeat constructor; simpl; intuition discriminate | repeat constructor]).
  split; [exact H0|].
  exact (zero_balance_spares_the_rest scenario H0).
Defined.

(** ** Adding a key *)

Section AddKey.

Lemma saveApiKey_named (id key : string) (name : option string) (w : World) :
  saveApiKey id key name w
  = if read_ok (after_now w)
    then (Ok tt,
          after_kv (after_now w)
            (kv_set id (new_entry id key name (now (after_now w)))
                    (kv (after_now w))))
    else (Throw "KV operation failed",
          after_kv (after_now w) (kv (after_now w))).
Proof.
  unfold saveApiKey, new_entry.
  erewrite bind_ok by apply date_now_run.
  destruct (read_ok (after_now w)) eqn:Hw.
  - now rewrite kv_op_run.
  - now rewrite kv_op_throws.
Qed.

Lemma calm_after_now (w : World) : calm w -> calm (after_now w).
Proof. unfold calm. now rewrite after_now_faults. Qed.

(** An add whose key is given, on a store whose operations succeed. *)
Lemma route_add_run (b : Body) (key : string) (w : World) :
  calm w ->
  body_key b = Some key ->
  key <> "" ->
  let w1 := after_now w in
  let w2 := after_now w1 in
  let id := ("key-" ++ JS.of_Z (now w1))%string in
  route_add (Ok b) w
  = (Ok (Json 200 id),
     after_kv w2 (kv_set id (new_entry id key (body_name b) (now w2)) (kv w))).
Proof.
  intros Hcalm Hkey Hne w1 w2 id. unfold route_add. apply try_ok.
  erewrite bind_ok by reflexivity. rewrite Hkey. unfold JS.truthy.
  apply String.eqb_neq in Hne. rewrite Hne. cbn [negb].
  erewrite bind_ok by apply date_now_run. fold w1. fold id.
  pose proof (saveApiKey_named id key (body_name b) w1) as Hsave.
  fold w2 in Hsave.
  rewrite (calm_read_ok w2) in Hsave
    by (unfold w2, w1; now repeat apply calm_after_now).
  erewrite bind_ok by exact Hsave.
  unfold w2, w1. now rewrite !after_now_kv.
Qed.

End AddKey.

(** X9: on a store whose operations succeed, [POST /api/keys] with a body
    whose key is absent or empty answers 400 and changes nothing; otherwise
    it files the secret under the ID ["key-" + Date.now()] and answers 200
    with that ID: the credential can then be read back in full under the
    ID, it has no note, and the credentials filed under other IDs are as
    they were. *)
Theorem add_then_read_back :
  forall (b : Body) (w : World),
    calm w ->
    if JS.truthy (body_key b) then
      exists key id e w',
        body_key b = Some key /\
        id = ("key-" ++ JS.of_Z (now (after_now w)))%string /\
        route_add (Ok b) w = (Ok (Json 200 id), w') /\
        kv_get id (kv w') = Some e /\
        entry_id e = id /\ entry_key e = key /\ entry_note e = None /\
        fst (handle_full id w') = Ok (Json 200 key) /\
        (forall id', id' <> id -> kv_get id' (kv w') = kv_get id' (kv w))
    else
      route_add (Ok b) w = (Ok (ErrorJson 400 "Key is required"), w).
Proof.
  intros b w Hcalm.
  destruct (JS.truthy (body_key b)) eqn:Htruthy.
  - destruct (body_key b) as [key|] eqn:Hkey; [|discriminate].
    assert (Hne : key <> "").
    { simpl in Htruthy. apply negb_true_iff in Htruthy.
      now apply String.eqb_neq. }
    pose proof (route_add_run b key w Hcalm Hkey Hne) as Hrun.
    cbv zeta in Hrun.
    eexists key, _, _, _. split; [reflexivity|]. split; [reflexivity|].
    split; [exact Hrun|]. simpl kv.
    split; [apply kv_get_set_same|]. split; [reflexivity|].
    split; [reflexivity|]. split; [reflexivity|]. split.
    + unfold handle_full, getApiKey.
      erewrite try_ok; [reflexivity|].
      erewrite bind_ok.
      2:{ apply kv_op_run. apply calm_read_ok, calm_after_kv.
          now repeat apply calm_after_now. }
      simpl. rewrite kv_get_set_same. reflexivity.
    + intros id' Hid'. now apply kv_get_set_other.
  - unfold route_add. apply try_ok.
    erewrite bind_ok by reflexivity. rewrite Htruthy. reflexivity.
Qed.

Lemma add_then_read_back_witness :
  calm import_world /\
  (if JS.truthy (body_key (add_body (Some secret_B) None)) then
      exists key id e w',
        body_key (add_body (Some secret_B) None) = Some key /\
        id = ("key-" ++ JS.of_Z (now (after_now import_world)))%string /\
        route_add (Ok (add_body (Some secret_B) None)) import_world = (Ok (Json 200 id), w') /\
        kv_get id (kv w') = Some e /\
        entry_id e = id /\ entry_key e = key /\ entry_note e = None /\
        fst (handle_full id w') = Ok (Json 200 key) /\
        (forall id', id' <> id -> kv_get id' (kv w') = kv_get id' (kv import_world))
    else
      route_add (Ok (add_body (Some secret_B) None)) import_world = (Ok (ErrorJson 400 "Key is required"), import_world)).
Proof.
  assert (H0 : calm import_world) by (constructor).
  split; [exact H0|].
  exact (add_then_read_back (add_body (Some secret_B) None) import_world H0).
Defined.

(** X10: the ID of an added key is made of the clock reading alone: when
    two adds are served at the same clock reading (on a store whose
    operations succeed), both answer 200 with the same ID, the second
    secret replaces the first under that ID, and the store holds no more
    IDs than after the first add. *)
Theorem add_same_instant_overwrites :
  forall (b1 b2 : Body) (w : World),
    calm w ->
    ticks w = [] ->
    JS.truthy (body_key b1) = true ->
    JS.truthy (body_key b2) = true ->
    exists id w1 w2 e,
      route_add (Ok b1) w = (Ok (Json 200 id), w1) /\
      route_add (Ok b2) w1 = (Ok (Json 200 id), w2) /\
      kv_get id (kv w2) = Some e /\
      Some (entry_key e) = body_key b2 /\
      (forall id', kv_get id' (kv w2) = None <-> kv_get id' (kv w1) = None).
Proof.
  intros b1 b2 w Hcalm Hticks H1 H2.
  assert (Hkey : forall b, JS.truthy (body_key b) = true ->
                   exists key, body_key b = Some key /\ key <> "").
  { intros b Hb. destruct (body_key b) as [key|]; [|discriminate].
    exists key. split; [reflexivity|]. simpl in Hb.
    apply negb_true_iff in Hb. now apply String.eqb_neq. }
  destruct (Hkey b1 H1) as (k1 & Hk1 & Hne1).
  destruct (Hkey b2 H2) as (k2 & Hk2 & Hne2).
  assert (Hstill : forall w0, ticks w0 = [] -> after_now w0 = w0).
  { intros w0 H0. unfold after_now, date_now. now rewrite H0. }
  pose proof (route_add_run b1 k1 w Hcalm Hk1 Hne1) as Hrun1.
  cbv zeta in Hrun1. rewrite !(Hstill w Hticks) in Hrun1.
  set (id := ("key-" ++ JS.of_Z (now w))%string) in *.
  set (w1 := after_kv w (kv_set id (new_entry id k1 (body_name b1) (now w))
                               (kv w))) in *.
  assert (Hcalm1 : calm w1) by now apply calm_after_kv.
  assert (Hticks1 : ticks w1 = []) by exact Hticks.
  pose proof (route_add_run b2 k2 w1 Hcalm1 Hk2 Hne2) as Hrun2.
  cbv zeta in Hrun2. rewrite !(Hstill w1 Hticks1) in Hrun2.
  change (now w1) with (now w) in Hrun2. fold id in Hrun2.
  eexists id, w1, _, _. split; [exact Hrun1|]. split; [exact Hrun2|].
  simpl kv. split; [apply kv_get_set_same|]. split; [now rewrite Hk2|].
  intros id'. destruct (String.eqb_spec id' id) as [->|Hne].
  - rewrite !kv_get_set_same. split; discriminate.
  - rewrite (kv_get_set_other id id' _ _ Hne). reflexivity.
Qed.

Lemma add_same_instant_overwrites_witness :
  calm triple /\
  ticks triple = [] /\
  JS.truthy (body_key (add_body (Some secret_A) None)) = true /\
  JS.truthy (body_key (add_body (Some secret_B) None)) = true /\
  (exists id w1 w2 e,
      route_add (Ok (add_body (Some secret_A) None)) triple = (Ok (Json 200 id), w1) /\
      route_add (Ok (add_body (Some secret_B) None)) w1 = (Ok (Json 200 id), w2) /\
      kv_get id (kv w2) = Some e /\
      Some (entry_key e) = body_key (add_body (Some secret_B) None) /\
      (forall id', kv_get id' (kv w2) = None <-> kv_get id' (kv w1) = None)).
Proof.
  assert (H0 : calm triple) by (constructor).
  assert (H1 : ticks triple = []) by (reflexivity).
  assert (H2 : JS.truthy (body_key (add_body (Some secret_A) None)) = true) by (reflexivity).
  assert (H3 : JS.truthy (body_key (add_body (Some secret_B) None)) = true) by (reflexivity).
  split; [exact H0|].
  split; [exact H1|].
  split; [exact H2|].
  split; [exact H3|].
  exact (add_same_instant_overwrites (add_body (Some secret_A) None) (add_body (Some secret_B) None) triple H0 H1 H2 H3).
Defined.

(** ** Updating a note *)

Section Note.

Lemma split_slash_no_slash (a : string) :
  no_slash a -> split_slash a = [a].
Proof.
  unfold no_slash. induction a as [|c a IH]; simpl; [reflexivity|].
  intros H. destruct (Ascii.eqb_spec c "/") as [->|Hc]; [tauto|].
  rewrite IH by tauto. reflexivity.
Qed.

Lemma split_slash_piece (a b : string) :
  no_slash a ->
  split_slash (a ++ String "/" b) = a :: split_slash b.
Proof.
  unfold no_slash. induction a as [|c a IH]; simpl; [reflexivity|].
  intros H. destruct (Ascii.eqb_spec c "/") as [->|Hc]; [tauto|].
  rewrite IH by tauto. reflexivity.
Qed.

Lemma split_key_path (id suffix : string) :
  no_slash id -> no_slash suffix ->
  split_slash (key_path id suffix) = [""; "api"; "keys"; id; suffix]%string.
Proof.
  intros Hid Hs. unfold key_path.
  change ("/api/keys/" ++ id ++ "/" ++ suffix)%string
    with ("" ++ String "/" ("api" ++ String "/" ("keys" ++ String "/"
            (id ++ String "/" suffix))))%string.
  rewrite !split_slash_piece, (split_slash_no_slash suffix Hs);
    try reflexivity; try exact Hid;
    unfold no_slash; simpl; intuition discriminate.
Qed.

(** In a store in key order, a [set] under a key that is there replaces
    the pair in place. *)
Lemma kv_set_replace (k : string) (v e : ApiKeyEntry) (s : KV) :
  store_sorted s ->
  kv_get k s = Some e ->
  kv_set k v s = map (fun p => if (fst p =? k)%string then (k, v) else p) s.
Proof.
  unfold store_sorted, kv_get.
  induction 1 as [|[k0 v0] s Hs IH Hall]; simpl; [discriminate|].
  intros Hget. rewrite Forall_forall in Hall.
  destruct (String.compare k k0) eqn:Hc.
  - apply String.compare_eq_iff in Hc. subst k0. rewrite String.eqb_refl.
    f_equal. rewrite <- (map_id s) at 1. apply map_ext_in. intros q Hq.
    specialize (Hall q Hq). simpl in Hall.
    rewrite string_compare_neq; [reflexivity|].
    rewrite Hall. discriminate.
  - exfalso. destruct (k0 =? k)%string eqn:H0.
    + apply String.eqb_eq in H0. subst k0.
      rewrite string_compare_refl in Hc. discriminate.
    + destruct (find _ s) as [q|] eqn:Hfind; [|discriminate].
      apply find_some in Hfind. destruct Hfind as [Hq Hk].
      apply String.eqb_eq in Hk. specialize (Hall q Hq). simpl in Hall.
      rewrite Hk in Hall.
      pose proof (string_compare_lt_trans _ _ _ Hc Hall) as Hkk.
      rewrite string_compare_refl in Hkk. discriminate.
  - rewrite (string_compare_neq k k0) in * by congruence.
    f_equal. now apply IH.
Qed.

Lemma kv_set_same_secret (k : string) (v e : ApiKeyEntry) (s : KV) :
  store_sorted s ->
  kv_get k s = Some e ->
  entry_key v = entry_key e ->
  secrets (kv_set k v s) = secrets s /\
  map fst (kv_set k v s) = map fst s.
Proof.
  intros Hs Hget Hv. rewrite (kv_set_replace k v e s Hs Hget).
  unfold secrets. rewrite !map_map.
  assert (Hp : forall p, In p s -> (fst p =? k)%string = true -> p = (k, e)).
  { intros p Hin Hk. apply String.eqb_eq in Hk.
    apply (NoDup_map_inj fst s p (k, e) (sorted_NoDup s Hs) Hin
             (kv_get_In k e s Hget)). exact Hk. }
  split; apply map_ext_in; intros p Hin;
    destruct (fst p =? k)%string eqn:Hk; try reflexivity;
    rewrite (Hp p Hin Hk); simpl; congruence.
Qed.

End Note.

(** X11: [PUT /api/keys/:id/note], on a store in key order whose operations
    succeed.  For an ID that is in the store the route answers 200 with the
    note as sent and files the entry again with the new note (no note when
    the one sent is empty or absent), its ID, secret, name and creation time
    unchanged; the IDs and the secrets of the store are as before and the
    other credentials are untouched.  For an ID that is not in the store it
    answers 404 and changes nothing. *)
Theorem note_update :
  forall (id : string) (note : option string) (w : World),
    calm w ->
    store_inv (kv w) ->
    no_slash id ->
    id <> "" ->
    match kv_get id (kv w) with
    | Some e =>
        exists w',
          route_note (key_path id "note") (Ok (note_body note)) w
          = (Ok (Json 200 note), w') /\
          kv_get id (kv w')
          = Some (mkEntry (entry_id e) (entry_key e) (entry_name e)
                          (if JS.truthy note then note else None)
                          (entry_createdAt e)) /\
          map fst (kv w') = map fst (kv w) /\
          secrets (kv w') = secrets (kv w) /\
          (forall id', id' <> id -> kv_get id' (kv w') = kv_get id' (kv w))
    | None =>
        exists w',
          route_note (key_path id "note") (Ok (note_body note)) w
          = (Ok (ErrorJson 404 "Key not found"), w') /\
          kv w' = kv w
    end.
Proof.
  intros id note w Hcalm Hinv Hslash Hne.
  assert (Hparts : before_last (split_slash (key_path id "note")) = Some id).
  { rewrite split_key_path; [reflexivity|exact Hslash|].
    unfold no_slash; simpl; intuition discriminate. }
  assert (Hget : getApiKey id w = (Ok (kv_get id (kv w)), after_kv w (kv w))).
  { unfold getApiKey. rewrite kv_op_run by now apply calm_read_ok.
    reflexivity. }
  apply String.eqb_neq in Hne.
  destruct (kv_get id (kv w)) as [e|] eqn:He.
  - eexists. split; [|split; [|split; [|split]]].
    + unfold route_note. apply try_ok. rewrite Hparts.
      unfold JS.truthy. rewrite Hne. cbn [negb].
      erewrite bind_ok by reflexivity.
      erewrite bind_ok by exact Hget. cbv iota.
      erewrite bind_ok.
      2:{ apply kv_op_run. apply calm_read_ok. now apply calm_after_kv. }
      reflexivity.
    + simpl kv. apply kv_get_set_same.
    + simpl kv. apply (kv_set_same_secret id _ e); [apply Hinv|exact He|].
      reflexivity.
    + simpl kv. apply (kv_set_same_secret id _ e); [apply Hinv|exact He|].
      reflexivity.
    + intros id' Hid'. simpl kv. now apply kv_get_set_other.
  - eexists. split.
    + unfold route_note. apply try_ok. rewrite Hparts.
      unfold JS.truthy. rewrite Hne. cbn [negb].
      erewrite bind_ok by reflexivity.
      erewrite bind_ok by exact Hget. reflexivity.
    + reflexivity.
Qed.

Lemma note_update_witness :
  calm scenario /\
  store_inv (kv scenario) /\
  no_slash "A" /\
  "A" <> "" /\
  (match kv_get "A" (kv scenario) with
    | Some e =>
        exists w',
          route_note (key_path "A" "note") (Ok (note_body (Some "spare key"))) scenario
          = (Ok (Json 200 (Some "spare key")), w') /\
          kv_get "A" (kv w')
          = Some (mkEntry (entry_id e) (entry_key e) (entry_name e)
                          (if JS.truthy (Some "spare key") then (Some "spare key") else None)
                          (entry_createdAt e)) /\
          map fst (kv w') = map fst (kv scenario) /\
          secrets (kv w') = secrets (kv scenario) /\
          (forall id', id' <> "A" -> kv_get id' (kv w') = kv_get id' (kv scenario))
    | None =>
        exists w',
          route_note (key_path "A" "note") (Ok (note_body (Some "spare key"))) scenario
          = (Ok (ErrorJson 404 "Key not found"), w') /\
          kv w' = kv scenario
    end).
Proof.
  assert (H0 : calm scenario) by (constructor).
  assert (H1 : store_inv (kv scenario)) by (split; repeat constructor).
  assert (H2 : no_slash "A") by (unfold no_slash; simpl; intuition discriminate).
  assert (H3 : "A" <> "") by (discriminate).
  split; [exact H0|].
  split; [exact H1|].
  split; [exact H2|].
  split; [exact H3|].
  exact (note_update "A" (Some "spare key") scenario H0 H1 H2 H3).
Defined.

(** ** The dashboard: a completed load *)

Section LoadComplete.

Lemma row_failure_loaded (keyEntry : SafeKey) (error : string) :
  error <> "" -> loaded_for keyEntry (row_failure keyEntry error).
Proof.
  intros Herror. unfold loaded_for, row_failure. simpl.
  repeat (split; [reflexivity|]). right. now exists error.
Qed.

Lemma load_body_row (keyEntry : SafeKey) (w w' : World) (r : Row) :
  load_body keyEntry w = (Ok r, w') -> loaded_for keyEntry r.
Proof.
  unfold load_body, bind, get_usage, object_keys, ret, throw.
  destruct (handle_usage (safe_id keyEntry) w) as [[reply|e] w1];
    [|discriminate].
  destruct (negb (status_ok (reply_status reply)));
    [intros [= <- _]; apply row_failure_loaded; discriminate|].
  destruct reply as [status [|[u|]]|status e]; try discriminate;
    try (intros [= <- _]; apply row_failure_loaded; discriminate).
  destruct (usage_standard u); intros [= <- _];
    [|apply row_failure_loaded; discriminate].
  unfold loaded_for; simpl. repeat (split; [reflexivity|]). now left.
Qed.

Lemma load_one_row (keyEntry : SafeKey) (w : World) :
  exists r w', load_one keyEntry w = (Ok r, w') /\ loaded_for keyEntry r.
Proof.
  unfold load_one, try_catch.
  destruct (load_body keyEntry w) as [[r|e] w1] eqn:Hbody.
  - exists r, w1. split; [reflexivity|]. exact (load_body_row _ _ _ _ Hbody).
  - eexists _, _. split; [reflexivity|]. apply row_failure_loaded.
    destruct (e =? "")%string eqn:He; [discriminate|].
    now apply String.eqb_neq.
Qed.

Lemma load_batch_rows (batch : list SafeKey) (w : World) :
  exists rows w',
    promise_all load_one batch w = (Ok rows, w') /\
    Forall2 loaded_for batch rows.
Proof.
  revert w. induction batch as [|k batch IH]; intros w; simpl.
  - exists [], w. split; [reflexivity|constructor].
  - destruct (load_one_row k w) as (r & w1 & Hr & Hfor).
    destruct (IH w1) as (rows & w' & Hrows & Hall).
    exists (r :: rows), w'. split; [|now constructor].
    erewrite bind_ok by exact Hr. erewrite bind_ok by exact Hrows.
    reflexivity.
Qed.

Lemma last_snoc {A} (l : list A) (x d : A) : last (l ++ [x]) d = x.
Proof.
  induction l as [|y l IH]; [reflexivity|].
  simpl. destruct (l ++ [x])%list eqn:Hl; [|exact IH].
  destruct l; discriminate.
Qed.

(** The loop of the loader: the rows of [allData] are replaced by the
    results, batch after batch. *)
Lemma load_loop_rows (bs : list (list SafeKey)) :
  forall (b : Browser) (results : list Row) (w : World),
  exists b' fresh w',
    load_loop bs b results w = (Ok (b', (results ++ fresh)%list), w') /\
    Forall2 loaded_for (List.concat bs) fresh /\
    cv_data (allData b')
    = fold_left (fun rows result => replace_row result rows) fresh
                (cv_data (allData b)) /\
    cv_update_time (allData b') = cv_update_time (allData b) /\
    cv_total_count (allData b') = cv_total_count (allData b) /\
    (bs <> [] -> settled b').
Proof.
  induction bs as [|batch rest IH]; intros b results w; simpl.
  - exists b, [], w. rewrite app_nil_r.
    split; [reflexivity|]. split; [constructor|].
    split; [reflexivity|]. split; [reflexivity|].
    split; [reflexivity|]. intros Hbs. now contradiction Hbs.
  - destruct (load_batch_rows batch w) as (rows & w1 & Hrows & Hall).
    erewrite bind_ok by exact Hrows.
    match goal with
    | |- context [load_loop rest ?b1 ?r1 w1] =>
        destruct (IH b1 r1 w1)
          as (b' & fresh & w' & Hrun & Hfresh & Hdata & Htime & Hcount & Hset)
    end.
    exists b', (rows ++ fresh)%list, w'. split; [|split; [|split; [|split; [|split]]]].
    + rewrite Hrun, <- app_assoc. reflexivity.
    + now apply Forall2_app.
    + rewrite Hdata, fold_left_app. reflexivity.
    + exact Htime.
    + exact Hcount.
    + intros _. destruct rest as [|batch' rest'].
      * simpl in Hrun. injection Hrun as <- _ _.
        unfold settled, displayData; simpl. split; [apply last_snoc|reflexivity].
      * apply Hset. discriminate.
Qed.

Lemma replace_row_at (done rows : list Row) (r s : Row) :
  ~ In (row_id s) (map row_id done) ->
  row_id s = row_id r ->
  replace_row s (done ++ r :: rows)%list = (done ++ s :: rows)%list.
Proof.
  intros Hnot Hid. induction done as [|d done IH]; simpl in *.
  - now rewrite Hid, String.eqb_refl.
  - destruct (row_id d =? row_id s)%string eqn:Hd.
    + apply String.eqb_eq in Hd. tauto.
    + f_equal. apply IH. tauto.
Qed.

(** With unique IDs, results that come in the order of the rows replace
    them all. *)
Lemma replace_all_rows (rows fresh done : list Row) :
  NoDup (map row_id (done ++ rows)%list) ->
  map row_id fresh = map row_id rows ->
  fold_left (fun rows result => replace_row result rows) fresh
            (done ++ rows)%list
  = (done ++ fresh)%list.
Proof.
  revert fresh done. induction rows as [|r rows IH]; intros fresh done Hnd Hids.
  - destruct fresh; [reflexivity|discriminate].
  - destruct fresh as [|s fresh]; [discriminate|].
    injection Hids as Hs Hids. simpl.
    rewrite replace_row_at; [| |exact Hs].
    + replace (done ++ s :: rows)%list with ((done ++ [s]) ++ rows)%list
        by now rewrite <- app_assoc.
      rewrite IH; [now rewrite <- app_assoc| |exact Hids].
      rewrite <- app_assoc. simpl.
      rewrite map_app in *. simpl in *. now rewrite Hs.
    + rewrite Hs. rewrite map_app in Hnd. simpl in Hnd.
      apply NoDup_remove_2 in Hnd. intros Hin. apply Hnd.
      apply in_or_app. now left.
Qed.

Lemma fold_add_map {A} (f : A -> Z) (l : list A) (acc : JS.double) :
  fold_left (fun sum r => JS.add sum (JS.double_of (f r))) l acc
  = fold_left (fun sum x => JS.add sum (JS.double_of x)) (map f l) acc.
Proof.
  revert acc. induction l as [|r l IH]; intros acc; simpl; [reflexivity|].
  apply IH.
Qed.

(** Of loaded rows, the filter of the totals keeps those without an error
    tag. *)
Lemma row_valid_untagged (keys : list SafeKey) (rows : list Row) :
  Forall2 loaded_for keys rows ->
  filter row_valid rows = filter row_untagged rows.
Proof.
  intros Hall. apply filter_ext_in. intros r Hr.
  destruct (Forall2_In_r _ _ _ _ Hall Hr) as (k & _ & _ & _ & _ & Hload & Herr).
  unfold row_valid, row_untagged. rewrite Hload.
  destruct Herr as [->|(m & -> & Hm)]; [reflexivity|].
  apply String.eqb_neq in Hm. unfold JS.truthy. now rewrite Hm.
Qed.

(** The totals of loaded rows, within the range. *)
Lemma client_totals_exact (keys : list SafeKey) (rows : list Row) :
  Forall2 loaded_for keys rows ->
  (exact_range 0 (row_counted row_totalAllowance rows) ->
   JS.integer_of (total_totalAllowance (client_totals rows))
   = Some (Zsum (row_counted row_totalAllowance rows))) /\
  (exact_range 0 (row_counted row_orgTotalTokensUsed rows) ->
   JS.integer_of (total_orgTotalTokensUsed (client_totals rows))
   = Some (Zsum (row_counted row_orgTotalTokensUsed rows))).
Proof.
  intros Hall. unfold client_totals.
  cbn [total_totalAllowance total_orgTotalTokensUsed].
  rewrite (row_valid_untagged keys rows Hall).
  rewrite (fold_add_map (fun r => JS.or_zero (row_totalAllowance r))).
  rewrite (fold_add_map (fun r => JS.or_zero (row_orgTotalTokensUsed r))).
  assert (Hfield : forall field : Row -> JS.num,
            map (fun r => JS.or_zero (field r)) (filter row_untagged rows)
            = row_counted field rows).
  { intros field. unfold row_counted. apply map_ext. intros r.
    apply or_zero_amount. }
  rewrite !Hfield.
  split; intros Hrange;
    destruct (fold_add_exact _ 0 ltac:(reflexivity) Hrange) as [-> Hbound];
    now apply integer_of_double.
Qed.

End LoadComplete.

Lemma handle_keys_run (w : World) :
  read_ok w = true ->
  handle_keys w
  = (Ok (Json 200 (map safe_of (map snd (kv w)))), after_kv w (kv w)).
Proof.
  intros Hread. unfold handle_keys. apply try_ok.
  erewrite bind_ok by (apply getAllApiKeys_run; exact Hread).
  reflexivity.
Qed.

(** X12: on a store with unique IDs, a load of the dashboard that can list
    the keys ends with one loaded row per stored credential (none for an
    empty store), in store order and under its masked secret, whatever
    happens to the single requests; no placeholder is
    left, the last view rendered is the final one and the store is as
    before.  For each of the two fields, as long as the amounts of the rows
    without an error and their running sums stay below [2^53] in magnitude,
    the total of the final view is the sum of these amounts. *)
Theorem load_completes (timeStr : Z) (b : Browser) (w : World) :
  read_ok w = true ->
  store_ok (kv w) ->
  exists b' rows w',
    loadData timeStr b w = (Ok (inl (b', rows)), w') /\
    Forall2 loaded_for (map safe_of (map snd (kv w))) rows /\
    cv_data (allData b') = rows /\
    cv_total_count (allData b') = List.length (kv w) /\
    (exact_range 0 (row_counted row_totalAllowance rows) ->
     JS.integer_of (total_totalAllowance (cv_totals (allData b')))
     = Some (Zsum (row_counted row_totalAllowance rows))) /\
    (exact_range 0 (row_counted row_orgTotalTokensUsed rows) ->
     JS.integer_of (total_orgTotalTokensUsed (cv_totals (allData b')))
     = Some (Zsum (row_counted row_orgTotalTokensUsed rows))) /\
    last (screen b') (allData b') = allData b' /\
    kv w' = kv w.
Proof.
  intros Hread [Hnd Hids].
  set (keys := map safe_of (map snd (kv w))).
  assert (Hstart :
    loadData timeStr b w
    = try_catch
        (loaded <- load_loop (batches keys)
                     (displayData (skeleton timeStr keys) b) [] ;;
         ret (inl loaded))
        (fun error => ret (inr ("加载失败: " ++ error)))
        (after_kv w (kv w))).
  { unfold loadData, try_catch.
    erewrite bind_ok by exact (handle_keys_run w Hread). reflexivity. }
  rewrite Hstart. clear Hstart.
  assert (Hcase : kv w = [] \/ kv w <> [])
    by (destruct (kv w); [now left|now right]).
  destruct Hcase as [Hkv|Hkv].
  - (* nothing to load: the skeleton is the final view *)
    unfold keys. rewrite Hkv.
    exists (displayData (skeleton timeStr []) b), [], (after_kv w []).
    split; [reflexivity|]. split; [constructor|].
    split; [reflexivity|]. split; [reflexivity|].
    split; [reflexivity|]. split; [reflexivity|].
    split; [apply last_snoc|reflexivity].
  - destruct (load_loop_rows (batches keys)
                (displayData (skeleton timeStr keys) b)
                [] (after_kv w (kv w)))
      as (b' & fresh & w' & Hrun & Hfresh & Hdata & _ & Hcount & Hset).
    destruct (batches_cover keys) as [Hcover _].
    rewrite Hcover in Hfresh.
    assert (Hrows : cv_data (allData b') = fresh).
    { rewrite Hdata. simpl.
      apply (replace_all_rows (map placeholder keys) fresh []).
      - simpl. rewrite map_map. simpl.
        unfold keys. rewrite !map_map. simpl.
        rewrite (map_ext_in _ fst); [exact Hnd|].
        intros q Hq. rewrite Forall_forall in Hids. now apply Hids.
      - rewrite map_map. simpl.
        clear - Hfresh. induction Hfresh as [|k r ks rs Hk _ IH];
          [reflexivity|].
        simpl. rewrite IH. destruct Hk as [-> _]. reflexivity. }
    destruct Hset as [Hlast Htotals].
    { intros Hnil. rewrite Hnil in Hcover. simpl in Hcover.
      unfold keys in Hcover. destruct (kv w); [now apply Hkv|discriminate]. }
    destruct (client_totals_exact keys fresh Hfresh) as [Hallowance Hused].
    exists b', fresh, w'.
    split; [apply try_ok; erewrite bind_ok by exact Hrun; reflexivity|].
    split; [exact Hfresh|]. split; [exact Hrows|].
    split; [rewrite Hcount; simpl; unfold keys; now rewrite !length_map|].
    split; [now rewrite Htotals, Hrows|].
    split; [now rewrite Htotals, Hrows|].
    split; [exact Hlast|].
    pose proof (load_loop_reads (batches keys)
                  (displayData (skeleton timeStr keys) b) []
                  (after_kv w (kv w))) as Hsame.
    rewrite Hrun in Hsame. simpl in Hsame. symmetry. exact Hsame.
Qed.

Lemma load_completes_witness :
  read_ok scenario = true /\
  store_ok (kv scenario) /\
  (exists b' rows w',
    loadData 0 blank_page scenario = (Ok (inl (b', rows)), w') /\
    map row_id rows = ["A"; "B"; "C"] /\
    map row_error rows = [None; None; Some "HTTP 401"] /\
    cv_data (allData b') = rows /\
    row_counted row_totalAllowance rows = [1000; 500] /\
    JS.integer_of (total_totalAllowance (cv_totals (allData b'))) = Some 1500 /\
    row_counted row_orgTotalTokensUsed rows = [400; 500] /\
    JS.integer_of (total_orgTotalTokensUsed (cv_totals (allData b')))
    = Some 900).
Proof.
  assert (H0 : read_ok scenario = true) by reflexivity.
  assert (H1 : store_ok (kv scenario))
    by (apply store_inv_ok; split; simpl; repeat constructor).
  split; [exact H0|]. split; [exact H1|].
  destruct (load_completes 0 blank_page scenario H0 H1)
    as (b' & rows & w' & Hrun & _ & Hrows & _ & Hallowance & Hused & _).
  exists b', rows, w'. split; [exact Hrun|].
  vm_compute in Hrun. injection Hrun as <- <- _.
  split; [reflexivity|]. split; [reflexivity|]. split; [reflexivity|].
  split; [reflexivity|].
  split; [apply Hallowance; vm_compute; intuition discriminate|].
  split; [reflexivity|].
  apply Hused; vm_compute; intuition discriminate.
Defined.

(** ** The dashboard: a cleanup before the load is over *)

Section EarlyCleanup.

Lemma placeholder_zero_balance (k : SafeKey) :
  row_failed (placeholder k) = false /\ row_zero_balance (placeholder k) = true.
Proof. split; reflexivity. Qed.

Lemma skeleton_all_invalid (timeStr : Z) (keys : list SafeKey) :
  allInvalidKeys (skeleton timeStr keys) = map placeholder keys.
Proof.
  unfold allInvalidKeys, skeleton. simpl.
  induction keys as [|k keys IH]; [reflexivity|].
  simpl in *. change (row_zero_balance (placeholder k)) with true.
  cbv iota. destruct (filter row_failed (map placeholder keys)) eqn:Hf.
  - simpl in *. now rewrite IH.
  - exfalso. assert (Hin : In r (filter row_failed (map placeholder keys)))
      by (rewrite Hf; now left).
    apply filter_In in Hin. destruct Hin as [Hin Hfail].
    apply in_map_iff in Hin. destruct Hin as (k' & <- & _). discriminate.
Qed.

Lemma delete_all_own_ids (s : KV) :
  Forall (fun p => entry_id (snd p) = fst p) s ->
  delete_all (map entry_id (map snd s)) s = [].
Proof.
  intros Hids. unfold delete_all.
  assert (Hall : forall p, In p s ->
            negb (existsb (String.eqb (fst p)) (map entry_id (map snd s)))
            = false).
  { intros p Hp. apply Bool.negb_false_iff, existsb_exists.
    exists (fst p). split; [|apply String.eqb_refl].
    rewrite map_map. apply in_map_iff. exists p. split; [|exact Hp].
    rewrite Forall_forall in Hids. now apply Hids. }
  rewrite (filter_ext_in _ (fun _ => false) s Hall).
  clear. induction s as [|q l IH]; [reflexivity|exact IH].
Qed.

End EarlyCleanup.

(** X13: a row that is still loading counts as a zero-balance key: its
    allowance and consumption are both 0 and it carries no error.  A cleanup
    confirmed on the first view of a load, before any usage has arrived,
    therefore sends the ID of every credential to the batch delete and, on a
    store whose operations succeed, empties the store. *)
Theorem cleanup_while_loading (timeStr : Z) (w : World) :
  calm w ->
  store_ok (kv w) ->
  kv w <> [] ->
  let keys := map safe_of (map snd (kv w)) in
  (forall (v : ClientView) (k : SafeKey),
      In (placeholder k) (cv_data v) ->
      In (safe_id k) (map row_id (allInvalidKeys v))) /\
  map row_id (allInvalidKeys (skeleton timeStr keys)) = map fst (kv w) /\
  exists w',
    clearInvalidKeysFromModal (Some (skeleton timeStr keys)) true w
    = (Ok (Some (Json 200 (mkBatchDeleted (List.length (kv w))
                                          (List.length (kv w)) []))), w') /\
    kv w' = [].
Proof.
  intros Hcalm [_ Hids] Hne keys.
  assert (Hsent : map row_id (allInvalidKeys (skeleton timeStr keys))
                  = map entry_id (map snd (kv w))).
  { rewrite skeleton_all_invalid. unfold keys. rewrite !map_map. reflexivity. }
  split; [|split].
  - intros v k Hin. apply in_map_iff. exists (placeholder k).
    split; [reflexivity|]. unfold allInvalidKeys. apply in_or_app. right.
    apply filter_In. split; [exact Hin|reflexivity].
  - rewrite Hsent, map_map. apply map_ext_in. intros p Hp.
    rewrite Forall_forall in Hids. now apply Hids.
  - unfold clearInvalidKeysFromModal.
    destruct (batch_delete_run (map row_id (allInvalidKeys (skeleton timeStr keys)))
                w Hcalm) as (w' & Hrun & Hkv).
    exists w'. split.
    + assert (Hlen : List.length (allInvalidKeys (skeleton timeStr keys))
                     = List.length (kv w)).
      { rewrite skeleton_all_invalid. unfold keys. now rewrite !length_map. }
      rewrite Hlen. destruct (kv w) as [|p s] eqn:Hs; [now contradiction Hne|].
      cbn [List.length Nat.eqb negb].
      erewrite bind_ok by exact Hrun.
      rewrite length_map, Hlen. reflexivity.
    + rewrite Hkv, Hsent. now apply delete_all_own_ids.
Qed.

Lemma cleanup_while_loading_witness :
  calm scenario /\
  store_ok (kv scenario) /\
  kv scenario <> [] /\
  (let keys := map safe_of (map snd (kv scenario)) in
   (forall (v : ClientView) (k : SafeKey),
      In (placeholder k) (cv_data v) ->
      In (safe_id k) (map row_id (allInvalidKeys v))) /\
   map row_id (allInvalidKeys (skeleton 0 keys)) = map fst (kv scenario) /\
   exists w',
     clearInvalidKeysFromModal (Some (skeleton 0 keys)) true scenario
     = (Ok (Some (Json 200 (mkBatchDeleted (List.length (kv scenario))
                                           (List.length (kv scenario)) []))), w') /\
     kv w' = []).
Proof.
  assert (H0 : calm scenario) by constructor.
  assert (H1 : store_ok (kv scenario))
    by (apply store_inv_ok; split; simpl; repeat constructor).
  assert (H2 : kv scenario <> []) by discriminate.
  split; [exact H0|]. split; [exact H1|]. split; [exact H2|].
  exact (cleanup_while_loading 0 scenario H0 H1 H2).
Defined.

(** ** Sessions and the gate of the handler *)

Section Gate.

Lemma sbind_ok {A B} (m : SM A) (k : A -> SM B) (sv sv' : Server) (a : A) :
  m sv = (Ok a, sv') -> sbind m k sv = k a sv'.
Proof. unfold sbind. now intros ->. Qed.

Lemma sbind_throw {A B} (m : SM A) (k : A -> SM B) (sv sv' : Server)
  (e : string) :
  m sv = (Throw e, sv') -> sbind m k sv = (Throw e, sv').
Proof. unfold sbind. now intros ->. Qed.

Lemma session_op_run {A}
  (f : (string -> option Session) -> A * (string -> option Session))
  (sv : Server) :
  read_ok (world sv) = true ->
  session_op f sv
  = (Ok (fst (f (sessions sv))),
     mkServer (admin_password sv) (after_kv (world sv) (kv (world sv)))
              (snd (f (sessions sv))) (uuids sv) (uuid_count sv)).
Proof.
  intros Hread. unfold session_op. rewrite kv_op_run by exact Hread.
  simpl. destruct (f (sessions sv)); reflexivity.
Qed.

Lemma session_op_throws {A}
  (f : (string -> option Session) -> A * (string -> option Session))
  (sv : Server) :
  read_ok (world sv) = false ->
  session_op f sv
  = (Throw "KV operation failed",
     with_world sv (after_kv (world sv) (kv (world sv)))).
Proof.
  intros Hread. unfold session_op. now rewrite kv_op_throws by exact Hread.
Qed.

Lemma lift_now_run (sv : Server) :
  lift date_now sv
  = (Ok (clock_next (world sv)), with_world sv (after_now (world sv))).
Proof.
  unfold lift, clock_next, after_now, date_now.
  destruct (ticks (world sv)); reflexivity.
Qed.

Lemma untouched_refl (sv : Server) : untouched sv sv.
Proof. repeat split. intros k. now left. Qed.

(** The check of a request that is not signed in answers [false], or throws
    with the database. *)
Lemma isAuthenticated_refuses (req : Request) (sv : Server) :
  JS.truthy (admin_password sv) = true ->
  signed_in sv req = false ->
  exists sv',
    untouched sv sv' /\
    (isAuthenticated req sv = (Ok false, sv') \/
     isAuthenticated req sv = (Throw "KV operation failed", sv')) /\
    (calm (world sv) -> isAuthenticated req sv = (Ok false, sv')).
Proof.
  intros Hpw Hout. unfold isAuthenticated.
  rewrite (sbind_ok ask_password _ sv sv (admin_password sv)) by reflexivity.
  rewrite Hpw. cbn [negb].
  unfold signed_in in Hout.
  destruct (req_session req) as [sid|]; unfold JS.truthy;
    [|exists sv; split; [apply untouched_refl|split; [left|]; reflexivity]].
  destruct (sid =? "")%string eqn:Hsid; cbn [negb] in *;
    [exists sv; split; [apply untouched_refl|split; [left|]; reflexivity]|].
  simpl in Hout. unfold validateSession.
  destruct (read_ok (world sv)) eqn:Hread.
  2:{ eexists. split; [|split].
      2:{ right. erewrite sbind_throw by (apply session_op_throws; exact Hread).
          reflexivity. }
      - repeat split. intros k. now left.
      - intros Hcalm. apply calm_read_ok in Hcalm. congruence. }
  pose proof (session_op_run (fun ss => (ss sid, ss)) sv Hread) as Hget.
  simpl fst in Hget. simpl snd in Hget.
  destruct (sessions sv sid) as [session|] eqn:Hfind.
  2:{ eexists. split; [|split].
      2:{ left. erewrite sbind_ok by exact Hget. reflexivity. }
      - repeat split. intros k. now left.
      - intros _. erewrite sbind_ok by exact Hget. reflexivity. }
  assert (Hlate : (clock_next (world sv) >? session_expiresAt session) = true)
    by (apply Z.leb_gt in Hout; apply Z.gtb_lt; lia).
  set (sv0 := mkServer (admin_password sv)
                       (after_kv (world sv) (kv (world sv)))
                       (sessions sv) (uuids sv) (uuid_count sv)) in *.
  assert (Hclock : clock_next (world sv0) = clock_next (world sv))
    by reflexivity.
  set (sv1 := with_world sv0 (after_now (world sv0))).
  assert (Hstart :
    forall k : SM bool,
      sbind (session_op (fun ss => (ss sid, ss)))
        (fun result =>
           match result with
           | None => sret false
           | Some session =>
               stamp <~ lift date_now ;;
               if stamp >? session_expiresAt session then k else sret true
           end) sv
      = k sv1).
  { intros k. erewrite sbind_ok by exact Hget. cbv iota.
    erewrite sbind_ok by apply lift_now_run.
    rewrite Hclock, Hlate. reflexivity. }
  assert (Hkeys : kv (world sv1) = kv (world sv) /\
                  console (world sv1) = console (world sv)).
  { subst sv1 sv0. simpl. now rewrite after_now_kv, after_now_console. }
  destruct (read_ok (world sv1)) eqn:Hread1.
  - eexists. split; [|split].
    2:{ left. rewrite Hstart.
        erewrite sbind_ok by (apply session_op_run; exact Hread1).
        reflexivity. }
    + simpl. destruct Hkeys as [Hk Hc]. split; [exact Hk|].
      split; [exact Hc|]. split; [reflexivity|].
      intros k. unfold session_delete. simpl.
      destruct (k =? sid)%string; [now right|now left].
    + intros _. rewrite Hstart.
      erewrite sbind_ok by (apply session_op_run; exact Hread1).
      reflexivity.
  - eexists. split; [|split].
    2:{ right. rewrite Hstart.
        erewrite sbind_throw by (apply session_op_throws; exact Hread1).
        reflexivity. }
    + simpl. destruct Hkeys as [Hk Hc]. split; [exact Hk|].
      split; [exact Hc|]. split; [reflexivity|]. intros k. now left.
    + intros Hcalm. exfalso.
      assert (Hcalm1 : calm (world sv1)).
      { subst sv1 sv0. simpl. unfold calm. rewrite after_now_faults.
        exact (calm_after_kv _ _ Hcalm). }
      apply calm_read_ok in Hcalm1. congruence.
Qed.

(** The check of a request that is signed in costs one operation of the
    database and one reading of the clock. *)
Lemma isAuthenticated_accepts (req : Request) (sv : Server) :
  JS.truthy (admin_password sv) = true ->
  signed_in sv req = true ->
  read_ok (world sv) = true ->
  isAuthenticated req sv = (Ok true, checked sv).
Proof.
  intros Hpw Hin Hread. unfold isAuthenticated.
  rewrite (sbind_ok ask_password _ sv sv (admin_password sv)) by reflexivity.
  rewrite Hpw. cbn [negb].
  unfold signed_in in Hin.
  destruct (req_session req) as [sid|]; [|discriminate].
  apply andb_prop in Hin. destruct Hin as [Hsid Hin].
  unfold JS.truthy. rewrite Hsid. cbn [negb].
  unfold validateSession.
  pose proof (session_op_run (fun ss => (ss sid, ss)) sv Hread) as Hget.
  simpl fst in Hget. simpl snd in Hget.
  destruct (sessions sv sid) as [session|] eqn:Hfind; [|discriminate].
  assert (Hlate : (clock_next (world sv) >? session_expiresAt session) = false).
  { apply Z.leb_le in Hin. rewrite Z.gtb_ltb. apply Z.ltb_ge. exact Hin. }
  erewrite sbind_ok by exact Hget. cbv iota.
  erewrite sbind_ok by apply lift_now_run.
  change (clock_next (world (mkServer (admin_password sv)
                               (after_kv (world sv) (kv (world sv)))
                               (sessions sv) (uuids sv) (uuid_count sv))))
    with (clock_next (world sv)).
  rewrite Hlate. reflexivity.
Qed.

Lemma isAuthenticated_open (req : Request) (sv : Server) :
  JS.truthy (admin_password sv) = false ->
  isAuthenticated req sv = (Ok true, sv).
Proof.
  intros Hpw. unfold isAuthenticated.
  rewrite (sbind_ok ask_password _ sv sv (admin_password sv)) by reflexivity.
  now rewrite Hpw.
Qed.

End Gate.

Section Handler.

(** The handler of a request for a page or a route, from the check of the
    session on. *)
Lemma handler_gate (req : Request) (sv : Server) :
  is_method (req_method req) OPTIONS = false ->
  (req_pathname req =? "/api/login")%string
  && is_method (req_method req) POST = false ->
  JS.truthy (admin_password sv) = true ->
  handler req sv
  = sbind (isAuthenticated req)
      (fun authenticated =>
         if negb authenticated
         then sret (if (req_pathname req =? "/")%string
                    then Html LOGIN_PAGE
                    else Refused 401 "Unauthorized")
         else if (req_pathname req =? "/")%string
              then sret (Html HTML_CONTENT)
              else lift (protected req)) sv.
Proof.
  intros Hopt Hlogin Hpw. unfold handler. rewrite Hopt, Hlogin.
  rewrite (sbind_ok ask_password _ sv sv (admin_password sv)) by reflexivity.
  rewrite Hpw. cbn [andb].
  destruct (req_pathname req =? "/")%string.
  - unfold sbind, sret.
    destruct (isAuthenticated req sv) as [[[|]|e] sv']; reflexivity.
  - rewrite (sbind_ok (sret false) _ sv sv false) by reflexivity.
    cbv iota. unfold sbind.
    destruct (isAuthenticated req sv) as [[[|]|e] sv']; reflexivity.
Qed.

Lemma handler_signed_in (req : Request) (sv : Server) :
  guarded req = true ->
  JS.truthy (admin_password sv) = true ->
  signed_in sv req = true ->
  read_ok (world sv) = true ->
  handler req sv = lift (protected req) (checked sv).
Proof.
  intros Hguard Hpw Hin Hread. unfold guarded in Hguard.
  apply andb_prop in Hguard. destruct Hguard as [Hguard Hroot].
  apply andb_prop in Hguard. destruct Hguard as [Hopt Hlogin].
  apply Bool.negb_true_iff in Hopt, Hlogin, Hroot.
  rewrite (handler_gate req sv Hopt Hlogin Hpw).
  erewrite sbind_ok by (apply isAuthenticated_accepts; assumption).
  cbn [negb]. now rewrite Hroot.
Qed.

Lemma handler_signed_out (req : Request) (sv : Server) :
  guarded req = true ->
  JS.truthy (admin_password sv) = true ->
  signed_in sv req = false ->
  calm (world sv) ->
  fst (handler req sv) = Ok (Refused 401 "Unauthorized") /\
  untouched sv (snd (handler req sv)).
Proof.
  intros Hguard Hpw Hout Hcalm. unfold guarded in Hguard.
  apply andb_prop in Hguard. destruct Hguard as [Hguard Hroot].
  apply andb_prop in Hguard. destruct Hguard as [Hopt Hlogin].
  apply Bool.negb_true_iff in Hopt, Hlogin, Hroot.
  rewrite (handler_gate req sv Hopt Hlogin Hpw).
  destruct (isAuthenticated_refuses req sv Hpw Hout)
    as (sv' & Hsame & _ & Hrun).
  erewrite sbind_ok by exact (Hrun Hcalm).
  cbn [negb]. rewrite Hroot. split; [reflexivity|exact Hsame].
Qed.

(** The session that a login creates. *)
Lemma createSession_run (sv : Server) :
  read_ok (world sv) = true ->
  let sid := uuids sv (uuid_count sv) in
  let w := world sv in
  createSession sv
  = (Ok sid,
     mkServer (admin_password sv)
              (after_kv (after_now (after_now w)) (kv (after_now (after_now w))))
              (session_set sid
                 (mkSession sid (clock_next w)
                            (clock_next (after_now w) + session_lifetime))
                 (sessions sv))
              (uuids sv) (S (uuid_count sv))).
Proof.
  intros Hread sid w. unfold createSession.
  rewrite (sbind_ok randomUUID _ sv _ sid) by reflexivity.
  erewrite sbind_ok by apply lift_now_run.
  erewrite sbind_ok by apply lift_now_run.
  erewrite sbind_ok.
  2:{ apply session_op_run. simpl. unfold read_ok in *.
      now rewrite !after_now_faults. }
  reflexivity.
Qed.

End Handler.

(** X14: with a password set, a request that is not signed in (no cookie,
    an unknown session, or one that has expired) reaches no route: the
    answer is 401 "Unauthorized" (the login page for [/]), or the handler
    throws when the database does; the keys and the console stay as they
    were and no session appears.  When the database never throws the answer
    is the refusal. *)
Theorem gate_keeps_out (req : Request) (sv : Server) :
  JS.truthy (admin_password sv) = true ->
  is_method (req_method req) OPTIONS = false ->
  (req_pathname req =? "/api/login")%string
  && is_method (req_method req) POST = false ->
  signed_in sv req = false ->
  let refusal := if (req_pathname req =? "/")%string
                 then Html LOGIN_PAGE else Refused 401 "Unauthorized" in
  untouched sv (snd (handler req sv)) /\
  (fst (handler req sv) = Ok refusal \/
   fst (handler req sv) = Throw "KV operation failed") /\
  (calm (world sv) -> fst (handler req sv) = Ok refusal).
Proof.
  intros Hpw Hopt Hlogin Hout refusal.
  rewrite (handler_gate req sv Hopt Hlogin Hpw).
  destruct (isAuthenticated_refuses req sv Hpw Hout)
    as (sv' & Hsame & Hrun & Hcalm).
  split; [|split].
  - destruct Hrun as [Hrun|Hrun].
    + erewrite sbind_ok by exact Hrun. exact Hsame.
    + erewrite sbind_throw by exact Hrun. exact Hsame.
  - destruct Hrun as [Hrun|Hrun].
    + left. erewrite sbind_ok by exact Hrun. reflexivity.
    + right. erewrite sbind_throw by exact Hrun. reflexivity.
  - intros Hc. erewrite sbind_ok by exact (Hcalm Hc). reflexivity.
Qed.

(** X15: a request for a route that is signed in, or any such request when
    no password is set, is answered by the route itself: on the world as it
    is when no password is set, and else after the one operation of the
    database and the one reading of the clock that the check of the session
    costs. *)
Theorem gate_lets_in (req : Request) (sv : Server) :
  guarded req = true ->
  negb (JS.truthy (admin_password sv))
  || (signed_in sv req && read_ok (world sv)) = true ->
  handler req sv
  = lift (protected req)
         (if JS.truthy (admin_password sv) then checked sv else sv).
Proof.
  intros Hguard Hopen.
  destruct (JS.truthy (admin_password sv)) eqn:Hpw.
  - simpl in Hopen. apply andb_prop in Hopen. destruct Hopen as [Hin Hread].
    now apply handler_signed_in.
  - unfold guarded in Hguard.
    apply andb_prop in Hguard. destruct Hguard as [Hguard Hroot].
    apply andb_prop in Hguard. destruct Hguard as [Hopt Hlogin].
    apply Bool.negb_true_iff in Hopt, Hlogin, Hroot.
    unfold handler. rewrite Hopt, Hlogin.
    rewrite (sbind_ok ask_password _ sv sv (admin_password sv)) by reflexivity.
    rewrite Hpw. cbn [andb].
    rewrite (sbind_ok (sret false) _ sv sv false) by reflexivity.
    cbv iota. rewrite Hroot.
    erewrite sbind_ok by (apply isAuthenticated_open; exact Hpw).
    reflexivity.
Qed.

(** X16: a login with the password of the server creates a session under
    the identifier that [crypto.randomUUID()] returns and answers with its
    cookie; the keys are not touched.
    With that cookie a request for a route is answered by the route as long
    as the clock has not passed the second reading of the clock at the
    login plus 7 days, and is refused with 401 afterwards.  A login with
    another password is refused with 401 and changes nothing. *)
Theorem login_round_trip (req : Request) (body : Body) (sv : Server) :
  calm (world sv) ->
  req_method req = POST ->
  req_pathname req = "/api/login" ->
  req_json req = Ok body ->
  let sid := uuids sv (uuid_count sv) in
  let expiry := clock_next (after_now (world sv)) + session_lifetime in
  (same_password (body_password body) (admin_password sv) = false ->
   handler req sv = (Ok (Refused 401 "Invalid password"), sv)) /\
  (same_password (body_password body) (admin_password sv) = true ->
   exists sv',
     handler req sv = (Ok (LoggedIn sid), sv') /\
     sessions sv' sid = Some (mkSession sid (clock_next (world sv)) expiry) /\
     (forall k, k <> sid -> sessions sv' k = sessions sv k) /\
     kv (world sv') = kv (world sv) /\
     console (world sv') = console (world sv) /\
     forall next : Request,
       JS.truthy (admin_password sv) = true ->
       sid <> "" ->
       guarded next = true ->
       req_session next = Some sid ->
       (clock_next (world sv') <= expiry ->
        handler next sv' = lift (protected next) (checked sv')) /\
       (expiry < clock_next (world sv') ->
        fst (handler next sv') = Ok (Refused 401 "Unauthorized"))).
Proof.
  intros Hcalm Hmethod Hpath Hbody sid expiry.
  pose proof (calm_read_ok _ Hcalm) as Hread.
  assert (Hrun : handler req sv = route_login req sv).
  { unfold handler. now rewrite Hmethod, Hpath. }
  rewrite Hrun. unfold route_login, stry. rewrite Hbody.
  rewrite (sbind_ok (lift (lift_result (Ok body))) _ sv sv body)
    by (unfold lift, lift_result, with_world; now destruct sv).
  rewrite (sbind_ok ask_password _ sv sv (admin_password sv)) by reflexivity.
  split; intros Hsame; rewrite Hsame; [reflexivity|].
  erewrite sbind_ok by (apply createSession_run; exact Hread).
  fold sid. eexists. split; [reflexivity|].
  assert (Hfound : forall ss s, session_set sid s ss sid = Some s)
    by (intros ss s; unfold session_set; now rewrite String.eqb_refl).
  split; [apply Hfound|]. split; [|split; [|split]].
  - intros k Hk. simpl. unfold session_set.
    apply String.eqb_neq in Hk. now rewrite Hk.
  - simpl. now rewrite !after_now_kv.
  - simpl. now rewrite !after_now_console.
  - intros next Hpw Hsid Hguard Hcookie.
    set (sv' := mkServer _ _ _ _ _).
    assert (Hin : signed_in sv' next = (clock_next (world sv') <=? expiry)).
    { unfold signed_in. rewrite Hcookie.
      apply String.eqb_neq in Hsid. rewrite Hsid. simpl negb. simpl andb.
      subst sv'. simpl sessions. now rewrite Hfound. }
    assert (Hcalm' : calm (world sv')).
    { subst sv'. simpl. apply calm_after_kv. unfold calm.
      now rewrite !after_now_faults. }
    split; intros Hclock.
    + apply handler_signed_in; [exact Hguard|exact Hpw| |].
      * rewrite Hin. now apply Z.leb_le.
      * now apply calm_read_ok.
    + apply handler_signed_out; [exact Hguard|exact Hpw| |exact Hcalm'].
      rewrite Hin. now apply Z.leb_gt.
Qed.

Lemma login_round_trip_witness :
  calm (world (locked scenario)) /\
  req_method (login_request (Some "hunter2")) = POST /\
  req_pathname (login_request (Some "hunter2")) = "/api/login" /\
  req_json (login_request (Some "hunter2"))
  = Ok (mkBody (Some "hunter2") None None None None None) /\
  (let req := login_request (Some "hunter2") in
   let body := mkBody (Some "hunter2") None None None None None in
   let sv := locked scenario in
   let sid := uuids sv (uuid_count sv) in
   let expiry := clock_next (after_now (world sv)) + session_lifetime in
   (same_password (body_password body) (admin_password sv) = false ->
    handler req sv = (Ok (Refused 401 "Invalid password"), sv)) /\
   (same_password (body_password body) (admin_password sv) = true ->
    exists sv',
      handler req sv = (Ok (LoggedIn sid), sv') /\
      sessions sv' sid = Some (mkSession sid (clock_next (world sv)) expiry) /\
      (forall k, k <> sid -> sessions sv' k = sessions sv k) /\
      kv (world sv') = kv (world sv) /\
      console (world sv') = console (world sv) /\
      forall next : Request,
        JS.truthy (admin_password sv) = true ->
        sid <> "" ->
        guarded next = true ->
        req_session next = Some sid ->
        (clock_next (world sv') <= expiry ->
         handler next sv' = lift (protected next) (checked sv')) /\
        (expiry < clock_next (world sv') ->
         fst (handler next sv') = Ok (Refused 401 "Unauthorized")))).
Proof.
  assert (H0 : calm (world (locked scenario))) by constructor.
  split; [exact H0|]. split; [reflexivity|]. split; [reflexivity|].
  split; [reflexivity|].
  exact (login_round_trip (login_request (Some "hunter2"))
           (mkBody (Some "hunter2") None None None None None)
           (locked scenario) H0 eq_refl eq_refl eq_refl).
Defined.

Lemma gate_keeps_out_witness :
  JS.truthy (admin_password (locked scenario)) = true /\
  is_method (req_method (get "/api/keys" None)) OPTIONS = false /\
  (req_pathname (get "/api/keys" None) =? "/api/login")%string
  && is_method (req_method (get "/api/keys" None)) POST = false /\
  signed_in (locked scenario) (get "/api/keys" None) = false /\
  (let req := get "/api/keys" None in
   let sv := locked scenario in
   let refusal := if (req_pathname req =? "/")%string
                  then Html LOGIN_PAGE else Refused 401 "Unauthorized" in
   untouched sv (snd (handler req sv)) /\
   (fst (handler req sv) = Ok refusal \/
    fst (handler req sv) = Throw "KV operation failed") /\
   (calm (world sv) -> fst (handler req sv) = Ok refusal)).
Proof.
  split; [reflexivity|]. split; [reflexivity|]. split; [reflexivity|].
  split; [reflexivity|].
  exact (gate_keeps_out (get "/api/keys" None) (locked scenario)
           eq_refl eq_refl eq_refl eq_refl).
Defined.

Lemma gate_lets_in_witness :
  guarded (get "/api/keys" (Some "uuid-0")) = true /\
  negb (JS.truthy (admin_password (signed scenario)))
  || (signed_in (signed scenario) (get "/api/keys" (Some "uuid-0"))
      && read_ok (world (signed scenario))) = true /\
  handler (get "/api/keys" (Some "uuid-0")) (signed scenario)
  = lift (protected (get "/api/keys" (Some "uuid-0")))
         (if JS.truthy (admin_password (signed scenario))
          then checked (signed scenario) else signed scenario).
Proof.
  split; [reflexivity|]. split; [reflexivity|].
  exact (gate_lets_in (get "/api/keys" (Some "uuid-0")) (signed scenario)
           eq_refl eq_refl).
Defined.

(** ** The routes of one key, through the handler *)

Section KeyRoutes.

Lemma key_path_differs (id suffix other : string) :
  no_slash id -> no_slash suffix ->
  split_slash other <> [""; "api"; "keys"; id; suffix]%string ->
  (key_path id suffix =? other)%string = false.
Proof.
  intros Hid Hs Hother. apply String.eqb_neq. intros Heq. apply Hother.
  rewrite <- Heq. now apply split_key_path.
Qed.

Lemma no_slash_full : no_slash "full".
Proof. unfold no_slash. simpl. intuition discriminate. Qed.

Lemma key_route_full (id : string) :
  no_slash id -> id <> "" ->
  key_route "full" (key_path id "full") = true /\
  before_last (split_slash (key_path id "full")) = Some id.
Proof.
  intros Hid Hne. unfold key_route.
  rewrite (split_key_path id "full" Hid no_slash_full).
  apply String.eqb_neq in Hne. simpl. now rewrite Hne.
Qed.

(** A [GET] of [/api/keys/<id>/full] is for the route that reveals. *)
Lemma protected_full (id : string) (req : Request) (w : World) :
  no_slash id -> id <> "" ->
  req_method req = GET ->
  req_pathname req = key_path id "full" ->
  guarded req = true /\
  protected req w = (r <- handle_full id ;; ret (FullReply r)) w.
Proof.
  intros Hid Hne Hmethod Hpath.
  assert (Hnot : forall other,
            split_slash other <> [""; "api"; "keys"; id; "full"]%string ->
            (key_path id "full" =? other)%string = false)
    by (intros other; apply key_path_differs; [exact Hid|apply no_slash_full]).
  destruct (key_route_full id Hid Hne) as [Hroute Hparts].
  split.
  - unfold guarded. rewrite Hmethod, Hpath.
    rewrite !Hnot by (simpl; discriminate). reflexivity.
  - unfold protected. rewrite Hmethod, Hpath.
    rewrite !Hnot by (simpl; discriminate).
    rewrite Hroute. cbn [is_method andb].
    unfold with_key_id. rewrite Hparts. unfold JS.truthy.
    apply String.eqb_neq in Hne. rewrite Hne. reflexivity.
Qed.

Lemma handle_full_run (id : string) (w : World) :
  read_ok w = true ->
  handle_full id w
  = (Ok (match kv_get id (kv w) with
         | Some e => Json 200 (entry_key e)
         | None => ErrorJson 404 "Key not found"
         end), after_kv w (kv w)).
Proof.
  intros Hread. unfold handle_full, getApiKey. apply try_ok.
  erewrite bind_ok by (apply kv_op_run; exact Hread).
  simpl. destruct (kv_get id (kv w)); reflexivity.
Qed.

End KeyRoutes.

(** X17: with a password set and a database that does not throw, the secret
    of a credential leaves the server through [GET /api/keys/<id>/full]
    only for a request that is signed in: such a request gets the secret
    stored under the ID (404 when there is none) and the keys stay as they
    were; any other request gets 401. *)
Theorem reveal_needs_session (id : string) (req : Request) (sv : Server) :
  no_slash id ->
  id <> "" ->
  req_method req = GET ->
  req_pathname req = key_path id "full" ->
  JS.truthy (admin_password sv) = true ->
  calm (world sv) ->
  (signed_in sv req = true ->
   exists sv',
     handler req sv
     = (Ok (FullReply (match kv_get id (kv (world sv)) with
                       | Some e => Json 200 (entry_key e)
                       | None => ErrorJson 404 "Key not found"
                       end)), sv') /\
     kv (world sv') = kv (world sv)) /\
  (signed_in sv req = false ->
   fst (handler req sv) = Ok (Refused 401 "Unauthorized")).
Proof.
  intros Hid Hne Hmethod Hpath Hpw Hcalm.
  pose proof (calm_read_ok _ Hcalm) as Hread.
  split; intros Hsigned.
  - destruct (protected_full id req (world (checked sv)) Hid Hne Hmethod Hpath)
      as [Hguard Hroute].
    rewrite (handler_signed_in req sv Hguard Hpw Hsigned Hread).
    unfold lift. rewrite Hroute.
    assert (Hread' : read_ok (world (checked sv)) = true).
    { apply calm_read_ok. unfold checked. simpl. unfold calm.
      rewrite after_now_faults. now apply calm_after_kv. }
    erewrite bind_ok by (apply handle_full_run; exact Hread').
    assert (Hkv : kv (world (checked sv)) = kv (world sv))
      by (unfold checked; simpl; now rewrite after_now_kv).
    unfold ret. eexists. split.
    + rewrite Hkv at 1. reflexivity.
    + simpl. exact Hkv.
  - destruct (protected_full id req (world sv) Hid Hne Hmethod Hpath)
      as [Hguard _].
    now apply handler_signed_out.
Qed.

Lemma reveal_needs_session_witness :
  no_slash "A" /\
  "A" <> "" /\
  req_method (get (key_path "A" "full") (Some "uuid-0")) = GET /\
  req_pathname (get (key_path "A" "full") (Some "uuid-0"))
  = key_path "A" "full" /\
  JS.truthy (admin_password (signed scenario)) = true /\
  calm (world (signed scenario)) /\
  (let req := get (key_path "A" "full") (Some "uuid-0") in
   let sv := signed scenario in
   (signed_in sv req = true ->
    exists sv',
      handler req sv
      = (Ok (FullReply (match kv_get "A" (kv (world sv)) with
                        | Some e => Json 200 (entry_key e)
                        | None => ErrorJson 404 "Key not found"
                        end)), sv') /\
      kv (world sv') = kv (world sv)) /\
   (signed_in sv req = false ->
    fst (handler req sv) = Ok (Refused 401 "Unauthorized"))).
Proof.
  assert (H0 : no_slash "A") by (unfold no_slash; simpl; intuition discriminate).
  assert (H1 : "A" <> "") by discriminate.
  assert (H2 : calm (world (signed scenario))) by constructor.
  split; [exact H0|]. split; [exact H1|]. split; [reflexivity|].
  split; [reflexivity|]. split; [reflexivity|]. split; [exact H2|].
  exact (reveal_needs_session "A" (get (key_path "A" "full") (Some "uuid-0"))
           (signed scenario) H0 H1 eq_refl eq_refl eq_refl H2).
Defined.

(** ** Deleting through the handler *)

Section DeleteRoute.

Lemma split_slash_last (front id : string) :
  no_slash id ->
  exists piece pieces,
    split_slash (front ++ String "/" id) = (piece :: pieces ++ [id])%list.
Proof.
  intros Hid. induction front as [|c front (piece & pieces & IH)]; simpl.
  - exists "", []. now rewrite (split_slash_no_slash id Hid).
  - rewrite IH. destruct (c =? "/")%char.
    + exists "", (piece :: pieces). reflexivity.
    + exists (String c piece), pieces. reflexivity.
Qed.

Lemma last_part_piece (front id : string) :
  no_slash id -> last_part (front ++ String "/" id) = Some id.
Proof.
  intros Hid. unfold last_part.
  destruct (split_slash_last front id Hid) as (piece & pieces & ->).
  change (piece :: pieces ++ [id])%list with ((piece :: pieces) ++ [id])%list.
  now rewrite rev_app_distr.
Qed.

Lemma route_delete_run (front id : string) (w : World) :
  no_slash id -> id <> "" ->
  read_ok w = true ->
  route_delete (front ++ String "/" id) w
  = (Ok (Json 200 tt), after_kv w (kv_delete id (kv w))).
Proof.
  intros Hid Hne Hread. unfold route_delete. apply try_ok.
  rewrite (last_part_piece front id Hid). unfold JS.truthy.
  apply String.eqb_neq in Hne. rewrite Hne. cbn [negb].
  erewrite bind_ok by (apply deleteApiKey_run; exact Hread).
  reflexivity.
Qed.

End DeleteRoute.

(** X18: a [DELETE] of a path under [/api/keys/] deletes the credential
    whose ID is the last piece of the path, whatever stands between: it
    answers with a success, after it nothing is stored under that ID, and
    every other credential is as before.  When nothing was stored under the
    ID the answer is the same success and the store is unchanged. *)
Theorem delete_by_last_piece (front id : string) (req : Request) (w : World) :
  no_slash id ->
  id <> "" ->
  read_ok w = true ->
  req_method req = DELETE ->
  req_pathname req = front ++ String "/" id ->
  String.prefix "/api/keys/" (req_pathname req) = true ->
  exists w',
    protected req w = (Ok (DeleteReply (Json 200 tt)), w') /\
    kv w' = kv_delete id (kv w) /\
    kv_get id (kv w') = None /\
    (forall k, k <> id -> kv_get k (kv w') = kv_get k (kv w)) /\
    (kv_get id (kv w) = None -> kv w' = kv w).
Proof.
  intros Hid Hne Hread Hmethod Hpath Hprefix.
  exists (after_kv w (kv_delete id (kv w))).
  split; [|split; [reflexivity|split; [|split]]].
  - unfold protected. rewrite Hmethod, Hprefix. cbn [is_method andb].
    rewrite !Bool.andb_false_r.
    assert (Hdata : (req_pathname req =? "/api/data")%string = false).
    { apply String.eqb_neq. intros Heq. rewrite Heq in Hprefix.
      discriminate. }
    rewrite Hdata, Hpath.
    erewrite bind_ok by (apply route_delete_run; assumption).
    reflexivity.
  - apply kv_get_delete_same.
  - intros k Hk. now apply kv_get_delete_other.
  - intros Habsent. simpl. apply kv_delete_absent.
    now apply kv_get_None.
Qed.

Lemma delete_by_last_piece_witness :
  no_slash "note" /\
  "note" <> "" /\
  read_ok scenario = true /\
  req_method (mkRequest DELETE "/api/keys/A/note" None (Throw "no body"))
  = DELETE /\
  req_pathname (mkRequest DELETE "/api/keys/A/note" None (Throw "no body"))
  = "/api/keys/A" ++ String "/" "note" /\
  String.prefix "/api/keys/"
    (req_pathname (mkRequest DELETE "/api/keys/A/note" None (Throw "no body")))
  = true /\
  (exists w',
    protected (mkRequest DELETE "/api/keys/A/note" None (Throw "no body"))
              scenario
    = (Ok (DeleteReply (Json 200 tt)), w') /\
    kv w' = kv_delete "note" (kv scenario) /\
    kv_get "note" (kv w') = None /\
    (forall k, k <> "note" -> kv_get k (kv w') = kv_get k (kv scenario)) /\
    (kv_get "note" (kv scenario) = None -> kv w' = kv scenario)).
Proof.
  assert (H0 : no_slash "note")
    by (unfold no_slash; simpl; intuition discriminate).
  assert (H1 : "note" <> "") by discriminate.
  split; [exact H0|]. split; [exact H1|]. split; [reflexivity|].
  split; [reflexivity|]. split; [reflexivity|]. split; [reflexivity|].
  exact (delete_by_last_piece "/api/keys/A" "note"
           (mkRequest DELETE "/api/keys/A/note" None (Throw "no body"))
           scenario H0 H1 eq_refl eq_refl eq_refl eq_refl).
Defined.
(* ------------------------------------------------------------------ *)
(** ** Secrets in disguise *)

Section Disguise.

Variable f : string -> string.
Hypothesis Hf : disguise f.

Lemma disguise_eqb (a b : string) : (f a =? f b)%string = (a =? b)%string.
Proof.
  destruct (a =? b)%string eqn:Hab.
  - apply String.eqb_eq in Hab. subst. apply String.eqb_refl.
  - apply String.eqb_neq. intros Heq. apply String.eqb_neq in Hab.
    apply Hab. now apply (proj2 Hf).
Qed.

Lemma disguise_masked (k : string) : maskedKey (f k) = maskedKey k.
Proof.
  rewrite !maskedKey_spec. unfold spec_masked.
  destruct (proj1 Hf k) as [-> ->]. reflexivity.
Qed.

Lemma disguise_prefix (k : string) : prefixKey (f k) = prefixKey k.
Proof.
  rewrite !prefixKey_spec. destruct (proj1 Hf k) as [-> _]. reflexivity.
Qed.

Lemma disguise_empty : f "" = "".
Proof.
  destruct (proj1 Hf "") as [Hfirst _].
  destruct (f "") as [|a s]; [reflexivity|discriminate].
Qed.

Lemma disguise_is_empty (k : string) : (f k =? "")%string = (k =? "")%string.
Proof. rewrite <- disguise_empty at 1. apply disguise_eqb. Qed.

Lemma disguise_length (k : string) :
  (0 <? JS.length (f k)) = (0 <? JS.length k).
Proof.
  pose proof (disguise_is_empty k) as H. unfold JS.length.
  destruct (f k), k; simpl in *; try reflexivity; discriminate.
Qed.

Lemma disguise_truthy (o : option string) :
  JS.truthy (option_map f o) = JS.truthy o.
Proof. destruct o; simpl; [|reflexivity]. now rewrite disguise_is_empty. Qed.

(** *** The store in disguise *)

Lemma disguised_set (id : string) (e : ApiKeyEntry) (s : KV) :
  kv_set id (disguised_entry f e) (disguised f s)
  = disguised f (kv_set id e s).
Proof.
  induction s as [|[k0 e0] s IH]; [reflexivity|].
  simpl. destruct (String.compare id k0); simpl; [reflexivity..|].
  now rewrite <- IH.
Qed.

Lemma disguised_delete (id : string) (s : KV) :
  kv_delete id (disguised f s) = disguised f (kv_delete id s).
Proof.
  unfold kv_delete. induction s as [|[k0 e0] s IH]; [reflexivity|].
  simpl. destruct (k0 =? id)%string; simpl; now rewrite IH.
Qed.

Lemma disguised_get (id : string) (s : KV) :
  kv_get id (disguised f s) = option_map (disguised_entry f) (kv_get id s).
Proof.
  unfold kv_get. induction s as [|[k0 e0] s IH]; [reflexivity|].
  simpl. destruct (k0 =? id)%string; [reflexivity|exact IH].
Qed.

Lemma disguised_entries (s : KV) :
  map snd (disguised f s) = map (disguised_entry f) (map snd s).
Proof. unfold disguised. now rewrite !map_map. Qed.

(** *** The monad *)

Section Generic.

Variable strict : bool.

Lemma sim_ret {A} (R : A -> A -> Prop) (a a' : A) :
  R a a' -> sim f strict R (ret a) (ret a').
Proof. intros HR w w' Hw. now split. Qed.

Lemma sim_throw {A} (R : A -> A -> Prop) (e : string) :
  sim f strict R (throw e) (throw e).
Proof. intros w w' Hw. now split. Qed.

Lemma sim_bind {A B} (R : A -> A -> Prop) (S : B -> B -> Prop)
  (m m' : M A) (k k' : A -> M B) :
  sim f strict R m m' ->
  (forall a a', R a a' -> sim f strict S (k a) (k' a')) ->
  sim f strict S (bind m k) (bind m' k').
Proof.
  intros Hm Hk w w' Hw. unfold bind. specialize (Hm w w' Hw).
  destruct (m w) as [[a|e] w1], (m' w') as [[a'|e'] w1']; simpl in Hm;
    destruct Hm as [HR Hw1]; try contradiction.
  - now apply Hk.
  - now split.
Qed.

Lemma sim_try {A} (R : A -> A -> Prop) (m m' : M A) (h h' : string -> M A) :
  sim f strict R m m' ->
  (forall e, sim f strict R (h e) (h' e)) ->
  sim f strict R (try_catch m h) (try_catch m' h').
Proof.
  intros Hm Hh w w' Hw. unfold try_catch. specialize (Hm w w' Hw).
  destruct (m w) as [[a|e] w1], (m' w') as [[a'|e'] w1']; simpl in Hm;
    destruct Hm as [HR Hw1]; try contradiction.
  - now split.
  - subst e'. now apply Hh.
Qed.

Lemma sim_mono {A} (R S : A -> A -> Prop) (m m' : M A) :
  (forall a a', R a a' -> S a a') ->
  sim f strict R m m' -> sim f strict S m m'.
Proof.
  intros HRS Hm w w' Hw. destruct (Hm w w' Hw) as [Hr Hw1].
  split; [|exact Hw1].
  destruct (fst (m w)), (fst (m' w')); simpl in *; auto.
Qed.

Lemma sim_console_log (line : string) :
  sim f strict eq (console_log line) (console_log line).
Proof.
  intros w w' (Hkv & Hremote & Hfaults & Hnow & Hticks & Hconsole).
  split; [reflexivity|]. unfold console_log, alike. simpl.
  repeat (split; [assumption|]). intros Hs. now rewrite Hconsole.
Qed.

Lemma sim_date_now : sim f strict eq date_now date_now.
Proof.
  intros w w' (Hkv & Hremote & Hfaults & Hnow & Hticks & Hconsole).
  unfold date_now. rewrite Hticks, Hnow.
  destruct (ticks w) eqn:Ht; simpl; (split; [reflexivity|]);
    unfold alike; simpl; repeat (split; try assumption); congruence.
Qed.

Lemma sim_lift_result {A} (R : A -> A -> Prop) (r r' : Result A) :
  outcome_alike R r r' -> sim f strict R (lift_result r) (lift_result r').
Proof. intros Hr w w' Hw. now split. Qed.

Lemma sim_same_result {A} (r : Result A) :
  sim f strict eq (lift_result r) (lift_result r).
Proof. apply sim_lift_result. now destruct r. Qed.

Lemma sim_fetch_usage (k : string) :
  sim f strict eq (fetch_usage k) (fetch_usage (f k)).
Proof.
  intros w w' Hw. unfold fetch_usage.
  destruct Hw as (Hkv & Hremote & Hrest). rewrite Hremote.
  destruct (remote w k); simpl; (split; [reflexivity|]);
    unfold alike; repeat split; try apply Hrest; auto.
Qed.

Lemma sim_kv_op {A} (R : A -> A -> Prop) (g g' : KV -> A * KV) :
  (forall s, R (fst (g s)) (fst (g' (disguised f s))) /\
             snd (g' (disguised f s)) = disguised f (snd (g s))) ->
  sim f strict R (kv_op g) (kv_op g').
Proof.
  intros Hg w w' (Hkv & Hremote & Hfaults & Hnow & Hticks & Hconsole).
  unfold kv_op. rewrite Hfaults, Hkv. specialize (Hg (kv w)).
  destruct (g (kv w)) as [a s1], (g' (disguised f (kv w))) as [a' s1'].
  simpl in Hg. destruct Hg as [HR ->].
  destruct (faults w) as [|[|] fs]; simpl; (split; [auto|]);
    unfold alike; simpl; repeat split; auto.
Qed.

Lemma sim_promise_all {A B} (R : A -> A -> Prop) (call call' : A -> M B)
  (items items' : list A) :
  (forall a a', R a a' -> sim f strict eq (call a) (call' a')) ->
  Forall2 R items items' ->
  sim f strict eq (promise_all call items) (promise_all call' items').
Proof.
  intros Hcall Hitems.
  induction Hitems as [|a a' l l' Ha _ IH]; simpl.
  - now apply sim_ret.
  - eapply sim_bind; [exact (Hcall a a' Ha)|]. intros r ? <-.
    eapply sim_bind; [exact IH|]. intros rs ? <-. now apply sim_ret.
Qed.

(** *** The store functions *)


Lemma sim_getAllApiKeys :
  sim f strict (entries_alike f) getAllApiKeys getAllApiKeys.
Proof.
  apply sim_kv_op. intros s. simpl. split; [apply disguised_entries|reflexivity].
Qed.

Lemma sim_getApiKey (id : string) :
  sim f strict (entry_alike f) (getApiKey id) (getApiKey id).
Proof.
  apply sim_kv_op. intros s. simpl. split; [apply disguised_get|reflexivity].
Qed.

Lemma sim_deleteApiKey (id : string) :
  sim f strict eq (deleteApiKey id) (deleteApiKey id).
Proof.
  apply sim_kv_op. intros s. simpl. split; [reflexivity|apply disguised_delete].
Qed.

Lemma sim_saveApiKey (id k : string) (name : option string) :
  sim f strict eq (saveApiKey id k name) (saveApiKey id (f k) name).
Proof.
  unfold saveApiKey. eapply sim_bind; [apply sim_date_now|]. intros t ? <-.
  apply sim_kv_op. intros s. simpl. split; [reflexivity|].
  apply (disguised_set id (mkEntry id k _ None t)).
Qed.

Lemma known_in_disguise (k : string) (l : list ApiKeyEntry) :
  existsb (fun entry => (entry_key entry =? f k)%string)
          (map (disguised_entry f) l)
  = existsb (fun entry => (entry_key entry =? k)%string) l.
Proof.
  induction l as [|e l IH]; [reflexivity|].
  simpl. now rewrite disguise_eqb, IH.
Qed.

Lemma sim_checkDuplicateKey (k : string) :
  sim f strict eq (checkDuplicateKey k) (checkDuplicateKey (f k)).
Proof.
  unfold checkDuplicateKey.
  eapply sim_bind; [apply sim_getAllApiKeys|]. intros l ? ->.
  apply sim_ret. symmetry. apply known_in_disguise.
Qed.

(** *** Groups of duplicates *)

Lemma filed_get (k : string) (m : KeyMap) :
  map_get (f k) (filed f m) = map_get k m.
Proof.
  induction m as [|[k0 v0] m IH]; [reflexivity|].
  simpl. rewrite disguise_eqb. now rewrite IH.
Qed.

Lemma filed_set (k : string) (v : list string) (m : KeyMap) :
  map_set (f k) v (filed f m) = filed f (map_set k v m).
Proof.
  induction m as [|[k0 v0] m IH]; [reflexivity|].
  simpl. rewrite disguise_eqb.
  destruct (k0 =? k)%string; simpl; [reflexivity|]. now rewrite IH.
Qed.

Lemma filed_groups (l : list ApiKeyEntry) (m : KeyMap) :
  fold_left group_entry (map (disguised_entry f) l) (filed f m)
  = filed f (fold_left group_entry l m).
Proof.
  revert m. induction l as [|e l IH]; intros m; [reflexivity|].
  assert (Hstep : group_entry (filed f m) (disguised_entry f e)
                  = filed f (group_entry m e))
    by (unfold group_entry; simpl; now rewrite filed_get, filed_set).
  simpl. rewrite Hstep. apply IH.
Qed.

Lemma filed_duplicates (m : KeyMap) :
  duplicates_of (filed f m) = duplicates_of m.
Proof.
  unfold duplicates_of. induction m as [|[k0 v0] m IH]; [reflexivity|].
  simpl. now rewrite IH, disguise_masked.
Qed.

Lemma sim_findDuplicateKeys :
  sim f strict eq findDuplicateKeys findDuplicateKeys.
Proof.
  unfold findDuplicateKeys.
  eapply sim_bind; [apply sim_getAllApiKeys|]. intros l ? ->.
  apply sim_ret. unfold group_by_key.
  now rewrite <- (filed_duplicates (fold_left group_entry l [])),
    <- filed_groups.
Qed.

(** *** The import *)

Lemma sim_import_one (i : nat) (k : string) (t : Tally) :
  sim f strict eq (import_one i k t) (import_one i (f k) t).
Proof.
  unfold import_one.
  eapply sim_bind; [apply sim_checkDuplicateKey|]. intros [|] ? <-.
  - rewrite disguise_prefix, disguise_masked.
    eapply sim_bind; [apply sim_console_log|]. intros _ _ _.
    now apply sim_ret.
  - eapply sim_bind; [apply sim_date_now|]. intros stamp ? <-.
    eapply sim_bind; [apply sim_saveApiKey|]. intros _ _ _.
    now apply sim_ret.
Qed.

Lemma sim_import_from (keys keys' : list string) :
  Forall2 (fun raw raw' => exists key, trimmed raw key /\ trimmed raw' (f key))
          keys keys' ->
  forall (i : nat) (t : Tally),
    sim f strict eq (import_from i keys t) (import_from i keys' t).
Proof.
  induction 1 as [|raw raw' keys keys' (key & Hraw & Hraw') _ IH];
    intros i t; simpl.
  - now apply sim_ret.
  - apply trimmed_unique in Hraw, Hraw'. subst key.
    rewrite Hraw', disguise_length.
    destruct (0 <? JS.length (JS.trim raw)); [|apply IH].
    apply (sim_bind eq); [|intros t' ? <-; apply IH].
    apply sim_try; [apply sim_import_one|].
    intros e. unfold import_failed.
    eapply sim_bind; [apply sim_console_log|]. intros _ _ _.
    now apply sim_ret.
Qed.

(** *** The fetcher *)

Lemma sim_get_usage (apiData : ApiData) :
  sim f strict eq (get_usage apiData) (get_usage apiData).
Proof. destruct apiData; [apply sim_throw|now apply sim_ret]. Qed.

Lemma sim_fetchApiKeyData (id k : string) :
  sim f strict eq (fetchApiKeyData id k) (fetchApiKeyData id (f k)).
Proof.
  unfold fetchApiKeyData, fetch_body, fetch_failed.
  rewrite disguise_prefix, disguise_masked.
  apply sim_try.
  - eapply sim_bind; [apply sim_fetch_usage|]. intros response ? <-.
    destruct (negb (resp_ok response)).
    + eapply sim_bind; [apply sim_same_result|].
      intros errorBody ? <-.
      eapply sim_bind; [apply sim_console_log|]. intros _ _ _.
      now apply sim_ret.
    + eapply sim_bind; [apply sim_same_result|].
      intros apiData ? <-.
      eapply sim_bind; [apply sim_get_usage|]. intros usage ? <-.
      destruct usage as [usageInfo|]; [|now apply sim_ret].
      destruct (usage_standard usageInfo); now apply sim_ret.
  - intros e. eapply sim_bind; [apply sim_console_log|]. intros _ _ _.
    now apply sim_ret.
Qed.

(** *** The routes *)

Lemma sim_reply {A} (m m' : M A) (h : string -> M (Reply A)) :
  sim f strict eq m m' ->
  (forall e, sim f strict eq (h e) (h e)) ->
  sim f strict eq
      (try_catch (a <- m ;; ret (Json 200 a)) h)
      (try_catch (a <- m' ;; ret (Json 200 a)) h).
Proof.
  intros Hm Hh. apply sim_try; [|exact Hh].
  eapply sim_bind; [exact Hm|]. intros a ? <-. now apply sim_ret.
Qed.

Lemma sim_error {A} (status : Z) (e : string) :
  sim f strict eq (ret (@ErrorJson A status e)) (ret (ErrorJson status e)).
Proof. now apply sim_ret. Qed.

Lemma sim_handle_keys : sim f strict eq handle_keys handle_keys.
Proof.
  unfold handle_keys. apply sim_try; [|intros e; apply sim_error].
  eapply sim_bind; [apply sim_getAllApiKeys|]. intros l ? ->.
  apply sim_ret. f_equal. rewrite map_map. apply map_ext. intros e.
  unfold safe_of. simpl. now rewrite disguise_masked.
Qed.

Lemma sim_handle_import (keys keys' : list string) :
  Forall2 (fun raw raw' => exists key, trimmed raw key /\ trimmed raw' (f key))
          keys keys' ->
  sim f strict eq (handle_import keys) (handle_import keys').
Proof.
  intros Hkeys. unfold handle_import, batchImportKeys.
  apply sim_reply; [now apply sim_import_from|intros e; apply sim_error].
Qed.

Lemma sim_handle_duplicates :
  sim f strict eq handle_duplicates handle_duplicates.
Proof.
  apply sim_reply; [apply sim_findDuplicateKeys|intros e; apply sim_error].
Qed.

Lemma sim_delete_rest (ids : list string) :
  forall n, sim f strict eq (delete_rest ids n) (delete_rest ids n).
Proof.
  induction ids as [|id ids IH]; intros n; simpl; [now apply sim_ret|].
  eapply sim_bind; [apply sim_deleteApiKey|]. intros _ _ _. apply IH.
Qed.

Lemma sim_clean_groups (groups : list DuplicateGroup) :
  forall n, sim f strict eq (clean_groups groups n) (clean_groups groups n).
Proof.
  induction groups as [|g groups IH]; intros n; simpl; [now apply sim_ret|].
  eapply sim_bind; [apply sim_delete_rest|]. intros n' ? <-. apply IH.
Qed.

Lemma sim_handle_duplicates_clean :
  sim f strict eq handle_duplicates_clean handle_duplicates_clean.
Proof.
  unfold handle_duplicates_clean.
  apply sim_try; [|intros e; apply sim_error].
  eapply sim_bind; [apply sim_findDuplicateKeys|]. intros groups ? <-.
  eapply sim_bind; [apply sim_clean_groups|]. intros n ? <-.
  now apply sim_ret.
Qed.

Lemma sim_delete_one (id : string) :
  sim f strict eq (delete_one id) (delete_one id).
Proof.
  unfold delete_one. apply sim_try.
  - eapply sim_bind; [apply sim_deleteApiKey|]. intros _ _ _.
    now apply sim_ret.
  - intros e. eapply sim_bind; [apply sim_console_log|]. intros _ _ _.
    now apply sim_ret.
Qed.

Lemma sim_handle_batch_delete (ids : list string) :
  sim f strict eq (handle_batch_delete ids) (handle_batch_delete ids).
Proof.
  unfold handle_batch_delete. apply sim_try; [|intros e; apply sim_error].
  eapply sim_bind.
  - apply (sim_promise_all eq); [intros id ? <-; apply sim_delete_one|].
    induction ids; constructor; auto.
  - intros results ? <-. now apply sim_ret.
Qed.

Lemma sim_check_balance (e : ApiKeyEntry) (l : list string) :
  sim f strict eq (check_balance e l) (check_balance (disguised_entry f e) l).
Proof.
  unfold check_balance. simpl. apply sim_try.
  - eapply sim_bind; [apply sim_fetch_usage|]. intros response ? <-.
    destruct (resp_ok response); [|now apply sim_ret].
    eapply sim_bind; [apply sim_same_result|].
    intros usageData ? <-.
    eapply sim_bind; [apply sim_get_usage|]. intros usage ? <-.
    destruct usage as [usageInfo|]; [|now apply sim_ret].
    destruct (usage_standard usageInfo) as [st|]; [|now apply sim_ret].
    destruct (JS.le_zero _); now apply sim_ret.
  - intros error. eapply sim_bind; [apply sim_console_log|]. intros _ _ _.
    now apply sim_ret.
Qed.

Lemma sim_check_balances (l : list ApiKeyEntry) :
  forall ids,
    sim f strict eq (check_balances l ids)
        (check_balances (map (disguised_entry f) l) ids).
Proof.
  induction l as [|e l IH]; intros ids; simpl; [now apply sim_ret|].
  eapply sim_bind; [apply sim_check_balance|]. intros ids' ? <-. apply IH.
Qed.

Lemma sim_delete_identified (ids : list string) :
  forall n,
    sim f strict eq (delete_identified ids n) (delete_identified ids n).
Proof.
  induction ids as [|id ids IH]; intros n; simpl; [now apply sim_ret|].
  apply (sim_bind eq); [|intros n' ? <-; apply IH].
  apply sim_try.
  - eapply sim_bind; [apply sim_deleteApiKey|]. intros _ _ _.
    now apply sim_ret.
  - intros e. eapply sim_bind; [apply sim_console_log|]. intros _ _ _.
    now apply sim_ret.
Qed.

Lemma sim_handle_zero_balance_delete :
  sim f strict eq handle_zero_balance_delete handle_zero_balance_delete.
Proof.
  unfold handle_zero_balance_delete.
  apply sim_try; [|intros e; apply sim_error].
  eapply sim_bind; [apply sim_getAllApiKeys|]. intros l ? ->.
  eapply sim_bind; [apply sim_check_balances|]. intros ids ? <-.
  eapply sim_bind; [apply sim_delete_identified|]. intros n ? <-.
  now apply sim_ret.
Qed.

Lemma sim_handle_usage (id : string) :
  sim f strict eq (handle_usage id) (handle_usage id).
Proof.
  unfold handle_usage. apply sim_try; [|intros e; apply sim_error].
  eapply sim_bind; [apply sim_getApiKey|]. intros [e|] ? ->; simpl;
    [|now apply sim_ret].
  eapply sim_bind; [apply sim_fetch_usage|]. intros response ? <-.
  destruct (negb (resp_ok response)).
  - eapply sim_bind; [apply sim_same_result|].
    intros errorText ? <-.
    destruct (response_init_error _); [apply sim_throw|now apply sim_ret].
  - eapply sim_bind; [apply sim_same_result|].
    intros usageData ? <-. now apply sim_ret.
Qed.

Lemma sim_with_key_id {A} (pathname : string)
  (route : string -> M (Reply A)) :
  (forall id, sim f strict eq (route id) (route id)) ->
  sim f strict eq (with_key_id pathname route) (with_key_id pathname route).
Proof.
  intros Hroute. unfold with_key_id.
  destruct (negb (JS.truthy _)); [apply sim_error|apply Hroute].
Qed.

Lemma sim_route_delete (pathname : string) :
  sim f strict eq (route_delete pathname) (route_delete pathname).
Proof.
  unfold route_delete. apply sim_try; [|intros e; apply sim_error].
  destruct (negb (JS.truthy _)); [apply sim_error|].
  eapply sim_bind; [apply sim_deleteApiKey|]. intros _ _ _.
  now apply sim_ret.
Qed.

Section Bodies.

Variables body body' : Result Body.
Hypothesis Hbody : outcome_alike (alike_bodies f) body body'.

Lemma sim_route_note (pathname : string) :
  sim f strict eq (route_note pathname body) (route_note pathname body').
Proof.
  unfold route_note. apply sim_try; [|intros e; apply sim_error].
  destruct (negb (JS.truthy _)); [apply sim_error|].
  eapply sim_bind; [apply sim_lift_result; exact Hbody|].
  intros b b' (_ & _ & _ & -> & _).
  eapply sim_bind; [apply sim_getApiKey|]. intros [e|] ? ->; simpl;
    [|now apply sim_ret].
  apply (sim_bind eq); [|intros _ _ _; now apply sim_ret].
  apply sim_kv_op. intros s. simpl. split; [reflexivity|].
  apply (disguised_set _ (with_note e (body_note b))).
Qed.

Lemma sim_route_add :
  sim f strict eq (route_add body) (route_add body').
Proof.
  unfold route_add. apply sim_try; [|intros e; apply sim_error].
  eapply sim_bind; [apply sim_lift_result; exact Hbody|].
  intros b b' (_ & _ & -> & _ & -> & _).
  rewrite disguise_truthy.
  destruct (body_key b) as [k|]; simpl; [|now apply sim_ret].
  destruct (negb (negb (k =? "")%string)); [now apply sim_ret|].
  eapply sim_bind; [apply sim_date_now|]. intros stamp ? <-.
  eapply sim_bind; [apply sim_saveApiKey|]. intros _ _ _.
  now apply sim_ret.
Qed.

Lemma sim_route_import :
  sim f strict eq (route_import body) (route_import body').
Proof.
  unfold route_import. apply sim_try; [|intros e; apply sim_error].
  eapply sim_bind; [apply sim_lift_result; exact Hbody|].
  intros b b' (_ & _ & _ & _ & _ & Hkeys).
  destruct (body_keys b) as [keys|], (body_keys b') as [keys'|];
    try contradiction; [now apply sim_handle_import|now apply sim_ret].
Qed.

Lemma sim_route_batch_delete :
  sim f strict eq (route_batch_delete body) (route_batch_delete body').
Proof.
  unfold route_batch_delete. apply sim_try; [|intros e; apply sim_error].
  eapply sim_bind; [apply sim_lift_result; exact Hbody|].
  intros b b' (_ & -> & _).
  destruct (body_ids b); [apply sim_handle_batch_delete|now apply sim_ret].
Qed.

End Bodies.

End Generic.

(** *** The aggregation: the consoles part *)

Lemma alike_loose (strict : bool) (w w' : World) :
  alike f strict w w' -> alike f false w w'.
Proof.
  intros (Hkv & Hremote & Hfaults & Hnow & Hticks & _).
  repeat (split; [assumption|]). discriminate.
Qed.

Lemma sim_console_loose (line line' : string) :
  sim f false eq (console_log line) (console_log line').
Proof.
  intros w w' (Hkv & Hremote & Hfaults & Hnow & Hticks & _).
  split; [reflexivity|]. unfold console_log, alike. simpl.
  repeat (split; [assumption|]). discriminate.
Qed.

Lemma find_disguised (id : string) (l : list ApiKeyEntry) :
  find (fun e => (entry_id e =? id)%string) (map (disguised_entry f) l)
  = option_map (disguised_entry f)
               (find (fun e => (entry_id e =? id)%string) l).
Proof.
  induction l as [|e l IH]; [reflexivity|].
  simpl. destruct (entry_id e =? id)%string; [reflexivity|exact IH].
Qed.

Lemma sim_log_keys (l : list ApiKeyEntry) (items : list KeyData) :
  sim f false eq (log_keys l items)
      (log_keys (map (disguised_entry f) l) items).
Proof.
  induction items as [|item items IH]; simpl; [now apply sim_ret|].
  apply (sim_bind false eq); [|intros _ _ _; exact IH].
  rewrite find_disguised.
  destruct (find _ l); simpl; [apply sim_console_loose|now apply sim_ret].
Qed.

Lemma sim_getAggregatedData :
  sim f false eq getAggregatedData getAggregatedData.
Proof.
  unfold getAggregatedData.
  eapply sim_bind; [apply sim_getAllApiKeys|]. intros l ? ->.
  rewrite length_map.
  destruct (List.length l =? 0)%nat; [apply sim_throw|].
  eapply sim_bind.
  { apply (sim_promise_all false
             (fun e e' => e' = disguised_entry f e)).
    - intros e ? ->. apply sim_fetchApiKeyData.
    - induction l; constructor; auto. }
  intros results ? <-.
  eapply sim_bind; [apply sim_date_now|]. intros t ? <-.
  apply (sim_bind false eq); [|intros _ _ _; now apply sim_ret].
  destruct (0 <? List.length _)%nat; [|apply sim_console_log].
  eapply sim_bind; [apply sim_console_log|]. intros _ _ _.
  eapply sim_bind; [apply sim_console_log|]. intros _ _ _.
  eapply sim_bind; [apply sim_console_log|]. intros _ _ _.
  eapply sim_bind; [apply sim_log_keys|]. intros _ _ _.
  apply sim_console_log.
Qed.

Lemma sim_handle_data : sim f false eq handle_data handle_data.
Proof.
  unfold handle_data. apply sim_reply; [apply sim_getAggregatedData|].
  intros e. eapply sim_bind; [apply sim_console_log|]. intros _ _ _.
  now apply sim_ret.
Qed.

(** *** The routes behind the authentication *)

Lemma sim_answer (strict : bool) {A} (tag : Reply A -> Answer)
  (m m' : M (Reply A)) :
  sim f strict eq m m' ->
  sim f strict eq (r <- m ;; ret (tag r)) (r <- m' ;; ret (tag r)).
Proof.
  intros Hm. eapply sim_bind; [exact Hm|]. intros r ? <-. now apply sim_ret.
Qed.

Lemma sim_protected (strict : bool) (req req' : Request) :
  alike_requests f req req' ->
  reveal req = false ->
  (strict = true -> aggregation req = false) ->
  sim f strict eq (protected req) (protected req').
Proof.
  intros (Hmethod & Hpath & _ & Hbody) Hreveal Hstrict.
  unfold reveal in Hreveal. unfold aggregation in Hstrict.
  unfold protected. rewrite Hmethod, Hpath.
  repeat lazymatch goal with
         | |- sim _ _ _ (if ?c then _ else _) _ => destruct c eqn:?
         end;
    try (apply sim_answer;
         first [ apply sim_handle_keys
               | now apply sim_route_import
               | apply sim_handle_duplicates
               | apply sim_handle_duplicates_clean
               | now apply sim_route_batch_delete
               | apply sim_handle_zero_balance_delete
               | apply sim_with_key_id; apply sim_handle_usage
               | now apply sim_route_note
               | apply sim_route_delete
               | now apply sim_route_add ]).
  - destruct strict; [discriminate (Hstrict eq_refl)|].
    apply sim_answer, sim_handle_data.
  - congruence.
  - now apply sim_ret.
Qed.

(** *** The handler *)

Section Servers.

Variable strict : bool.

Lemma ssim_ret {A} (R : A -> A -> Prop) (a a' : A) :
  R a a' -> ssim f strict R (sret a) (sret a').
Proof. intros HR sv sv' Hsv. now split. Qed.

Lemma ssim_bind {A B} (R : A -> A -> Prop) (S : B -> B -> Prop)
  (m m' : SM A) (k k' : A -> SM B) :
  ssim f strict R m m' ->
  (forall a a', R a a' -> ssim f strict S (k a) (k' a')) ->
  ssim f strict S (sbind m k) (sbind m' k').
Proof.
  intros Hm Hk sv sv' Hsv. unfold sbind. specialize (Hm sv sv' Hsv).
  destruct (m sv) as [[a|e] sv1], (m' sv') as [[a'|e'] sv1']; simpl in Hm;
    destruct Hm as [HR Hsv1]; try contradiction.
  - now apply Hk.
  - now split.
Qed.

Lemma ssim_try {A} (R : A -> A -> Prop) (m m' : SM A)
  (h h' : string -> SM A) :
  ssim f strict R m m' ->
  (forall e, ssim f strict R (h e) (h' e)) ->
  ssim f strict R (stry m h) (stry m' h').
Proof.
  intros Hm Hh sv sv' Hsv. unfold stry. specialize (Hm sv sv' Hsv).
  destruct (m sv) as [[a|e] sv1], (m' sv') as [[a'|e'] sv1']; simpl in Hm;
    destruct Hm as [HR Hsv1]; try contradiction.
  - now split.
  - subst e'. now apply Hh.
Qed.

Lemma ssim_lift {A} (R : A -> A -> Prop) (m m' : M A) :
  sim f strict R m m' -> ssim f strict R (lift m) (lift m').
Proof.
  intros Hm sv sv' (Hadmin & Hsessions & Huuids & Hcount & Hw).
  unfold lift. specialize (Hm _ _ Hw).
  destruct (m (world sv)) as [r w1], (m' (world sv')) as [r' w1'].
  simpl in *. destruct Hm as [Hr Hw1]. split; [exact Hr|].
  unfold alike_servers. simpl. auto.
Qed.

Lemma ssim_session_op {A}
  (g : (string -> option Session) -> A * (string -> option Session)) :
  ssim f strict eq (session_op g) (session_op g).
Proof.
  intros sv sv' (Hadmin & Hsessions & Huuids & Hcount & Hw).
  unfold session_op.
  pose proof (sim_kv_op strict eq (fun s => (tt, s)) (fun s => (tt, s))
                (fun s => conj eq_refl eq_refl) _ _ Hw) as Hop.
  destruct (kv_op _ (world sv)) as [[[]|e] w1],
           (kv_op _ (world sv')) as [[[]|e'] w1'];
    simpl in Hop; destruct Hop as [Hr Hw1]; try contradiction.
  - rewrite Hsessions. destruct (g (sessions sv)) as [a ss]. simpl.
    split; [reflexivity|]. unfold alike_servers. simpl. auto.
  - subst e'. split; [reflexivity|]. unfold alike_servers. simpl. auto.
Qed.

Lemma ssim_randomUUID : ssim f strict eq randomUUID randomUUID.
Proof.
  intros sv sv' (Hadmin & Hsessions & Huuids & Hcount & Hw).
  unfold randomUUID. simpl. rewrite Huuids, Hcount.
  split; [reflexivity|]. unfold alike_servers. simpl. auto.
Qed.

Lemma ssim_ask_password : ssim f strict eq ask_password ask_password.
Proof.
  intros sv sv' Hsv. unfold ask_password. simpl.
  split; [symmetry; apply Hsv|exact Hsv].
Qed.

Lemma ssim_createSession : ssim f strict eq createSession createSession.
Proof.
  unfold createSession.
  eapply ssim_bind; [apply ssim_randomUUID|]. intros sessionId ? <-.
  eapply ssim_bind; [apply ssim_lift, sim_date_now|]. intros createdAt ? <-.
  eapply ssim_bind; [apply ssim_lift, sim_date_now|]. intros stamp ? <-.
  eapply ssim_bind; [apply ssim_session_op|]. intros _ _ _.
  now apply ssim_ret.
Qed.

Lemma ssim_validateSession (sessionId : string) :
  ssim f strict eq (validateSession sessionId) (validateSession sessionId).
Proof.
  unfold validateSession.
  eapply ssim_bind; [apply ssim_session_op|]. intros [session|] ? <-;
    [|now apply ssim_ret].
  eapply ssim_bind; [apply ssim_lift, sim_date_now|]. intros stamp ? <-.
  destruct (stamp >? session_expiresAt session); [|now apply ssim_ret].
  eapply ssim_bind; [apply ssim_session_op|]. intros _ _ _.
  now apply ssim_ret.
Qed.

Section Requests.

Variables req req' : Request.
Hypothesis Hreq : alike_requests f req req'.

Lemma ssim_isAuthenticated :
  ssim f strict eq (isAuthenticated req) (isAuthenticated req').
Proof.
  unfold isAuthenticated. destruct Hreq as (_ & _ & -> & _).
  eapply ssim_bind; [apply ssim_ask_password|]. intros password ? <-.
  destruct (negb (JS.truthy password)); [now apply ssim_ret|].
  destruct (negb (JS.truthy (req_session req))); [now apply ssim_ret|].
  apply ssim_validateSession.
Qed.

Lemma ssim_route_login :
  ssim f strict eq (route_login req) (route_login req').
Proof.
  unfold route_login. apply ssim_try; [|intros e; now apply ssim_ret].
  eapply ssim_bind.
  { apply ssim_lift, sim_lift_result. apply Hreq. }
  intros b b' (-> & _).
  eapply ssim_bind; [apply ssim_ask_password|]. intros admin ? <-.
  destruct (same_password _ _); [|now apply ssim_ret].
  eapply ssim_bind; [apply ssim_createSession|]. intros sessionId ? <-.
  now apply ssim_ret.
Qed.

Lemma ssim_handler :
  reveal req = false ->
  (strict = true -> aggregation req = false) ->
  ssim f strict eq (handler req) (handler req').
Proof.
  intros Hreveal Hstrict. unfold handler.
  destruct Hreq as (Hmethod & Hpath & _). rewrite Hmethod, Hpath.
  destruct (is_method (req_method req) OPTIONS); [now apply ssim_ret|].
  destruct (_ && _); [apply ssim_route_login|].
  eapply ssim_bind; [apply ssim_ask_password|]. intros admin ? <-.
  eapply ssim_bind.
  { instantiate (1 := eq).
    destruct (_ && _); [|now apply ssim_ret].
    eapply ssim_bind; [apply ssim_isAuthenticated|]. intros a ? <-.
    now apply ssim_ret. }
  intros login ? <-.
  destruct login; [now apply ssim_ret|].
  destruct (req_pathname req =? "/")%string; [now apply ssim_ret|].
  eapply ssim_bind; [apply ssim_isAuthenticated|].
  intros authenticated ? <-.
  destruct (_ && _); [now apply ssim_ret|].
  now apply ssim_lift, sim_protected.
Qed.

End Requests.
End Servers.

Lemma outcome_same {A} (r r' : Result A) : outcome_alike eq r r' -> r' = r.
Proof.
  destruct r, r'; simpl; try contradiction; intros H; congruence.
Qed.

(** What a request other than the reveal answers, and what it leaves, in
    a world and in the same world in disguise. *)
Lemma handler_in_disguise (req req' : Request) (sv sv' : Server) :
  alike_servers f true sv sv' ->
  alike_requests f req req' ->
  reveal req = false ->
  fst (handler req' sv') = fst (handler req sv) /\
  alike_servers f (negb (aggregation req))
                (snd (handler req sv)) (snd (handler req' sv')).
Proof.
  intros Hsv Hreq Hreveal.
  destruct (aggregation req) eqn:Haggregation; simpl negb.
  - destruct (ssim_handler false req req' Hreq Hreveal
                (fun H => False_ind _ (Bool.diff_false_true H)) sv sv')
      as [Hr Hsv1].
    + destruct Hsv as (? & ? & ? & ? & Hw).
      repeat (split; [assumption|]). exact (alike_loose _ _ _ Hw).
    + split; [now apply outcome_same|exact Hsv1].
  - destruct (ssim_handler true req req' Hreq Hreveal
                (fun _ => Haggregation) sv sv' Hsv) as [Hr Hsv1].
    split; [now apply outcome_same|exact Hsv1].
Qed.

End Disguise.

Section Swap.

Variables a b : string.

Lemma swap_involutive (k : string) : swap a b (swap a b k) = k.
Proof.
  unfold swap.
  destruct (String.eqb_spec k a) as [->|Hka].
  - destruct (String.eqb_spec b a) as [->|Hba]; [reflexivity|].
    now rewrite String.eqb_refl.
  - destruct (String.eqb_spec k b) as [->|Hkb].
    + now rewrite String.eqb_refl.
    + apply String.eqb_neq in Hka, Hkb. now rewrite Hka, Hkb.
Qed.

Lemma swap_disguise : look_alike a b -> disguise (swap a b).
Proof.
  intros [Hfirst Hlast]. split.
  - intros k. unfold swap, look_alike.
    destruct (String.eqb_spec k a) as [->|Hka]; [now split|].
    destruct (String.eqb_spec k b) as [->|Hkb]; now split.
  - intros k k' Heq.
    now rewrite <- (swap_involutive k), Heq, swap_involutive.
Qed.

Lemma in_disguise_alike (w : World) :
  alike (swap a b) true w (in_disguise (swap a b) w).
Proof.
  unfold alike, in_disguise. simpl.
  split; [reflexivity|]. split; [|now repeat split].
  intros k. now rewrite swap_involutive.
Qed.

End Swap.


